(** * The mma4py optimization driver (src/optimizer.cpp)

    A shallow embedding of the driver: the two vector constructors
    [allocate_petsc_vec] and [bind_petsc_vec_to_array], the constructor of
    [Optimizer] and the loop of [Optimizer::optimize], over an explicit
    store (numeric blocks, vector objects, files) threaded through every
    call.

    Conventions.
    - [PetscScalar] and [double] are exact rationals: the order and the
      arithmetic are the ideal ones, rounding and not-a-number values are
      outside the embedding. The one place where a not-a-number value
      is followed is the loop of lines 152-159, read a second time on
      [double] below.
    - [PetscInt] and [int] are integers [Z]; a length is [Z.to_nat] of it.
      The one product of two [int]s, at line 53, is taken with its
      wrap-around ([int_wrap]).
    - A PETSc function returns its error code together with the new
      store; [PetscCall] returns early on a non-zero code, as the macro
      does.
    - The embedding follows one rank: a reduction over the communicator
      is the local contribution (exact on a communicator of size one);
      what the other ranks add to the sum of the local sizes of a vector
      is a field of the communicator. *)

From Stdlib Require Import QArith Qminmax Qabs ZArith List String Ascii Lia Lqa.
From stdpp Require Import gmap list strings.

Open Scope Q_scope.

(** ** Scalars and error codes *)

Definition PetscScalar := Q.
Definition PetscInt := Z.
Definition PetscErrorCode := Z.

Definition PETSC_ERR_SUP : PetscErrorCode := 56%Z.
Definition PETSC_ERR_SIG : PetscErrorCode := 59%Z.
Definition PETSC_ERR_ARG_SIZ : PetscErrorCode := 60%Z.
Definition PETSC_ERR_ARG_CORRUPT : PetscErrorCode := 64%Z.
Definition PETSC_ERR_ARG_WRONGSTATE : PetscErrorCode := 73%Z.
Definition PETSC_ERR_ARG_INCOMP : PetscErrorCode := 75%Z.

(** [a > b] on doubles, as a boolean. *)
Definition Qgtb (a b : Q) : bool := negb (Qle_bool a b).

(** ** Maximum constraint violation (optimizer.cpp, lines 152-159)

<<
    double infeas = 0.0;
    for (int i = 0; i < ncons; i++)
      if (con_vals[i] > infeas) infeas = con_vals[i];
>> *)

Definition infeas_step (infeas c : Q) : Q :=
  if Qgtb c infeas then c else infeas.

Definition max_violation (con_vals : list Q) : Q :=
  fold_left infeas_step con_vals 0.

(** The same quantity in the words of the specification: the maximum over
    the constraints of [max(constraint_value, 0)]. *)
Definition max_violation_spec (con_vals : list Q) : Q :=
  fold_right (fun c acc => Qmax (Qmax c 0) acc) 0 con_vals.

(** The same loop on the values a [double] really takes, as far as the
    comparison of line 156 tells them apart: a number, or not-a-number,
    with which every comparison is false. *)
Inductive double :=
| DNum (q : Q)
| DNaN.

(** [a > b] and [a <= b] on doubles. *)
Definition dgt (a b : double) : bool :=
  match a, b with
  | DNum x, DNum y => Qgtb x y
  | _, _ => false
  end.

Definition dle (a b : double) : bool :=
  match a, b with
  | DNum x, DNum y => Qle_bool x y
  | _, _ => false
  end.

Definition infeas_step_d (infeas c : double) : double :=
  if dgt c infeas then c else infeas.

Definition max_violation_d (con_vals : list double) : double :=
  fold_left infeas_step_d con_vals (DNum 0).

(** ** Move limits

    The fraction hard-coded at line 102 of optimizer.cpp. *)
Definition movelim : Q := 2 # 10.

(** Modelled from the spec: [MMA::SetOuterMovelimit] is a member of the
    solver class, whose source file is not part of src/ (only its call at
    line 138 is). For every local variable [i],
    [lb_temp[i] = max(lb[i], x[i] - f*(ub[i]-lb[i]))] and
    [ub_temp[i] = min(ub[i], x[i] + f*(ub[i]-lb[i]))]. *)
Definition movelimit_lo (f l u xi : Q) : Q := Qmax l (xi - f * (u - l)).
Definition movelimit_hi (f l u xi : Q) : Q := Qmin u (xi + f * (u - l)).

Definition SetOuterMovelimit_spec (lb ub : list Q) (f : Q) (x : list Q)
  : list Q * list Q :=
  (zip_with (fun lu xi => movelimit_lo f lu.1 lu.2 xi) (zip lb ub) x,
   zip_with (fun lu xi => movelimit_hi f lu.1 lu.2 xi) (zip lb ub) x).

(** ** The store

    Numeric storage is a collection of blocks (one per allocation); a
    pointer is a block and an offset into it, so that [&gcon_data[offset]]
    is a pointer into the block of [np_gcon]. *)

Record ptr := Ptr { p_block : nat; p_off : nat }.

(** A communicator, seen from one of its ranks. Every rank runs the same
    calls: when a vector is created on the communicator, [comm_peers] is
    the sum of the local sizes the other ranks give for it. *)
Record MPI_Comm := { comm_size : Z; comm_rank : Z; comm_peers : Z }.

(** The sum over the ranks of [comm] of the local sizes given for a
    vector, of which this rank gives [n]; on one rank it is [n]. *)
Definition sum_local (comm : MPI_Comm) (n : Z) : Z :=
  if (comm_size comm <=? 1)%Z then n else (n + comm_peers comm)%Z.

Inductive VecType := VECSEQ | VECMPI.

(** A PETSc vector object. [v_array] is the local storage the accessors
    expose; [v_unplaced] keeps the vector's own array while a user array
    is placed over it. *)
Record VecObj := {
  v_comm : MPI_Comm;
  v_n : Z;
  v_N : Z;
  v_type : option VecType;
  v_array : option ptr;
  v_unplaced : option ptr
}.

(** A [Vec] is a handle on a vector object. *)
Abbreviation Vec := nat (only parsing).

(** What the driver asks of the problem and of the solver, in the order
    it asks it, with the values passed. The list is a record of the run,
    it does not influence it. *)
Inductive event :=
| EvGetMpiComm
| EvGetNumVars
| EvGetNumVarsLocal
| EvGetNumCons
| EvGetVarsAndBounds
| EvEvalObjCon (x : list Q)
| EvEvalObjConGrad (x : list Q)
| EvMMANew (n m : Z) (x : list Q)
| EvSetOuterMovelimit (lb ub : list Q) (f : Q) (x : list Q)
| EvUpdate (x g cons : list Q) (gcon : list (list Q)) (lbt ubt : list Q)
| EvKKTresidual (x g cons : list Q) (gcon : list (list Q)) (lbt ubt : list Q)
| EvMMADelete.

(** [uninit] gives the contents of memory that is handed out without
    being initialised; [writable] tells which paths [fopen] can open for
    writing; [files] holds the contents of the files. *)
Record World := {
  heap : gmap nat (list Q);
  next_block : nat;
  uninit : nat -> nat -> Q;
  vecs : gmap nat VecObj;
  next_vec : nat;
  writable : string -> bool;
  files : gmap string string;
  trace : list event
}.

Definition with_heap (h : gmap nat (list Q)) (w : World) : World :=
  {| heap := h; next_block := next_block w; uninit := uninit w;
     vecs := vecs w; next_vec := next_vec w; writable := writable w;
     files := files w; trace := trace w |}.

Definition with_vecs (vs : gmap nat VecObj) (w : World) : World :=
  {| heap := heap w; next_block := next_block w; uninit := uninit w;
     vecs := vs; next_vec := next_vec w; writable := writable w;
     files := files w; trace := trace w |}.

Definition with_files (fs : gmap string string) (w : World) : World :=
  {| heap := heap w; next_block := next_block w; uninit := uninit w;
     vecs := vecs w; next_vec := next_vec w; writable := writable w;
     files := fs; trace := trace w |}.

(** A new block with the given contents. *)
Definition alloc_block (l : list Q) (w : World) : nat * World :=
  (next_block w,
   {| heap := <[next_block w := l]> (heap w); next_block := S (next_block w);
      uninit := uninit w; vecs := vecs w; next_vec := next_vec w;
      writable := writable w; files := files w; trace := trace w |}).

Definition new_vec (o : VecObj) (w : World) : Vec * World :=
  (next_vec w,
   {| heap := heap w; next_block := next_block w; uninit := uninit w;
      vecs := <[next_vec w := o]> (vecs w); next_vec := S (next_vec w);
      writable := writable w; files := files w; trace := trace w |}).

Definition emit (e : event) (w : World) : World :=
  {| heap := heap w; next_block := next_block w; uninit := uninit w;
     vecs := vecs w; next_vec := next_vec w; writable := writable w;
     files := files w; trace := trace w ++ [e] |}.

(** [p[i]] and [p[i] = v]. Outside the block the read gives 0 and the
    write is dropped (in C both are undefined). *)
Definition load (h : gmap nat (list Q)) (p : ptr) (i : nat) : Q :=
  default 0 (h !! p_block p ≫= fun blk => blk !! (p_off p + i)%nat).

Definition store (h : gmap nat (list Q)) (p : ptr) (i : nat) (v : Q)
  : gmap nat (list Q) :=
  alter (fun blk => <[(p_off p + i)%nat := v]> blk) (p_block p) h.

(** The [n] elements from [p] on, and the write of a list from [p] on. *)
Definition load_n (h : gmap nat (list Q)) (p : ptr) (n : nat) : list Q :=
  match h !! p_block p with
  | Some blk => take n (drop (p_off p) blk)
  | None => []
  end.

Definition store_n (h : gmap nat (list Q)) (p : ptr) (l : list Q)
  : gmap nat (list Q) :=
  alter (fun blk => list_inserts (p_off p) l blk) (p_block p) h.

(** ** Calls that can fail *)

Inductive res (A : Type) :=
| Ok (a : A)
| Err (e : PetscErrorCode).
Arguments Ok {A} a.
Arguments Err {A} e.

Definition petsc (A : Type) : Type := World -> res A * World.

#[global] Instance petsc_ret : MRet petsc := fun A a w => (Ok a, w).

(** Sequencing under [PetscCall]: a failure returns at once, with the
    store as it is at that point. *)
#[global] Instance petsc_bind : MBind petsc := fun A B f m w =>
  match m w with
  | (Ok a, w') => f a w'
  | (Err e, w') => (Err e, w')
  end.

(** [PetscCall(ierr)] on an error code already computed. *)
Definition PetscCall (ierr : PetscErrorCode) : petsc unit := fun w =>
  if (ierr =? 0)%Z then (Ok tt, w) else (Err ierr, w).

(** The value [optimize] returns to its caller. *)
Definition error_code {A} (r : res A) : PetscErrorCode :=
  match r with Ok _ => 0%Z | Err e => e end.

(** ** The vector library, as far as the driver uses it

    The library is not part of src/. Its functions are embedded as the
    driver relies on them (the storage lines 116-122 write to, the array
    placed at line 31) and as the specification words their contract
    (4.1: creation and its failure, owned storage zeroed, destruction
    that leaves a placed buffer alone). *)

Inductive NormType := NORM_1 | NORM_INFINITY.

(** The local size PETSc picks when it is left to decide. *)
Definition PetscSplitOwnership (comm : MPI_Comm) (N : Z) : Z :=
  (N / comm_size comm
   + (if comm_rank comm <? N mod comm_size comm then 1 else 0))%Z.

Definition VecCreate (comm : MPI_Comm) : petsc Vec := fun w =>
  let (v, w') := new_vec {| v_comm := comm; v_n := -1; v_N := -1;
                            v_type := None; v_array := None;
                            v_unplaced := None |} w in
  (Ok v, w').

Definition VecSetSizes (v : Vec) (n N : PetscInt) : petsc unit := fun w =>
  match vecs w !! v with
  | None => (Err PETSC_ERR_ARG_CORRUPT, w)
  | Some o =>
      if ((0 <=? N) && (N <? n))%Z then (Err PETSC_ERR_ARG_INCOMP, w)
      else if (((0 <=? v_n o) || (0 <=? v_N o))
               && negb ((v_n o =? n) && (v_N o =? N)))%Z
      then (Err PETSC_ERR_SUP, w)
      else (Ok tt,
            with_vecs (<[v := {| v_comm := v_comm o; v_n := n; v_N := N;
                                 v_type := v_type o; v_array := v_array o;
                                 v_unplaced := v_unplaced o |}]> (vecs w)) w)
  end.

(** Modelled from the spec: [VecSetType] belongs to the vector library,
    which is not under src/. Giving the vector its type is what creates
    it. The creation fails when the sizes are inconsistent across the
    ranks, that is when the sum of the local sizes is not the global
    size (4.1 and 8; the code is the library's for a wrong size); a
    size left to the library is not checked, and no other failure of
    the creation is embedded. Otherwise the vector gets freshly owned
    storage, zero-initialized: an array of the local size. This is the
    array that lines 116-122 of [optimize] obtain from the two vectors
    made by [allocate_petsc_vec] and write to. *)
Definition VecSetType (v : Vec) (ty : VecType) : petsc unit := fun w =>
  match vecs w !! v with
  | None => (Err PETSC_ERR_ARG_CORRUPT, w)
  | Some o =>
      match v_type o with
      | Some _ => (Ok tt, w)
      | None =>
          if ((v_n o <? 0) && (v_N o <? 0))%Z
          then (Err PETSC_ERR_ARG_INCOMP, w)
          else if ((0 <=? v_n o) && (0 <=? v_N o)
                   && negb (sum_local (v_comm o) (v_n o) =? v_N o))%Z
          then (Err PETSC_ERR_ARG_SIZ, w)
          else
            let n := if (v_n o <? 0)%Z
                     then PetscSplitOwnership (v_comm o) (v_N o)
                     else v_n o in
            let (b, w1) := alloc_block (replicate (Z.to_nat n) 0) w in
            (Ok tt,
             with_vecs (<[v := {| v_comm := v_comm o; v_n := n;
                                  v_N := v_N o; v_type := Some ty;
                                  v_array := Some (Ptr b 0);
                                  v_unplaced := None |}]> (vecs w1)) w1)
      end
  end.

(** The user's array takes the place of the vector's own, which is kept
    aside. Nothing is read or written in the store of numbers. *)
Definition VecPlaceArray (v : Vec) (data : ptr) : petsc unit := fun w =>
  match vecs w !! v with
  | None => (Err PETSC_ERR_ARG_CORRUPT, w)
  | Some o =>
      match v_array o, v_unplaced o with
      | Some own, None =>
          (Ok tt,
           with_vecs (<[v := {| v_comm := v_comm o; v_n := v_n o;
                                v_N := v_N o; v_type := v_type o;
                                v_array := Some data;
                                v_unplaced := Some own |}]> (vecs w)) w)
      | _, _ => (Err PETSC_ERR_ARG_WRONGSTATE, w)
      end
  end.

(** The local-storage accessor. *)
Definition VecGetArray (v : Vec) : petsc ptr := fun w =>
  match vecs w !! v with
  | None => (Err PETSC_ERR_ARG_CORRUPT, w)
  | Some o =>
      match v_array o with
      | Some p => (Ok p, w)
      | None => (Err PETSC_ERR_ARG_WRONGSTATE, w)
      end
  end.

Definition VecRestoreArray (v : Vec) : petsc unit := fun w =>
  match vecs w !! v with
  | None => (Err PETSC_ERR_ARG_CORRUPT, w)
  | Some _ => (Ok tt, w)
  end.

(** The array the vector owns: its own one, also while a user array is
    placed over it. *)
Definition own_array (o : VecObj) : option ptr :=
  match v_unplaced o with
  | Some own => Some own
  | None => v_array o
  end.

(** Destroying a vector frees the object and the array it owns, never a
    placed array. *)
Definition VecDestroy (v : Vec) : petsc unit := fun w =>
  match vecs w !! v with
  | None => (Err PETSC_ERR_ARG_CORRUPT, w)
  | Some o =>
      let h := match own_array o with
               | Some p => delete (p_block p) (heap w)
               | None => heap w
               end in
      (Ok tt, with_vecs (delete v (vecs w)) (with_heap h w))
  end.

(** The local part of a vector as a list, and its replacement. *)
Definition vec_read (w : World) (v : Vec) : list Q :=
  match vecs w !! v with
  | Some o =>
      match v_array o with
      | Some p => load_n (heap w) p (Z.to_nat (v_n o))
      | None => []
      end
  | None => []
  end.

Definition vec_write (v : Vec) (l : list Q) (w : World) : World :=
  match vecs w !! v with
  | Some o =>
      match v_array o with
      | Some p => with_heap (store_n (heap w) p (take (Z.to_nat (v_n o)) l)) w
      | None => w
      end
  | None => w
  end.

Definition Qsum (l : list Q) : Q := fold_right Qplus 0 l.

Definition norm_of (ty : NormType) (l : list Q) : Q :=
  match ty with
  | NORM_1 => Qsum (map Qabs l)
  | NORM_INFINITY => fold_right (fun a acc => Qmax (Qabs a) acc) 0 l
  end.

Definition VecNorm (v : Vec) (ty : NormType) : petsc Q := fun w =>
  match vecs w !! v with
  | None => (Err PETSC_ERR_ARG_CORRUPT, w)
  | Some o =>
      match v_array o with
      | Some _ => (Ok (norm_of ty (vec_read w v)), w)
      | None => (Err PETSC_ERR_ARG_WRONGSTATE, w)
      end
  end.

(** ** optimizer.cpp, lines 3-34: the two vector constructors *)

Definition allocate_petsc_vec (comm : MPI_Comm) (gsize lsize : PetscInt)
  : petsc Vec :=
  x ← VecCreate comm;
  VecSetSizes x lsize gsize;;
  VecSetType x VECMPI;;
  mret x.

Definition bind_petsc_vec_to_array (comm : MPI_Comm) (gsize lsize : PetscInt)
    (data : ptr) : petsc Vec :=
  x ← VecCreate comm;
  VecSetSizes x lsize gsize;;
  VecSetType x VECMPI;;
  VecPlaceArray x data;;
  mret x.

(** ** The log: [fopen], [PetscFPrintf] and the two format strings *)

(** A [FILE*] is the path of the open file; the null pointer is [None].
    Mode ["w+"] empties the file. *)
Definition fopen (name : string) (w : World) : option string * World :=
  if writable w name
  then (Some name, with_files (<[name := ""%string]> (files w)) w)
  else (None, w).

(** Only the first rank of the communicator prints. Printing to a null
    stream faults. *)
Definition PetscFPrintf (comm : MPI_Comm) (fp : option string) (s : string)
  : petsc unit := fun w =>
  if (comm_rank comm =? 0)%Z then
    match fp with
    | Some f =>
        (Ok tt,
         with_files (<[f := (default ""%string (files w !! f) +:+ s)%string]>
                       (files w)) w)
    | None => (Err PETSC_ERR_SIG, w)
    end
  else (Ok tt, w).

Definition digit_char (d : Z) : ascii :=
  ascii_of_nat (48 + Z.to_nat (d mod 10)).

(** The [n] low decimal digits of [m], most significant first. *)
Fixpoint digits_fixed (n : nat) (m : Z) : string :=
  match n with
  | O => ""
  | S n' => digits_fixed n' (m / 10) +:+ String (digit_char m) ""
  end.

(** The number of decimal digits of [m] (one for 0). *)
Fixpoint count_digits (fuel : nat) (m : Z) : nat :=
  match fuel with
  | O => 1
  | S f => if (m <? 10)%Z then 1 else S (count_digits f (m / 10))
  end.

Definition decimal (m : Z) : string :=
  digits_fixed (count_digits (Z.to_nat (Z.log2 m)) m) m.

Definition spaces (n : nat) : string :=
  string_of_list_ascii (replicate n " "%char).

(** Right alignment in a field of width [width]. *)
Definition pad_left (width : nat) (s : string) : string :=
  (spaces (width - String.length s) +:+ s)%string.

(** [%<width>d] *)
Definition fmt_d (width : nat) (z : Z) : string :=
  pad_left width
    ((if (z <? 0)%Z then "-" else "") +:+ decimal (Z.abs z))%string.

(** [%<width>s] *)
Definition fmt_s (width : nat) (s : string) : string := pad_left width s.

(** Scientific notation: the sign, the mantissa as an integer of
    [prec + 1] decimal digits, and the decimal exponent. *)
Record sci := { sci_neg : bool; sci_mant : Z; sci_exp : Z }.

(** [10^e <= a/d] *)
Definition ge_pow10 (a d e : Z) : bool :=
  if (0 <=? e)%Z then (d * 10 ^ e <=? a)%Z else (d <=? a * 10 ^ (- e))%Z.

Fixpoint find_exp (fuel : nat) (a d e : Z) : Z :=
  match fuel with
  | O => e
  | S f => if ge_pow10 a d e then e else find_exp f a d (e - 1)%Z
  end.

(** The decimal exponent of [a/d], for positive [a] and [d]. *)
Definition floor_log10 (a d : Z) : Z :=
  find_exp (Z.to_nat (Z.log2 a + Z.log2 d + 3)) a d (Z.log2 a + 1)%Z.

(** Rounding of [num/den] to the nearest integer, ties to even. *)
Definition round_half_even (num den : Z) : Z :=
  let q := (num / den)%Z in
  let r := (num mod den)%Z in
  if (2 * r <? den)%Z then q
  else if (den <? 2 * r)%Z then (q + 1)%Z
  else if Z.even q then q else (q + 1)%Z.

Definition to_sci (prec : nat) (q : Q) : sci :=
  let a := Z.abs (Qnum q) in
  let d := Zpos (Qden q) in
  let p := Z.of_nat prec in
  if (a =? 0)%Z then {| sci_neg := false; sci_mant := 0; sci_exp := 0 |}
  else
    let e := floor_log10 a d in
    let m := if (e <=? p)%Z
             then round_half_even (a * 10 ^ (p - e)) d
             else round_half_even a (d * 10 ^ (e - p)) in
    if (m =? 10 ^ (p + 1))%Z
    then {| sci_neg := (Qnum q <? 0)%Z; sci_mant := 10 ^ p;
            sci_exp := (e + 1)%Z |}
    else {| sci_neg := (Qnum q <? 0)%Z; sci_mant := m; sci_exp := e |}.

(** The digits of the mantissa as they are printed: one before the point
    and [prec] after it. *)
Definition mantissa_digits (prec : nat) (r : sci) : string :=
  digits_fixed (S prec) (sci_mant r).

Definition render_sci (prec : nat) (r : sci) : string :=
  let ds := mantissa_digits prec r in
  let e := Z.abs (sci_exp r) in
  ((if sci_neg r then "-" else "")
   +:+ substring 0 1 ds
   +:+ (if prec is O then "" else "." +:+ substring 1 prec ds)
   +:+ "e" +:+ (if (sci_exp r <? 0)%Z then "-" else "+")
   +:+ (if (e <? 10)%Z then "0" +:+ decimal e else decimal e))%string.

(** [%<width>.<prec>e] *)
Definition fmt_e (width prec : nat) (q : Q) : string :=
  pad_left width (render_sci prec (to_sci prec q)).

Definition newline : string := String (ascii_of_nat 10) "".

(** Line 163: ["\n%6s%20s%20s%20s%20s%20s\n"] *)
Definition log_header : string :=
  (newline +:+ fmt_s 6 "iter" +:+ fmt_s 20 "obj" +:+ fmt_s 20 "KKT_l2"
   +:+ fmt_s 20 "KKT_linf" +:+ fmt_s 20 "|x|_1" +:+ fmt_s 20 "infeas"
   +:+ newline)%string.

(** Line 166: ["%6d%20.10e%20.10e%20.10e%20.10e%20.10e\n"] *)
Definition log_row (iter : Z) (obj kkterr_l2 kkterr_linf x_l1 infeas : Q)
  : string :=
  (fmt_d 6 iter +:+ fmt_e 20 10 obj +:+ fmt_e 20 10 kkterr_l2
   +:+ fmt_e 20 10 kkterr_linf +:+ fmt_e 20 10 x_l1 +:+ fmt_e 20 10 infeas
   +:+ newline)%string.

(** ** The two collaborators of the driver

    [Problem] is the abstract class the driver is given: any value of the
    record is a problem. The three methods that fill buffers receive the
    present contents of the buffers they fill and give the new contents. *)
Record Problem := {
  get_mpi_comm : MPI_Comm;
  get_num_vars : Z;
  get_num_vars_local : Z;
  get_num_cons : Z;
  (* x, lb, ub *)
  getVarsAndBounds : list Q -> list Q -> list Q -> list Q * list Q * list Q;
  (* x, cons: the objective and the constraints *)
  evalObjCon : list Q -> list Q -> Q * list Q;
  (* x, g, gcon: the gradient and the rows of the Jacobian, flattened *)
  evalObjConGrad : list Q -> list Q -> list Q -> list Q * list Q
}.

(** The solver class [MMA]: its declaration and its source are not in
    src/, so the driver is embedded over any implementation of the four
    members it calls. Each member returns its error code; the vectors it
    is given are passed by content, and the ones it may change are
    returned: [xmin] and [xmax] for [SetOuterMovelimit], [x] for
    [Update]. *)
Record MMA_class := {
  MMA : Type;
  MMA_new : Z -> Z -> list Q -> MMA;
  SetOuterMovelimit :
    MMA -> list Q -> list Q -> Q -> list Q -> list Q -> list Q ->
    PetscErrorCode * MMA * list Q * list Q;
  Update :
    MMA -> list Q -> list Q -> list Q -> list (list Q) -> list Q -> list Q ->
    PetscErrorCode * MMA * list Q;
  KKTresidual :
    MMA -> list Q -> list Q -> list Q -> list (list Q) -> list Q -> list Q ->
    PetscErrorCode * MMA * Q * Q
}.

(** ** The optimizer object *)

(** A numpy array of doubles: its data pointer and its number of
    elements. *)
Record ndarray_t := { nd_data : ptr; nd_size : nat }.

(** [ndarray_t(n)]: a new array whose contents are not initialised. *)
Definition ndarray_new (n : Z) (w : World) : ndarray_t * World :=
  let sz := Z.to_nat n in
  let (b, w') := alloc_block (map (uninit w (next_block w)) (seq 0 sz)) w in
  ({| nd_data := Ptr b 0; nd_size := sz |}, w').

Definition nd_read (w : World) (a : ndarray_t) : list Q :=
  load_n (heap w) (nd_data a) (nd_size a).

(** Filling an array in place: at most its size is written. *)
Definition nd_write (a : ndarray_t) (l : list Q) (w : World) : World :=
  with_heap (store_n (heap w) (nd_data a) (take (nd_size a) l)) w.

Record Optimizer := {
  prob : Problem;
  log_name : string;
  fp : option string;
  np_x : ndarray_t;
  np_lb : ndarray_t;
  np_ub : ndarray_t;
  np_g : ndarray_t;
  np_cons : ndarray_t;
  np_gcon : ndarray_t;
  vec_x : Vec;
  vec_g : Vec;
  vec_lb : Vec;
  vec_ub : Vec;
  vec_gcon : list Vec
}.

(** Lines 66-74: one vector per row of [np_gcon], each bound to its slice
    of the block. *)
Fixpoint bind_gcon_rows (comm : MPI_Comm) (nvars nvars_l : Z)
    (gcon_data : ptr) (n : nat) (offset : nat) : petsc (list Vec) :=
  match n with
  | O => mret []
  | S n' =>
      v ← bind_petsc_vec_to_array comm nvars nvars_l
            (Ptr (p_block gcon_data) (p_off gcon_data + offset));
      vs ← bind_gcon_rows comm nvars nvars_l gcon_data n'
             (offset + Z.to_nat nvars_l);
      mret (v :: vs)
  end.

(** How the constructor ends: with an object, with the process aborted by
    [PetscCallAbort], or with an exception. *)
Inductive constructed :=
| Constructed (o : Optimizer)
| Aborted (e : PetscErrorCode)
| Thrown.

(** The largest [int]. *)
Definition INT_MAX : Z := 2147483647.

(** A value as a 32-bit [int] holds it. *)
Definition int_wrap (z : Z) : Z := ((z + 2 ^ 31) mod 2 ^ 32 - 2 ^ 31)%Z.

(** [a * b] on two [int]s, line 53. *)
Definition int_mul (a b : Z) : Z := int_wrap (a * b).

(** Lines 36-75. An array of negative size raises an exception (lines
    48-53). So does the reshape of line 54 when the array of line 53 has
    not [ncons * nvars_l] elements. Line 53 multiplies two [int]s: when
    the product does not fit an [int], the size it gives is the product
    wrapped around (what the compilers in use do with an overflow, which
    C++ leaves undefined), a negative number or a number that is not the
    product, and one of the two exceptions is raised. The exception
    leaves the constructor, and the arrays made before it are released
    with it: the store is the one before line 48. *)
Definition Optimizer_new (prob : Problem) (log_name : string) (w : World)
  : constructed * World :=
  let (fp, w) := fopen log_name w in
  let w := emit EvGetMpiComm w in
  let comm := get_mpi_comm prob in
  let w := emit EvGetNumVars w in
  let nvars := get_num_vars prob in
  let w := emit EvGetNumVarsLocal w in
  let nvars_l := get_num_vars_local prob in
  let w := emit EvGetNumCons w in
  let ncons := get_num_cons prob in
  if ((nvars_l <? 0) || (ncons <? 0)
      || negb (int_mul ncons nvars_l =? ncons * nvars_l))%Z
  then (Thrown, w)
  else
    let (np_x, w) := ndarray_new nvars_l w in
    let (np_lb, w) := ndarray_new nvars_l w in
    let (np_ub, w) := ndarray_new nvars_l w in
    let (np_g, w) := ndarray_new nvars_l w in
    let (np_cons, w) := ndarray_new ncons w in
    let (np_gcon, w) := ndarray_new (int_mul ncons nvars_l) w in
    let binds : petsc Optimizer :=
      x ← bind_petsc_vec_to_array comm nvars nvars_l (nd_data np_x);
      g ← bind_petsc_vec_to_array comm nvars nvars_l (nd_data np_g);
      lb ← bind_petsc_vec_to_array comm nvars nvars_l (nd_data np_lb);
      ub ← bind_petsc_vec_to_array comm nvars nvars_l (nd_data np_ub);
      gcon ← bind_gcon_rows comm nvars nvars_l (nd_data np_gcon)
               (Z.to_nat ncons) 0;
      mret {| prob := prob; log_name := log_name; fp := fp;
              np_x := np_x; np_lb := np_lb; np_ub := np_ub; np_g := np_g;
              np_cons := np_cons; np_gcon := np_gcon;
              vec_x := x; vec_g := g; vec_lb := lb; vec_ub := ub;
              vec_gcon := gcon |} in
    match binds w with
    | (Ok o, w') => (Constructed o, w')
    | (Err e, w') => (Aborted e, w')
    end.

(** ** [Optimizer::optimize], lines 95-177 *)

Section Optimize.

Context (M : MMA_class).
Variable o : Optimizer.

Definition call (e : event) : petsc unit := fun w => (Ok tt, emit e w).

(** Line 105. *)
Definition prob_getVarsAndBounds : petsc unit := fun w =>
  let '(x, lb, ub) :=
    getVarsAndBounds (prob o) (nd_read w (np_x o)) (nd_read w (np_lb o))
      (nd_read w (np_ub o)) in
  (Ok tt,
   nd_write (np_ub o) ub
     (nd_write (np_lb o) lb
        (nd_write (np_x o) x (emit EvGetVarsAndBounds w)))).

(** Lines 119-122: [lbt_vals[i] = lb_vals[i]; ubt_vals[i] = ub_vals[i]]
    for [i] from [i0] on, [n] times. *)
Fixpoint copy_bounds (n : nat) (i0 : nat) (lbt_vals ubt_vals lb_vals ub_vals : ptr)
    (h : gmap nat (list Q)) : gmap nat (list Q) :=
  match n with
  | O => h
  | S n' =>
      let h := store h lbt_vals i0 (load h lb_vals i0) in
      let h := store h ubt_vals i0 (load h ub_vals i0) in
      copy_bounds n' (S i0) lbt_vals ubt_vals lb_vals ub_vals h
  end.

(** Line 134. *)
Definition prob_evalObjCon : petsc Q := fun w =>
  let x := nd_read w (np_x o) in
  let (obj, cons) := evalObjCon (prob o) x (nd_read w (np_cons o)) in
  (Ok obj, nd_write (np_cons o) cons (emit (EvEvalObjCon x) w)).

(** Line 135. *)
Definition prob_evalObjConGrad : petsc unit := fun w =>
  let x := nd_read w (np_x o) in
  let (g, gcon) :=
    evalObjConGrad (prob o) x (nd_read w (np_g o))
      (nd_read w (np_gcon o)) in
  (Ok tt,
   nd_write (np_gcon o) gcon
     (nd_write (np_g o) g (emit (EvEvalObjConGrad x) w))).

(** Line 128: the solver object is built from the contents of [x]. *)
Definition mma_new (nvars ncons : Z) (x : Vec) : petsc (MMA M) := fun w =>
  let xs := vec_read w x in
  (Ok (MMA_new M nvars ncons xs), emit (EvMMANew nvars ncons xs) w).

(** The three members called in the loop. Each gives back the error
    code of the call and the solver object after it. *)
Definition mma_SetOuterMovelimit (mma : MMA M) (Xmin Xmax : Vec) (f : Q)
    (x xmin xmax : Vec) : petsc (PetscErrorCode * MMA M) := fun w =>
  let lbs := vec_read w Xmin in
  let ubs := vec_read w Xmax in
  let xs := vec_read w x in
  let '(ierr, mma', lbt, ubt) :=
    SetOuterMovelimit M mma lbs ubs f xs (vec_read w xmin)
      (vec_read w xmax) in
  (Ok (ierr, mma'),
   vec_write xmax ubt
     (vec_write xmin lbt (emit (EvSetOuterMovelimit lbs ubs f xs) w))).

Definition mma_Update (mma : MMA M) (x g : Vec) (cons : ndarray_t)
    (gcon : list Vec) (xmin xmax : Vec)
  : petsc (PetscErrorCode * MMA M) := fun w =>
  let xs := vec_read w x in
  let gs := vec_read w g in
  let cs := nd_read w cons in
  let rows := map (vec_read w) gcon in
  let lbt := vec_read w xmin in
  let ubt := vec_read w xmax in
  let '(ierr, mma', x') := Update M mma xs gs cs rows lbt ubt in
  (Ok (ierr, mma'),
   vec_write x x' (emit (EvUpdate xs gs cs rows lbt ubt) w)).

Definition mma_KKTresidual (mma : MMA M) (x g : Vec) (cons : ndarray_t)
    (gcon : list Vec) (xmin xmax : Vec)
  : petsc (PetscErrorCode * MMA M * Q * Q) := fun w =>
  let xs := vec_read w x in
  let gs := vec_read w g in
  let cs := nd_read w cons in
  let rows := map (vec_read w) gcon in
  let lbt := vec_read w xmin in
  let ubt := vec_read w xmax in
  (Ok (KKTresidual M mma xs gs cs rows lbt ubt),
   emit (EvKKTresidual xs gs cs rows lbt ubt) w).

(** Lines 154-159, on the contents of [np_cons]. *)
Definition read_infeas (ncons : Z) : petsc Q := fun w =>
  (Ok (max_violation (load_n (heap w) (nd_data (np_cons o))
                        (Z.to_nat ncons))), w).

(** Lines 133-170: one pass of the loop body. The codes returned by
    [Update] and [KKTresidual] are not looked at. [fflush] does not
    change what the file holds. *)
Definition iteration (comm : MPI_Comm) (ncons : Z) (lb_temp ub_temp : Vec)
    (iter : Z) (mma : MMA M) : petsc (MMA M) :=
  obj ← prob_evalObjCon;
  prob_evalObjConGrad;;
  '(ierr, mma) ← mma_SetOuterMovelimit mma (vec_lb o) (vec_ub o) movelim
                   (vec_x o) lb_temp ub_temp;
  PetscCall ierr;;
  '(_, mma) ← mma_Update mma (vec_x o) (vec_g o) (np_cons o) (vec_gcon o)
                lb_temp ub_temp;
  '(_, mma, kkterr_l2, kkterr_linf) ←
     mma_KKTresidual mma (vec_x o) (vec_g o) (np_cons o) (vec_gcon o)
       lb_temp ub_temp;
  x_l1 ← VecNorm (vec_x o) NORM_1;
  infeas ← read_infeas ncons;
  (if (Z.rem iter 10 =? 0)%Z
   then PetscFPrintf comm (fp o) log_header
   else mret tt);;
  PetscFPrintf comm (fp o)
    (log_row iter obj kkterr_l2 kkterr_linf x_l1 infeas);;
  mret mma.

(** Lines 131-171: [iter] runs from its start value, [n] times. *)
Fixpoint optimize_loop (comm : MPI_Comm) (ncons : Z) (lb_temp ub_temp : Vec)
    (n : nat) (iter : Z) (mma : MMA M) : petsc unit :=
  match n with
  | O => mret tt
  | S n' =>
      mma ← iteration comm ncons lb_temp ub_temp iter mma;
      optimize_loop comm ncons lb_temp ub_temp n' (iter + 1)%Z mma
  end.

(** The solver object lives on the stack of [optimize]: it is destroyed
    however the rest of the function is left. *)
Definition mma_scope {A} (body : petsc A) : petsc A := fun w =>
  let (r, w') := body w in (r, emit EvMMADelete w').

(** Lines 107-125: the two temporary vectors, allocated and initialised
    to the permanent bounds. *)
Definition allocate_temp_bounds : petsc (Vec * Vec) :=
  let comm := get_mpi_comm (prob o) in
  let nvars := get_num_vars (prob o) in
  let nvars_l := get_num_vars_local (prob o) in
  lb_temp ← allocate_petsc_vec comm nvars nvars_l;
  ub_temp ← allocate_petsc_vec comm nvars nvars_l;
  let lb_vals := nd_data (np_lb o) in
  let ub_vals := nd_data (np_ub o) in
  lbt_vals ← VecGetArray lb_temp;
  ubt_vals ← VecGetArray ub_temp;
  (fun w => (Ok tt,
             with_heap (copy_bounds (Z.to_nat nvars_l) 0 lbt_vals ubt_vals
                          lb_vals ub_vals (heap w)) w));;
  VecRestoreArray lb_temp;;
  VecRestoreArray ub_temp;;
  mret (lb_temp, ub_temp).

(** Lines 96-128: the initial design and bounds, the two temporary
    vectors, and the solver object. *)
Definition optimize_setup : petsc (Vec * Vec * MMA M) :=
  call EvGetMpiComm;;
  call EvGetNumVars;;
  call EvGetNumVarsLocal;;
  call EvGetNumCons;;
  prob_getVarsAndBounds;;
  '(lb_temp, ub_temp) ← allocate_temp_bounds;
  mma ← mma_new (get_num_vars (prob o)) (get_num_cons (prob o)) (vec_x o);
  mret (lb_temp, ub_temp, mma).

(** Lines 130-176: the loop, then the release of the two temporary
    vectors. *)
Definition optimize_run (niter : Z) (lb_temp ub_temp : Vec) (mma : MMA M)
  : petsc unit :=
  optimize_loop (get_mpi_comm (prob o)) (get_num_cons (prob o))
    lb_temp ub_temp (Z.to_nat niter) 0%Z mma;;
  VecDestroy lb_temp;;
  VecDestroy ub_temp;;
  mret tt.

Definition optimize (niter : Z) : petsc unit :=
  '(lb_temp, ub_temp, mma) ← optimize_setup;
  mma_scope (optimize_run niter lb_temp ub_temp mma).

(** [getOptimizedDesign], line 179: the array [np_x] itself. *)
Definition getOptimizedDesign : ndarray_t := np_x o.

End Optimize.

(** ** [Optimizer::~Optimizer], lines 77-93 *)

(** How the destructor ends: normally, with the process aborted by
    [PetscCallAbort], or with the fault of [fclose] on a null stream. *)
Inductive destructed :=
| Destroyed
| DestructorAborted (e : PetscErrorCode)
| DestructorFault.

(** Lines 88-90: [VecDestroy(&gcon[i])] for [i] from [i] on, [n] times.
    The array [gcon] has the length it was given at line 66; reading it
    past its end is the fault [PETSC_ERR_SIG] here. *)
Fixpoint destroy_gcon_rows (gcon : list Vec) (i n : nat) : petsc unit :=
  match n with
  | O => mret tt
  | S n' =>
      match gcon !! i with
      | Some v => VecDestroy v;; destroy_gcon_rows gcon (S i) n'
      | None => fun w => (Err PETSC_ERR_SIG, w)
      end
  end.

(** The body of the destructor. [fclose] leaves in the file what was
    written to it. The six arrays are members of the object: they are
    released after the body, by their own destructors. *)
Definition Optimizer_delete (o : Optimizer) (w : World)
  : destructed * World :=
  match fp o with
  | None => (DestructorFault, w)
  | Some _ =>
      let w := emit EvGetMpiComm w in
      let w := emit EvGetNumCons w in
      let ncons := get_num_cons (prob o) in
      let body : petsc unit :=
        VecDestroy (vec_x o);;
        VecDestroy (vec_g o);;
        VecDestroy (vec_lb o);;
        VecDestroy (vec_ub o);;
        destroy_gcon_rows (vec_gcon o) 0 (Z.to_nat ncons) in
      match body w with
      | (Ok _, w') => (Destroyed, w')
      | (Err e, w') => (DestructorAborted e, w')
      end
  end.

(** ** Vocabulary of the statements *)

(** The local size of a vector created with sizes [lsize] and [gsize]. *)
Definition local_size (comm : MPI_Comm) (gsize lsize : Z) : Z :=
  if (lsize <? 0)%Z then PetscSplitOwnership comm gsize else lsize.

(** The object of a vector bound to [data], whose own array is [own]. *)
Definition bound_vec (comm : MPI_Comm) (gsize n : Z) (data own : ptr)
  : VecObj :=
  {| v_comm := comm; v_n := n; v_N := gsize; v_type := Some VECMPI;
     v_array := Some data; v_unplaced := Some own |}.

(** The object of a vector that uses its own array. *)
Definition owned_vec (comm : MPI_Comm) (gsize n : Z) (own : ptr) : VecObj :=
  {| v_comm := comm; v_n := n; v_N := gsize; v_type := Some VECMPI;
     v_array := Some own; v_unplaced := None |}.

(** A buffer that held [old] after a callee filled it with [new]: at
    most the length of the buffer is written, from its start. *)
Definition filled (old new : list Q) : list Q :=
  list_inserts 0 (take (length old) new) old.

(** The [m] rows of length [n] of a row-major block. *)
Definition rows_of (n m : nat) (gcon : list Q) : list (list Q) :=
  map (fun i => take n (drop (i * n) gcon)) (seq 0 m).

Definition block_len (w : World) (b : nat) : option nat :=
  length <$> heap w !! b.

Definition file_text (w : World) (f : string) : string :=
  default ""%string (files w !! f).

(** Two stores with the same vector objects and the same blocks, up to
    the numbers the blocks hold. *)
Definition same_shape (w w' : World) : Prop :=
  vecs w' = vecs w /\ next_block w' = next_block w /\
  next_vec w' = next_vec w /\ (forall b, block_len w' b = block_len w b).

(** The array [a] is a whole block of [sz] numbers. *)
Definition array_ok (w : World) (a : ndarray_t) (sz : nat) : Prop :=
  p_off (nd_data a) = 0%nat /\ nd_size a = sz /\
  block_len w (p_block (nd_data a)) = Some sz /\
  (p_block (nd_data a) < next_block w)%nat.

(** The vector [v] is live and its local storage is [n] numbers at [p]. *)
Definition view_ok (w : World) (v : Vec) (p : ptr) (n : Z) : Prop :=
  (v < next_vec w)%nat /\
  exists vo, vecs w !! v = Some vo /\ v_array vo = Some p /\ v_n vo = n.

Definition array_blocks (o : Optimizer) : list nat :=
  map (fun a => p_block (nd_data a))
    [np_x o; np_lb o; np_ub o; np_g o; np_cons o; np_gcon o].

(** The state of an optimizer object as its constructor leaves it: six
    arrays in six blocks, and the vectors bound to them, one per row for
    [np_gcon]. *)
Record opt_wf (o : Optimizer) (w : World) : Prop := {
  wf_nvars_l : (0 <= get_num_vars_local (prob o))%Z;
  wf_nvars : (get_num_vars_local (prob o) <= get_num_vars (prob o))%Z;
  wf_sum : sum_local (get_mpi_comm (prob o)) (get_num_vars_local (prob o))
           = get_num_vars (prob o);
  wf_ncons : (0 <= get_num_cons (prob o))%Z;
  wf_x : array_ok w (np_x o) (Z.to_nat (get_num_vars_local (prob o)));
  wf_lb : array_ok w (np_lb o) (Z.to_nat (get_num_vars_local (prob o)));
  wf_ub : array_ok w (np_ub o) (Z.to_nat (get_num_vars_local (prob o)));
  wf_g : array_ok w (np_g o) (Z.to_nat (get_num_vars_local (prob o)));
  wf_cons : array_ok w (np_cons o) (Z.to_nat (get_num_cons (prob o)));
  wf_gcon : array_ok w (np_gcon o)
              (Z.to_nat (get_num_cons (prob o))
               * Z.to_nat (get_num_vars_local (prob o)));
  wf_blocks : NoDup (array_blocks o);
  wf_vec_x : view_ok w (vec_x o) (nd_data (np_x o))
               (get_num_vars_local (prob o));
  wf_vec_g : view_ok w (vec_g o) (nd_data (np_g o))
               (get_num_vars_local (prob o));
  wf_vec_lb : view_ok w (vec_lb o) (nd_data (np_lb o))
                (get_num_vars_local (prob o));
  wf_vec_ub : view_ok w (vec_ub o) (nd_data (np_ub o))
                (get_num_vars_local (prob o));
  wf_rows_len : length (vec_gcon o) = Z.to_nat (get_num_cons (prob o));
  wf_rows : forall i v, vec_gcon o !! i = Some v ->
              view_ok w v
                (Ptr (p_block (nd_data (np_gcon o)))
                   (i * Z.to_nat (get_num_vars_local (prob o))))
                (get_num_vars_local (prob o))
}.

(** The state at the head of the loop: the two temporary vectors are
    live and own a block each, apart from the six arrays. *)
Record loop_inv (o : Optimizer) (lb_temp ub_temp : Vec) (w : World)
  : Prop := {
  li_wf : opt_wf o w;
  li_temps : exists bl bu,
    vecs w !! lb_temp
      = Some (owned_vec (get_mpi_comm (prob o)) (get_num_vars (prob o))
                (get_num_vars_local (prob o)) (Ptr bl 0)) /\
    vecs w !! ub_temp
      = Some (owned_vec (get_mpi_comm (prob o)) (get_num_vars (prob o))
                (get_num_vars_local (prob o)) (Ptr bu 0)) /\
    block_len w bl = Some (Z.to_nat (get_num_vars_local (prob o))) /\
    block_len w bu = Some (Z.to_nat (get_num_vars_local (prob o))) /\
    bl <> bu /\ (bl ∉ array_blocks o) /\ (bu ∉ array_blocks o)
}.

(** The contents of the eight buffers the loop works on. *)
Record bufs := {
  b_x : list Q;
  b_lb : list Q;
  b_ub : list Q;
  b_g : list Q;
  b_cons : list Q;
  b_gcon : list Q;
  b_lbt : list Q;
  b_ubt : list Q
}.

Definition get_bufs (o : Optimizer) (lb_temp ub_temp : Vec) (w : World)
  : bufs :=
  {| b_x := nd_read w (np_x o); b_lb := nd_read w (np_lb o);
     b_ub := nd_read w (np_ub o); b_g := nd_read w (np_g o);
     b_cons := nd_read w (np_cons o); b_gcon := nd_read w (np_gcon o);
     b_lbt := vec_read w lb_temp; b_ubt := vec_read w ub_temp |}.

(** One pass of the loop body on the contents of the buffers alone: the
    result, the buffers after it, the calls made and the text logged.
    [iteration_sim] below shows that [iteration] does this on the store:
    no buffer is touched through another one. *)
Definition iteration_on_bufs (P : Problem) (M : MMA_class) (B : bufs)
    (iter : Z) (mma : MMA M) : res (MMA M) * bufs * list event * string :=
  let n := Z.to_nat (get_num_vars_local P) in
  let m := Z.to_nat (get_num_cons P) in
  let xk := b_x B in
  let (obj, cons0) := evalObjCon P xk (b_cons B) in
  let cons := filled (b_cons B) cons0 in
  let (g0, gcon0) := evalObjConGrad P xk (b_g B) (b_gcon B) in
  let g := filled (b_g B) g0 in
  let gcon := filled (b_gcon B) gcon0 in
  let rows := rows_of n m gcon in
  let '(ierr, mma1, lo0, hi0) :=
    SetOuterMovelimit M mma (b_lb B) (b_ub B) movelim xk (b_lbt B)
      (b_ubt B) in
  let lo := filled (b_lbt B) lo0 in
  let hi := filled (b_ubt B) hi0 in
  let ev := [EvEvalObjCon xk; EvEvalObjConGrad xk;
             EvSetOuterMovelimit (b_lb B) (b_ub B) movelim xk] in
  if (ierr =? 0)%Z then
    let '(_, mma2, x0) := Update M mma1 xk g cons rows lo hi in
    let x' := filled xk x0 in
    let '(_, mma3, kkterr_l2, kkterr_linf) :=
      KKTresidual M mma2 x' g cons rows lo hi in
    (Ok mma3,
     {| b_x := x'; b_lb := b_lb B; b_ub := b_ub B; b_g := g; b_cons := cons;
        b_gcon := gcon; b_lbt := lo; b_ubt := hi |},
     ev ++ [EvUpdate xk g cons rows lo hi;
            EvKKTresidual x' g cons rows lo hi],
     ((if (Z.rem iter 10 =? 0)%Z then log_header else "")
      +:+ log_row iter obj kkterr_l2 kkterr_linf (norm_of NORM_1 x')
            (max_violation cons))%string)
  else
    (Err ierr,
     {| b_x := xk; b_lb := b_lb B; b_ub := b_ub B; b_g := g; b_cons := cons;
        b_gcon := gcon; b_lbt := lo; b_ubt := hi |},
     ev, ""%string).

(** ** Vocabulary of the proofs

    The eight buffers of the loop by name, their blocks and lengths, and
    the run of [optimize] on the contents of the buffers alone. *)

(** Reading and filling a whole block. *)
Definition rd (w : World) (b len : nat) : list Q :=
  load_n (heap w) (Ptr b 0) len.

Definition wr (b len : nat) (l : list Q) (w : World) : World :=
  with_heap (store_n (heap w) (Ptr b 0) (take len l)) w.

Inductive buf_id := BX | BLB | BUB | BG | BCONS | BGCON | BLBT | BUBT.

Definition buf_get (k : buf_id) (B : bufs) : list Q :=
  match k with
  | BX => b_x B | BLB => b_lb B | BUB => b_ub B | BG => b_g B
  | BCONS => b_cons B | BGCON => b_gcon B | BLBT => b_lbt B | BUBT => b_ubt B
  end.

Definition buf_set (k : buf_id) (v : list Q) (B : bufs) : bufs :=
  match k with
  | BX => {| b_x := v; b_lb := b_lb B; b_ub := b_ub B; b_g := b_g B; b_cons := b_cons B; b_gcon := b_gcon B; b_lbt := b_lbt B; b_ubt := b_ubt B |}
  | BLB => {| b_x := b_x B; b_lb := v; b_ub := b_ub B; b_g := b_g B; b_cons := b_cons B; b_gcon := b_gcon B; b_lbt := b_lbt B; b_ubt := b_ubt B |}
  | BUB => {| b_x := b_x B; b_lb := b_lb B; b_ub := v; b_g := b_g B; b_cons := b_cons B; b_gcon := b_gcon B; b_lbt := b_lbt B; b_ubt := b_ubt B |}
  | BG => {| b_x := b_x B; b_lb := b_lb B; b_ub := b_ub B; b_g := v; b_cons := b_cons B; b_gcon := b_gcon B; b_lbt := b_lbt B; b_ubt := b_ubt B |}
  | BCONS => {| b_x := b_x B; b_lb := b_lb B; b_ub := b_ub B; b_g := b_g B; b_cons := v; b_gcon := b_gcon B; b_lbt := b_lbt B; b_ubt := b_ubt B |}
  | BGCON => {| b_x := b_x B; b_lb := b_lb B; b_ub := b_ub B; b_g := b_g B; b_cons := b_cons B; b_gcon := v; b_lbt := b_lbt B; b_ubt := b_ubt B |}
  | BLBT => {| b_x := b_x B; b_lb := b_lb B; b_ub := b_ub B; b_g := b_g B; b_cons := b_cons B; b_gcon := b_gcon B; b_lbt := v; b_ubt := b_ubt B |}
  | BUBT => {| b_x := b_x B; b_lb := b_lb B; b_ub := b_ub B; b_g := b_g B; b_cons := b_cons B; b_gcon := b_gcon B; b_lbt := b_lbt B; b_ubt := v |}
  end.

Definition blk (a : ndarray_t) : nat := p_block (nd_data a).

Definition buf_block (o : Optimizer) (bl bu : nat) (k : buf_id) : nat :=
  match k with
  | BX => blk (np_x o) | BLB => blk (np_lb o) | BUB => blk (np_ub o)
  | BG => blk (np_g o) | BCONS => blk (np_cons o) | BGCON => blk (np_gcon o)
  | BLBT => bl | BUBT => bu
  end.

Definition buf_len (P : Problem) (k : buf_id) : nat :=
  match k with
  | BCONS => Z.to_nat (get_num_cons P)
  | BGCON => Z.to_nat (get_num_cons P) * Z.to_nat (get_num_vars_local P)
  | _ => Z.to_nat (get_num_vars_local P)
  end.

Definition bufs_rd (o : Optimizer) (bl bu : nat) (w : World) : bufs :=
  {| b_x := rd w (buf_block o bl bu BX) (buf_len (prob o) BX);
     b_lb := rd w (buf_block o bl bu BLB) (buf_len (prob o) BLB);
     b_ub := rd w (buf_block o bl bu BUB) (buf_len (prob o) BUB);
     b_g := rd w (buf_block o bl bu BG) (buf_len (prob o) BG);
     b_cons := rd w (buf_block o bl bu BCONS) (buf_len (prob o) BCONS);
     b_gcon := rd w (buf_block o bl bu BGCON) (buf_len (prob o) BGCON);
     b_lbt := rd w (buf_block o bl bu BLBT) (buf_len (prob o) BLBT);
     b_ubt := rd w (buf_block o bl bu BUBT) (buf_len (prob o) BUBT) |}.

Record layout (o : Optimizer) (lbt ubt : Vec) (bl bu : nat) (w : World) : Prop := {
  ly_ne : forall k k', k <> k' -> buf_block o bl bu k <> buf_block o bl bu k';
  ly_len : forall k, block_len w (buf_block o bl bu k) = Some (buf_len (prob o) k);
  ly_bufs : get_bufs o lbt ubt w = bufs_rd o bl bu w;
  ly_w_x : forall l, nd_write (np_x o) l w = wr (buf_block o bl bu BX) (buf_len (prob o) BX) l w;
  ly_w_lb : forall l, nd_write (np_lb o) l w = wr (buf_block o bl bu BLB) (buf_len (prob o) BLB) l w;
  ly_w_ub : forall l, nd_write (np_ub o) l w = wr (buf_block o bl bu BUB) (buf_len (prob o) BUB) l w;
  ly_w_g : forall l, nd_write (np_g o) l w = wr (buf_block o bl bu BG) (buf_len (prob o) BG) l w;
  ly_w_cons : forall l, nd_write (np_cons o) l w = wr (buf_block o bl bu BCONS) (buf_len (prob o) BCONS) l w;
  ly_w_gcon : forall l, nd_write (np_gcon o) l w = wr (buf_block o bl bu BGCON) (buf_len (prob o) BGCON) l w;
  ly_vw_x : forall l, vec_write (vec_x o) l w = wr (buf_block o bl bu BX) (buf_len (prob o) BX) l w;
  ly_vw_lbt : forall l, vec_write lbt l w = wr (buf_block o bl bu BLBT) (buf_len (prob o) BLBT) l w;
  ly_vw_ubt : forall l, vec_write ubt l w = wr (buf_block o bl bu BUBT) (buf_len (prob o) BUBT) l w;
  ly_vr_x : vec_read w (vec_x o) = nd_read w (np_x o);
  ly_vr_g : vec_read w (vec_g o) = nd_read w (np_g o);
  ly_vr_lb : vec_read w (vec_lb o) = nd_read w (np_lb o);
  ly_vr_ub : vec_read w (vec_ub o) = nd_read w (np_ub o);
  ly_rows : map (vec_read w) (vec_gcon o)
            = rows_of (Z.to_nat (get_num_vars_local (prob o)))
                (Z.to_nat (get_num_cons (prob o))) (nd_read w (np_gcon o));
  ly_cons : load_n (heap w) (nd_data (np_cons o)) (Z.to_nat (get_num_cons (prob o)))
            = nd_read w (np_cons o);
  ly_live_x : exists vo p, vecs w !! vec_x o = Some vo /\ v_array vo = Some p
}.

(** The layout holds in every store of the same shape. *)
Definition Layout (o : Optimizer) (lbt ubt : Vec) (bl bu : nat) (w : World)
  : Prop :=
  forall w', same_shape w w' -> layout o lbt ubt bl bu w'.

(** [w'] is [w] after steps that left the buffers as [B'], made the
    calls [evs] and appended [txt] to the file [f]. *)
Definition stepped (o : Optimizer) (bl bu : nat) (f : string) (w w' : World)
    (B' : bufs) (evs : list event) (txt : string) : Prop :=
  same_shape w w' /\ bufs_rd o bl bu w' = B' /\
  trace w' = trace w ++ evs /\
  file_text w' f = (file_text w f +:+ txt)%string /\
  (forall f', f' <> f -> files w' !! f' = files w !! f') /\
  uninit w' = uninit w /\ writable w' = writable w.

(** Element-wise copy of [src] into [dst], [k] elements from index [i]. *)
Fixpoint copy_from (k i : nat) (src dst : list Q) : list Q :=
  match k with
  | O => dst
  | S k' => copy_from k' (S i) src (<[i := default 0 (src !! i)]> dst)
  end.

(** [w'] has everything [w] has, at the same places. *)
Definition extends (w w' : World) : Prop :=
  (next_block w <= next_block w')%nat /\ (next_vec w <= next_vec w')%nat /\
  (forall b, (b < next_block w)%nat -> block_len w' b = block_len w b) /\
  (forall v, (v < next_vec w)%nat -> vecs w' !! v = vecs w !! v).

Definition setup_on_bufs (P : Problem) (A : bufs) : bufs :=
  let ini := getVarsAndBounds P (b_x A) (b_lb A) (b_ub A) in
  {| b_x := filled (b_x A) ini.1.1; b_lb := filled (b_lb A) ini.1.2;
     b_ub := filled (b_ub A) ini.2; b_g := b_g A; b_cons := b_cons A;
     b_gcon := b_gcon A; b_lbt := filled (b_lb A) ini.1.2;
     b_ubt := filled (b_ub A) ini.2 |}.

Fixpoint loop_on_bufs (P : Problem) (M : MMA_class) (n : nat) (B : bufs)
    (iter : Z) (mma : MMA M) : res unit * bufs * list event * string :=
  match n with
  | O => (Ok tt, B, [], ""%string)
  | S n' =>
      let '(r, B1, ev1, t1) := iteration_on_bufs P M B iter mma in
      match r with
      | Ok mma1 =>
          let '(r2, B2, ev2, t2) :=
            loop_on_bufs P M n' B1 (iter + 1)%Z mma1 in
          (r2, B2, ev1 ++ ev2, (t1 +:+ t2)%string)
      | Err e => (Err e, B1, ev1, t1)
      end
  end.

Definition setup_events (P : Problem) (x : list Q) : list event :=
  [EvGetMpiComm; EvGetNumVars; EvGetNumVarsLocal; EvGetNumCons;
   EvGetVarsAndBounds; EvMMANew (get_num_vars P) (get_num_cons P) x].

Definition optimize_on_bufs (P : Problem) (M : MMA_class) (niter : Z)
    (A : bufs) : res unit * bufs * list event * string :=
  let B := setup_on_bufs P A in
  let mma0 := MMA_new M (get_num_vars P) (get_num_cons P) (b_x B) in
  let '(r, B', ev, txt) := loop_on_bufs P M (Z.to_nat niter) B 0%Z mma0 in
  (r, B', setup_events P (b_x B) ++ ev ++ [EvMMADelete], txt).

(** The six arrays of [o] hold what [B] says. *)
Definition arrays_are (o : Optimizer) (w : World) (B : bufs) : Prop :=
  nd_read w (np_x o) = b_x B /\ nd_read w (np_lb o) = b_lb B /\
  nd_read w (np_ub o) = b_ub B /\ nd_read w (np_g o) = b_g B /\
  nd_read w (np_cons o) = b_cons B /\ nd_read w (np_gcon o) = b_gcon B.

(** ** A small problem and a small solver

    Two variables on one rank and one constraint, [1 - x0 <= 0]; the
    objective is the sum of the variables. The solver moves every
    variable to the lower end of its move-limit box; its three members
    return the codes it is built with. *)

Definition comm_self : MPI_Comm :=
  {| comm_size := 1; comm_rank := 0; comm_peers := 0 |}.

Definition toy_problem : Problem := {|
  get_mpi_comm := comm_self;
  get_num_vars := 2;
  get_num_vars_local := 2;
  get_num_cons := 1;
  getVarsAndBounds := fun _ _ _ => ([1; 1], [0; 0], [2; 2]);
  evalObjCon := fun x _ => (Qsum x, [1 - hd 0 x]);
  evalObjConGrad := fun _ _ _ => ([1; 1], [-(1); 0])
|}.

Definition toy_mma (e_movelimit e_update e_kkt : PetscErrorCode) : MMA_class := {|
  MMA := nat;
  MMA_new := fun _ _ _ => O;
  SetOuterMovelimit := fun mma lb ub f x _ _ =>
    let (lo, hi) := SetOuterMovelimit_spec lb ub f x in
    (e_movelimit, mma, lo, hi);
  Update := fun mma x g cons gcon xmin xmax => (e_update, S mma, xmin);
  KKTresidual := fun mma x g cons gcon xmin xmax =>
    (e_kkt, mma, norm_of NORM_1 g, norm_of NORM_INFINITY x)
|}.

(** An empty store in which only ["mma4py.log"] can be opened. *)
Definition world0 : World := {|
  heap := ∅;
  next_block := 0;
  uninit := fun _ _ => 7;
  vecs := ∅;
  next_vec := 0;
  writable := fun name => String.eqb name "mma4py.log";
  files := ∅;
  trace := []
|}.

(** A store that holds one buffer of three numbers, at block 0. *)
Definition buffer_world : World := (alloc_block [1; 2; 3] world0).2.

(** The optimizer the constructor builds for the small problem in the
    empty store, and the store it leaves. *)
Definition toy_o : Optimizer := {|
  prob := toy_problem;
  log_name := "mma4py.log";
  fp := Some "mma4py.log"%string;
  np_x := {| nd_data := Ptr 0 0; nd_size := 2 |};
  np_lb := {| nd_data := Ptr 1 0; nd_size := 2 |};
  np_ub := {| nd_data := Ptr 2 0; nd_size := 2 |};
  np_g := {| nd_data := Ptr 3 0; nd_size := 2 |};
  np_cons := {| nd_data := Ptr 4 0; nd_size := 1 |};
  np_gcon := {| nd_data := Ptr 5 0; nd_size := 2 |};
  vec_x := 0%nat;
  vec_g := 1%nat;
  vec_lb := 2%nat;
  vec_ub := 3%nat;
  vec_gcon := [4%nat]
|}.

Definition toy_w : World := (Optimizer_new toy_problem "mma4py.log" world0).2.

(** ** The log in the words of the specification

    What a run logs from iteration [iter] on: for each iteration, the
    header when the iteration number is a multiple of 10, then one row.
    A row is given by its five numbers. *)
Definition log_row_of (iter : Z) (r : Q * Q * Q * Q * Q) : string :=
  let '(obj, kkterr_l2, kkterr_linf, x_l1, infeas) := r in
  log_row iter obj kkterr_l2 kkterr_linf x_l1 infeas.

Fixpoint log_lines (iter : Z) (rows : list (Q * Q * Q * Q * Q)) : string :=
  match rows with
  | [] => ""
  | r :: rest =>
      ((if (Z.rem iter 10 =? 0)%Z then log_header else "")
       +:+ log_row_of iter r +:+ log_lines (iter + 1) rest)%string
  end.

(** The number of calls of the update step among [l]. *)
Fixpoint count_updates (l : list event) : nat :=
  match l with
  | [] => O
  | EvUpdate _ _ _ _ _ _ :: l' => S (count_updates l')
  | _ :: l' => count_updates l'
  end.

(** ** Runs of the small problem *)

(** The solver whose members all succeed, the one whose update step
    fails, and the one whose move-limit step fails. *)
Definition toy_M : MMA_class := toy_mma 0%Z 0%Z 0%Z.
Definition toy_M_update_fails : MMA_class := toy_mma 0%Z 1%Z 0%Z.
Definition toy_M_movelimit_fails : MMA_class := toy_mma 1%Z 0%Z 0%Z.

(** The stores after [optimize(1)], after a second [optimize(1)], and
    after [optimize(3)]. *)
Definition toy_w1 : World := (optimize toy_M toy_o 1 toy_w).2.
Definition toy_w2 : World := (optimize toy_M toy_o 1 toy_w1).2.
Definition toy_w3 : World := (optimize toy_M toy_o 3 toy_w).2.

(** The store at the head of the loop, and after one pass. *)
Definition toy_loop_w : World := (optimize_setup toy_M toy_o toy_w).2.
Definition toy_loop_w1 : World :=
  (iteration toy_M toy_o comm_self 1 5 6 0 O toy_loop_w).2.

(** The store after a call in which the move-limit step fails. *)
Definition toy_w_failed : World :=
  (optimize toy_M_movelimit_fails toy_o 1 toy_w).2.

(** The construction with a log that cannot be opened. *)
Definition toy_unopened : constructed * World :=
  Optimizer_new toy_problem "/nonexistent/mma4py.log" world0.

(** ** Vocabulary of the further properties *)

(** The vectors of an optimizer object, in the order of their creation. *)
Definition vectors (o : Optimizer) : list Vec :=
  [vec_x o; vec_g o; vec_lb o; vec_ub o] ++ vec_gcon o.

(** Each vector of [o] is a different object; each keeps aside an array
    of its own, which is none of the six arrays. *)
Record opt_owns (o : Optimizer) (w : World) : Prop := {
  own_distinct : NoDup (vectors o);
  own_arrays : forall v, v ∈ vectors o ->
    exists vo own,
      vecs w !! v = Some vo /\ v_unplaced vo = Some own /\
      p_block own ∉ array_blocks o
}.

(** [VecDestroy] on each vector of [vs], in order, under [PetscCall]. *)
Fixpoint destroy_all (vs : list Vec) : petsc unit :=
  match vs with
  | [] => mret tt
  | v :: vs' => VecDestroy v;; destroy_all vs'
  end.

(** The calls made inside the loop. *)
Definition loop_event (e : event) : bool :=
  match e with
  | EvEvalObjCon _ | EvEvalObjConGrad _ | EvSetOuterMovelimit _ _ _ _
  | EvUpdate _ _ _ _ _ _ | EvKKTresidual _ _ _ _ _ _ => true
  | _ => false
  end.

(** A computation whose effect on the files is within [R]. *)
Definition files_rel (R : gmap string string -> gmap string string -> Prop)
    {A} (m : petsc A) : Prop :=
  forall w, R (files w) (files (m w).2).

(** A computation that touches neither the files nor the record of the
    calls. *)
Definition quiet {A} (m : petsc A) : Prop :=
  forall w, files (m w).2 = files w /\ trace (m w).2 = trace w.

(** Two sets of files that agree on every file but [f]. *)
Definition same_files_but (f : option string)
    (fs fs' : gmap string string) : Prop :=
  forall f', f <> Some f' -> fs' !! f' = fs !! f'.

(** A number that is 0 or whose magnitude lies between [10^-400] and
    [10^400], as that of every finite double does. *)
Definition moderate (q : Q) : Prop :=
  (Z.abs (Qnum q) < Zpos (Qden q) * 10 ^ 400)%Z /\
  (Qnum q = 0%Z \/ Zpos (Qden q) < Z.abs (Qnum q) * 10 ^ 400)%Z.

(** A solver like [toy_mma] whose move-limit step fails from its
    [n]-th call on: the solver object counts the updates made. *)
Definition toy_mma_failing_from (n : nat) : MMA_class := {|
  MMA := nat;
  MMA_new := fun _ _ _ => O;
  SetOuterMovelimit := fun mma lb ub f x _ _ =>
    let (lo, hi) := SetOuterMovelimit_spec lb ub f x in
    ((if (n <=? mma)%nat then 1 else 0)%Z, mma, lo, hi);
  Update := fun mma x g cons gcon xmin xmax => (0%Z, S mma, xmin);
  KKTresidual := fun mma x g cons gcon xmin xmax =>
    (0%Z, mma, norm_of NORM_1 g, norm_of NORM_INFINITY x)
|}.

(** The store after a call of five passes of which the third fails. *)
Definition toy_w_failed_later : World :=
  (optimize (toy_mma_failing_from 2) toy_o 5 toy_w).2.

(** A problem like [toy_problem] with no constraint, the optimizer the
    constructor builds for it, and the stores after the construction
    and after [optimize(2)]. *)
Definition free_problem : Problem := {|
  get_mpi_comm := comm_self;
  get_num_vars := 2;
  get_num_vars_local := 2;
  get_num_cons := 0;
  getVarsAndBounds := getVarsAndBounds toy_problem;
  evalObjCon := fun x _ => (Qsum x, []);
  evalObjConGrad := fun _ _ _ => ([1; 1], [])
|}.

Definition free_o : Optimizer := {|
  prob := free_problem;
  log_name := "mma4py.log";
  fp := Some "mma4py.log"%string;
  np_x := {| nd_data := Ptr 0 0; nd_size := 2 |};
  np_lb := {| nd_data := Ptr 1 0; nd_size := 2 |};
  np_ub := {| nd_data := Ptr 2 0; nd_size := 2 |};
  np_g := {| nd_data := Ptr 3 0; nd_size := 2 |};
  np_cons := {| nd_data := Ptr 4 0; nd_size := 0 |};
  np_gcon := {| nd_data := Ptr 5 0; nd_size := 0 |};
  vec_x := 0%nat;
  vec_g := 1%nat;
  vec_lb := 2%nat;
  vec_ub := 3%nat;
  vec_gcon := []
|}.

Definition free_w : World :=
  (Optimizer_new free_problem "mma4py.log" world0).2.
Definition free_w2 : World := (optimize toy_M free_o 2 free_w).2.

(** The designs at which [evalObjCon] and [evalObjConGrad] are called
    among [l], and those given to [KKTresidual], in order. *)
Fixpoint eval_points (l : list event) : list (list Q) :=
  match l with
  | [] => []
  | EvEvalObjCon x :: l' => x :: eval_points l'
  | _ :: l' => eval_points l'
  end.

Fixpoint grad_points (l : list event) : list (list Q) :=
  match l with
  | [] => []
  | EvEvalObjConGrad x :: l' => x :: grad_points l'
  | _ :: l' => grad_points l'
  end.

Fixpoint kkt_points (l : list event) : list (list Q) :=
  match l with
  | [] => []
  | EvKKTresidual x _ _ _ _ _ :: l' => x :: kkt_points l'
  | _ :: l' => kkt_points l'
  end.

(** A call of the move-limit step is made with the bounds [lb] and [ub]
    and the fraction of line 102. *)
Definition movelimit_args (lb ub : list Q) (e : event) : Prop :=
  match e with
  | EvSetOuterMovelimit lb' ub' f _ => lb' = lb /\ ub' = ub /\ f = 2 # 10
  | _ => True
  end.

(** ** Theorems *)

(** The loop keeps [infeas] at or above its starting value. *)
Lemma infeas_fold_ge (l : list Q) (a : Q) : a <= fold_left infeas_step l a.
Proof.
  revert a. induction l as [|c l IH]; intros a; simpl.
  - apply Qle_refl.
  - eapply Qle_trans; [|apply IH].
    unfold infeas_step, Qgtb.
    destruct (Qle_bool c a) eqn:E; simpl.
    + apply Qle_refl.
    + apply Qlt_le_weak, Qnot_le_lt. intros H.
      apply Qle_bool_iff in H. congruence.
Qed.

(** *** The maximum constraint violation *)

Lemma infeas_step_max (a c : Q) : infeas_step a c == Qmax a c.
Proof.
  unfold infeas_step, Qgtb.
  destruct (Qle_bool c a) eqn:E; simpl.
  - apply Qle_bool_iff in E. symmetry. apply Q.max_l. exact E.
  - symmetry. apply Q.max_r. apply Qlt_le_weak, Qnot_le_lt.
    intros H. apply Qle_bool_iff in H. congruence.
Qed.

Lemma max_violation_spec_nonneg (l : list Q) : 0 <= max_violation_spec l.
Proof.
  destruct l as [|c l]; simpl.
  - apply Qle_refl.
  - eapply Qle_trans; [|apply Q.le_max_l]. apply Q.le_max_r.
Qed.

Lemma max3_nonneg (a c s : Q) :
  0 <= a -> Qmax (Qmax a c) s == Qmax a (Qmax (Qmax c 0) s).
Proof.
  intros Ha.
  destruct (Q.max_spec a c) as [[? E1]|[? E1]];
  destruct (Q.max_spec c 0) as [[? E2]|[? E2]];
  destruct (Q.max_spec (Qmax a c) s) as [[? E3]|[? E3]];
  destruct (Q.max_spec (Qmax c 0) s) as [[? E4]|[? E4]];
  destruct (Q.max_spec a (Qmax (Qmax c 0) s)) as [[? E5]|[? E5]];
  lra.
Qed.

Lemma infeas_fold_spec (l : list Q) (a : Q) :
  0 <= a -> fold_left infeas_step l a == Qmax a (max_violation_spec l).
Proof.
  revert a. induction l as [|c l IH]; intros a Ha; simpl.
  - symmetry. apply Q.max_l. exact Ha.
  - rewrite IH.
    + rewrite (infeas_step_max a c). apply max3_nonneg. exact Ha.
    + rewrite (infeas_step_max a c).
      eapply Qle_trans; [exact Ha | apply Q.le_max_l].
Qed.

Lemma max_violation_spec_le0 (l : list Q) :
  max_violation_spec l <= 0 <-> (forall c, In c l -> c <= 0).
Proof.
  induction l as [|c l IH]; simpl.
  - split; [intros _ ? [] | intros _; apply Qle_refl].
  - rewrite Q.max_lub_iff, Q.max_lub_iff, IH. split.
    + intros [[Hc _] Hl] c' [<-|Hin]; auto.
    + intros H. repeat split; auto. apply Qle_refl.
Qed.

(** The violation computed by lines 152-159 from constraint values that
    are numbers is the maximum over the constraints of [max(cons[i], 0)];
    it is never negative; it is 0 exactly when every constraint value is
    at most 0; on [-1.0, 0.3, 0.0] it is 0.3. *)
Lemma max_violation_props (cons : list Q) :
  max_violation cons == max_violation_spec cons /\
  0 <= max_violation cons /\
  (max_violation cons == 0 <-> (forall c, In c cons -> c <= 0)) /\
  max_violation [-(1); 3 # 10; 0] = 3 # 10.
Proof.
  assert (E : max_violation cons == max_violation_spec cons).
  { unfold max_violation. rewrite infeas_fold_spec by apply Qle_refl.
    apply Q.max_r, max_violation_spec_nonneg. }
  split; [exact E|]. split; [apply infeas_fold_ge|]. split; [|reflexivity].
  rewrite <- max_violation_spec_le0, <- E. split.
  - intros ->. apply Qle_refl.
  - intros H. apply Qle_antisym; [exact H | apply infeas_fold_ge].
Qed.

(** On numbers the loop read on doubles is the loop read on rationals. *)
Lemma infeas_fold_numbers (l : list Q) (a : Q) :
  fold_left infeas_step_d (map DNum l) (DNum a)
  = DNum (fold_left infeas_step l a).
Proof.
  revert a. induction l as [|c l IH]; intros a; [reflexivity|].
  cbn [map fold_left]. unfold infeas_step_d at 2, infeas_step at 2.
  cbn [dgt]. destruct (Qgtb c a); apply IH.
Qed.

(** *** The move-limit box *)

Lemma SetOuterMovelimit_spec_lookup (lb ub x : list Q) (f : Q) (i : nat)
    (l u xi : Q) :
  lb !! i = Some l -> ub !! i = Some u -> x !! i = Some xi ->
  (SetOuterMovelimit_spec lb ub f x).1 !! i = Some (movelimit_lo f l u xi) /\
  (SetOuterMovelimit_spec lb ub f x).2 !! i = Some (movelimit_hi f l u xi).
Proof.
  intros Hl Hu Hx. unfold SetOuterMovelimit_spec; simpl.
  rewrite !lookup_zip_with, Hl, Hu, Hx. simpl. split; reflexivity.
Qed.

(** C6, as amended. With the fraction 0.2 of line 102, the temporary box
    of variable [i] is [max(lb, x - 0.2(ub-lb))], [min(ub, x + 0.2(ub-lb))];
    it lies inside the permanent box; and when [ub = lb] it is that
    single point provided the iterate lies in the permanent box. *)
Theorem move_limit_box (lb ub x : list Q) (i : nat) (l u xi : Q) :
  lb !! i = Some l -> ub !! i = Some u -> x !! i = Some xi ->
  exists lo hi,
    (SetOuterMovelimit_spec lb ub movelim x).1 !! i = Some lo /\
    (SetOuterMovelimit_spec lb ub movelim x).2 !! i = Some hi /\
    lo = Qmax l (xi - (2 # 10) * (u - l)) /\
    hi = Qmin u (xi + (2 # 10) * (u - l)) /\
    l <= lo /\ hi <= u /\
    (u == l -> l <= xi <= u -> lo == l /\ hi == l).
Proof.
  intros Hl Hu Hx.
  destruct (SetOuterMovelimit_spec_lookup lb ub x movelim i l u xi Hl Hu Hx)
    as [E1 E2].
  exists (movelimit_lo movelim l u xi), (movelimit_hi movelim l u xi).
  split; [exact E1|]. split; [exact E2|].
  split; [reflexivity|]. split; [reflexivity|].
  split; [apply Q.le_max_l|]. split; [apply Q.le_min_l|].
  intros Hul [H1 H2]. unfold movelimit_lo, movelimit_hi, movelim. split.
  - apply Q.max_l. lra.
  - rewrite Q.min_l by lra. exact Hul.
Qed.

Lemma move_limit_box_witness :
  exists lo hi,
    (SetOuterMovelimit_spec [1] [1] movelim [1]).1 !! 0%nat = Some lo /\
    (SetOuterMovelimit_spec [1] [1] movelim [1]).2 !! 0%nat = Some hi /\
    lo = Qmax 1 (1 - (2 # 10) * (1 - 1)) /\
    hi = Qmin 1 (1 + (2 # 10) * (1 - 1)) /\
    1 <= lo /\ hi <= 1 /\
    (1 == 1 -> 1 <= 1 <= 1 -> lo == 1 /\ hi == 1).
Proof.
  apply (move_limit_box [1] [1] [1] 0 1 1 1); reflexivity.
Defined.

(** C6 as stated fails: with [lb = ub = 1] and the iterate at 5 the lower
    end of the temporary box is 5, not the single point 1. *)
Lemma move_limit_box_no_collapse :
  exists lo hi,
    [1] !! 0%nat = Some 1 /\
    (SetOuterMovelimit_spec [1] [1] movelim [5]).1 !! 0%nat = Some lo /\
    (SetOuterMovelimit_spec [1] [1] movelim [5]).2 !! 0%nat = Some hi /\
    lo == 5 /\ hi == 1 /\ ~ (lo == 1 /\ hi == 1).
Proof.
  eexists. eexists.
  split; [reflexivity|]. split; [reflexivity|]. split; [reflexivity|].
  split; [reflexivity|]. split; [reflexivity|].
  intros [H _]. vm_compute in H. discriminate H.
Qed.

(** *** Binding a vector to a buffer *)

Ltac unfold_petsc := unfold mbind, petsc_bind, mret, petsc_ret.

(** What a successful [bind_petsc_vec_to_array] returns: the next handle,
    and the store with one more vector object and one more block, the
    array the vector got with its type. *)
Lemma bind_petsc_vec_to_array_Ok comm gsize lsize data w v w' :
  bind_petsc_vec_to_array comm gsize lsize data w = (Ok v, w') ->
  v = next_vec w /\
  w' = {| heap := <[next_block w :=
                      replicate (Z.to_nat (local_size comm gsize lsize)) 0]>
                    (heap w);
          next_block := S (next_block w); uninit := uninit w;
          vecs := <[next_vec w :=
                      bound_vec comm gsize (local_size comm gsize lsize) data
                        (Ptr (next_block w) 0)]> (vecs w);
          next_vec := S (next_vec w); writable := writable w;
          files := files w; trace := trace w |}.
Proof.
  unfold bind_petsc_vec_to_array. unfold_petsc.
  unfold VecCreate, new_vec. simpl.
  unfold VecSetSizes. simpl. rewrite lookup_insert_eq. simpl.
  destruct ((0 <=? gsize) && (gsize <? lsize))%Z eqn:E1; [discriminate|].
  simpl. unfold VecSetType, with_vecs. simpl. rewrite lookup_insert_eq. simpl.
  destruct ((lsize <? 0) && (gsize <? 0))%Z eqn:E2; [discriminate|].
  destruct ((0 <=? lsize) && (0 <=? gsize)
            && negb (sum_local comm lsize =? gsize))%Z eqn:E3;
    [discriminate|].
  simpl. unfold VecPlaceArray, with_vecs. simpl. rewrite lookup_insert_eq.
  simpl. intros H. injection H as <- <-. split; [reflexivity|].
  rewrite !insert_insert_eq. reflexivity.
Qed.

Lemma load_store_eq (h : gmap nat (list Q)) (p : ptr) (i : nat) (val : Q)
    (blk : list Q) :
  h !! p_block p = Some blk -> (p_off p + i < length blk)%nat ->
  load (store h p i val) p i = val.
Proof.
  intros Hb Hi. unfold load, store.
  rewrite lookup_alter_eq, Hb. simpl.
  rewrite list_lookup_insert_eq by exact Hi. reflexivity.
Qed.

(** C1, as amended. After a successful bind on a buffer of at least
    [lsize] elements: the accessor returns the buffer's own pointer, so
    the local storage of the vector is the first [lsize] elements of the
    buffer; every block of the store holds what it held (nothing is
    copied); a value written through the accessor is read in the buffer
    at the same index, and the other way round. The vector still got an
    array of its own, [lsize] zeros in a new block, when its type was
    set: that array is set aside and is not the local storage. *)
Theorem bind_aliases_buffer comm gsize lsize data w v w' blk :
  bind_petsc_vec_to_array comm gsize lsize data w = (Ok v, w') ->
  (0 <= lsize)%Z ->
  heap w !! next_block w = None ->
  heap w !! p_block data = Some blk ->
  (p_off data + Z.to_nat lsize <= length blk)%nat ->
  VecGetArray v w' = (Ok data, w') /\
  vec_read w' v = take (Z.to_nat lsize) (drop (p_off data) blk) /\
  (forall b l, heap w !! b = Some l -> heap w' !! b = Some l) /\
  (forall a i val, (VecGetArray v w').1 = Ok a -> (i < Z.to_nat lsize)%nat ->
     load (store (heap w') a i val) data i = val /\
     load (store (heap w') data i val) a i = val) /\
  (exists own, (v_unplaced <$> vecs w' !! v) = Some (Some own) /\
     p_block own <> p_block data /\
     heap w !! p_block own = None /\
     heap w' !! p_block own = Some (replicate (Z.to_nat lsize) 0)).
Proof.
  intros Hbind Hl Hfree Hblk Hlen.
  apply bind_petsc_vec_to_array_Ok in Hbind as [-> ->].
  assert (Hn : local_size comm gsize lsize = lsize).
  { unfold local_size. destruct (lsize <? 0)%Z eqn:E; [lia|reflexivity]. }
  assert (Hne : next_block w <> p_block data) by congruence.
  rewrite Hn.
  assert (Hget : forall w0,
    vecs w0 !! next_vec w
      = Some (bound_vec comm gsize lsize data (Ptr (next_block w) 0)) ->
    VecGetArray (next_vec w) w0 = (Ok data, w0)).
  { intros w0 E. unfold VecGetArray. rewrite E. reflexivity. }
  split; [apply Hget; simpl; apply lookup_insert_eq|].
  split.
  { unfold vec_read, load_n. simpl. rewrite lookup_insert_eq. simpl.
    rewrite lookup_insert_ne by exact Hne. rewrite Hblk. reflexivity. }
  split.
  { intros b l Hb. simpl. rewrite lookup_insert_ne by congruence. exact Hb. }
  split.
  { intros a i val Ha Hi.
    rewrite Hget in Ha by (simpl; apply lookup_insert_eq).
    simpl in Ha. injection Ha as <-.
    assert (heap {| heap := <[next_block w := replicate (Z.to_nat lsize) 0]>
                              (heap w);
                    next_block := S (next_block w); uninit := uninit w;
                    vecs := <[next_vec w :=
                                bound_vec comm gsize lsize data
                                  (Ptr (next_block w) 0)]> (vecs w);
                    next_vec := S (next_vec w); writable := writable w;
                    files := files w; trace := trace w |} !! p_block data
            = Some blk) as Hb'.
    { simpl. rewrite lookup_insert_ne by exact Hne. exact Hblk. }
    split; apply (load_store_eq _ _ _ _ blk Hb'); lia. }
  exists (Ptr (next_block w) 0). simpl.
  rewrite !lookup_insert_eq. simpl. auto.
Qed.

Lemma bind_aliases_buffer_witness :
  exists w',
    bind_petsc_vec_to_array comm_self 3%Z 3%Z (Ptr 0 0) buffer_world
      = (Ok 0%nat, w') /\
    VecGetArray 0%nat w' = (Ok (Ptr 0 0), w') /\
    vec_read w' 0%nat = [1; 2; 3].
Proof.
  eexists. split; [reflexivity|].
  pose proof (bind_aliases_buffer comm_self 3%Z 3%Z (Ptr 0 0) buffer_world
                0%nat _ [1; 2; 3] eq_refl) as H.
  destruct H as (H1 & H2 & _); [lia | reflexivity | reflexivity | simpl; lia |].
  split; [exact H1 | exact H2].
Defined.

(** C1 as stated fails on the words "no allocation": the bind of a
    three-element buffer leaves the store with one more block, the three
    zeros of the vector's own array. *)
Lemma bind_allocates_own_array :
  exists w',
    bind_petsc_vec_to_array comm_self 3%Z 3%Z (Ptr 0 0) buffer_world
      = (Ok 0%nat, w') /\
    heap buffer_world !! 1%nat = None /\
    heap w' !! 1%nat = Some [0; 0; 0] /\
    next_block w' = S (next_block buffer_world).
Proof.
  eexists. split; [reflexivity|]. repeat split.
Qed.

(** *** The store under the loop *)

Lemma filled_length old new : length (filled old new) = length old.
Proof. unfold filled. apply length_inserts. Qed.

Lemma filled_same_length old new : length new = length old -> filled old new = new.
Proof.
  intros H. unfold filled. rewrite <- H, firstn_all.
  rewrite <- (app_nil_r new) at 1. apply list_inserts_0_l. exact H.
Qed.

Lemma block_len_wr b len l w b' : block_len (wr b len l w) b' = block_len w b'.
Proof.
  unfold block_len, wr, store_n. simpl.
  rewrite lookup_alter. case_decide as E; [|reflexivity].
  subst b'. destruct (heap w !! b); simpl; [|reflexivity].
  f_equal. apply length_inserts.
Qed.

Lemma rd_wr_eq b len l w :
  block_len w b = Some len -> rd (wr b len l w) b len = filled (rd w b len) l.
Proof.
  unfold block_len, rd, wr, load_n, store_n. simpl.
  rewrite lookup_alter_eq.
  destruct (heap w !! b) as [blk|]; simpl; [|discriminate].
  intros [= H]. subst len. rewrite !drop_0. unfold filled.
  rewrite (firstn_all blk).
  rewrite <- (length_inserts blk 0 (take (length blk) l)) at 1.
  apply firstn_all.
Qed.

Lemma rd_wr_ne b len l w b' len' :
  b <> b' -> rd (wr b len l w) b' len' = rd w b' len'.
Proof.
  intros Hne. unfold rd, wr, load_n, store_n. simpl.
  rewrite lookup_alter_ne by exact Hne. reflexivity.
Qed.

Lemma same_shape_refl w : same_shape w w.
Proof. repeat split. Qed.

Lemma same_shape_trans w1 w2 w3 : same_shape w1 w2 -> same_shape w2 w3 -> same_shape w1 w3.
Proof.
  intros (A1 & A2 & A3 & A4) (B1 & B2 & B3 & B4).
  split; [congruence|]. split; [congruence|]. split; [congruence|].
  intros b. rewrite B4. apply A4.
Qed.

Lemma same_shape_wr b len l w : same_shape w (wr b len l w).
Proof. repeat split. intros b'. apply block_len_wr. Qed.

Lemma same_shape_emit e w : same_shape w (emit e w).
Proof. repeat split. Qed.

Lemma same_shape_with_files fs w : same_shape w (with_files fs w).
Proof. repeat split. Qed.

Lemma array_ok_shape w w' a sz : same_shape w w' -> array_ok w a sz -> array_ok w' a sz.
Proof.
  intros (_ & E2 & _ & E4) (H1 & H2 & H3 & H4).
  repeat split; try assumption. - rewrite E4. exact H3. - rewrite E2. exact H4.
Qed.

Lemma view_ok_shape w w' v p n : same_shape w w' -> view_ok w v p n -> view_ok w' v p n.
Proof.
  intros (E1 & _ & E3 & _) (H1 & vo & H2). split; [rewrite E3; exact H1|].
  exists vo. rewrite E1. exact H2.
Qed.

Lemma opt_wf_shape o w w' : same_shape w w' -> opt_wf o w -> opt_wf o w'.
Proof.
  intros S [].
  constructor; eauto using array_ok_shape, view_ok_shape.
Qed.

Lemma loop_inv_shape o lbt ubt w w' :
  same_shape w w' -> loop_inv o lbt ubt w -> loop_inv o lbt ubt w'.
Proof.
  intros S [Hwf (bl & bu & H)].
  constructor; [eapply opt_wf_shape; eassumption|].
  exists bl, bu. destruct S as (E1 & _ & _ & E4). rewrite E1, !E4. exact H.
Qed.

Lemma nd_read_rd w a sz :
  array_ok w a sz -> nd_read w a = rd w (p_block (nd_data a)) sz.
Proof.
  intros (H1 & H2 & _). unfold nd_read, rd. destruct (nd_data a) as [b off].
  simpl in *. subst. reflexivity.
Qed.

Lemma nd_write_wr w a sz l :
  array_ok w a sz -> nd_write a l w = wr (p_block (nd_data a)) sz l w.
Proof.
  intros (H1 & H2 & _). unfold nd_write, wr. destruct (nd_data a) as [b off].
  simpl in *. subst. reflexivity.
Qed.

Lemma vec_read_rd w v b n :
  (exists vo, vecs w !! v = Some vo /\ v_array vo = Some (Ptr b 0) /\ v_n vo = n) ->
  vec_read w v = rd w b (Z.to_nat n).
Proof.
  intros (vo & H1 & H2 & H3). unfold vec_read, rd. rewrite H1, H2, H3. reflexivity.
Qed.

Lemma vec_write_wr w v b n l :
  (exists vo, vecs w !! v = Some vo /\ v_array vo = Some (Ptr b 0) /\ v_n vo = n) ->
  vec_write v l w = wr b (Z.to_nat n) l w.
Proof.
  intros (vo & H1 & H2 & H3). unfold vec_write, wr. rewrite H1, H2, H3. reflexivity.
Qed.

Lemma view_array_ptr w v a n sz :
  array_ok w a sz -> view_ok w v (nd_data a) n ->
  exists vo, vecs w !! v = Some vo /\ v_array vo = Some (Ptr (p_block (nd_data a)) 0) /\ v_n vo = n.
Proof.
  intros (H1 & _) (_ & vo & H). exists vo. destruct (nd_data a) as [b off]. simpl in *. subst. exact H.
Qed.

Lemma rd_whole w b len blk :
  heap w !! b = Some blk -> length blk = len -> rd w b len = blk.
Proof.
  intros H1 H2. unfold rd, load_n. simpl. rewrite H1, drop_0. subst. apply firstn_all.
Qed.

Lemma block_len_Some w b len :
  block_len w b = Some len -> exists blk, heap w !! b = Some blk /\ length blk = len.
Proof.
  unfold block_len. destruct (heap w !! b) as [blk|]; simpl; [|discriminate].
  intros [= H]. eauto.
Qed.

Lemma rows_read o w :
  opt_wf o w ->
  map (vec_read w) (vec_gcon o)
  = rows_of (Z.to_nat (get_num_vars_local (prob o))) (Z.to_nat (get_num_cons (prob o)))
      (nd_read w (np_gcon o)).
Proof.
  intros Hwf. destruct Hwf as
    [H_nl H_nv H_sum H_nc H_x H_lb H_ub H_g H_cons H_gcon H_blocks H_vx H_vg H_vlb H_vub H_rl H_rows].
  rewrite (nd_read_rd _ _ _ H_gcon).
  destruct H_gcon as (Hoff & Hsz & Hlen & _).
  apply block_len_Some in Hlen as (blk & Hblk & Hl).
  rewrite (rd_whole _ _ _ _ Hblk Hl).
  unfold rows_of. apply list_eq. intros i.
  rewrite !list_lookup_fmap.
  destruct (vec_gcon o !! i) as [v|] eqn:Ev; simpl.
  - assert (i < Z.to_nat (get_num_cons (prob o)))%nat as Hi.
    { rewrite <- H_rl. eapply lookup_lt_Some. exact Ev. }
    rewrite lookup_seq_lt by exact Hi. simpl.
    destruct (H_rows _ _ Ev) as (_ & vo & H1 & H2 & H3).
    unfold vec_read, load_n. rewrite H1, H2, H3. simpl. rewrite Hblk. reflexivity.
  - apply lookup_ge_None in Ev. rewrite H_rl in Ev.
    rewrite lookup_seq_ge by exact Ev. reflexivity.
Qed.

Lemma NoDup_6_ne (a b c d e f : nat) :
  NoDup [a; b; c; d; e; f] ->
  a <> b /\ a <> c /\ a <> d /\ a <> e /\ a <> f /\
  b <> c /\ b <> d /\ b <> e /\ b <> f /\
  c <> d /\ c <> e /\ c <> f /\ d <> e /\ d <> f /\ e <> f.
Proof.
  intros H. repeat (apply NoDup_cons in H as [? H]). set_solver.
Qed.

Lemma not_elem_6 (x a b c d e f : nat) :
  x ∉ [a; b; c; d; e; f] -> x <> a /\ x <> b /\ x <> c /\ x <> d /\ x <> e /\ x <> f.
Proof. set_solver. Qed.

Lemma layout_intro o lbt ubt w bl bu :
  opt_wf o w ->
  vecs w !! lbt
    = Some (owned_vec (get_mpi_comm (prob o)) (get_num_vars (prob o))
              (get_num_vars_local (prob o)) (Ptr bl 0)) ->
  vecs w !! ubt
    = Some (owned_vec (get_mpi_comm (prob o)) (get_num_vars (prob o))
              (get_num_vars_local (prob o)) (Ptr bu 0)) ->
  block_len w bl = Some (Z.to_nat (get_num_vars_local (prob o))) ->
  block_len w bu = Some (Z.to_nat (get_num_vars_local (prob o))) ->
  bl <> bu -> bl ∉ array_blocks o -> bu ∉ array_blocks o ->
  layout o lbt ubt bl bu w.
Proof.
  intros Hwf Hl Hu Ll Lu Hne Hnl Hnu.
  pose proof Hwf as Hwf'. destruct Hwf as
    [H_nl H_nv H_sum H_nc H_x H_lb H_ub H_g H_cons H_gcon H_blocks H_vx H_vg H_vlb H_vub H_rl H_rows].
  unfold array_blocks in *. simpl in *.
  apply NoDup_6_ne in H_blocks. apply not_elem_6 in Hnl, Hnu.
  constructor.
  - intros k k' Hk. destruct H_blocks as (?&?&?&?&?&?&?&?&?&?&?&?&?&?&?).
    destruct Hnl as (?&?&?&?&?&?), Hnu as (?&?&?&?&?&?).
    destruct k, k'; simpl; unfold blk; congruence.
  - intros k. destruct k; simpl; unfold blk; try assumption;
      match goal with
      | H : array_ok _ ?a _ |- block_len _ (p_block (nd_data ?a)) = _ => apply H
      end.
  - unfold get_bufs, bufs_rd. simpl. unfold blk.
    f_equal; try (apply nd_read_rd; assumption).
    + apply vec_read_rd. eexists. split; [exact Hl|]. split; reflexivity.
    + apply vec_read_rd. eexists. split; [exact Hu|]. split; reflexivity.
  - intros l. apply nd_write_wr. assumption.
  - intros l. apply nd_write_wr. assumption.
  - intros l. apply nd_write_wr. assumption.
  - intros l. apply nd_write_wr. assumption.
  - intros l. apply nd_write_wr. assumption.
  - intros l. apply nd_write_wr. assumption.
  - intros l. apply vec_write_wr. eapply view_array_ptr; eassumption.
  - intros l. apply vec_write_wr. eexists. split; [exact Hl|]. split; reflexivity.
  - intros l. apply vec_write_wr. eexists. split; [exact Hu|]. split; reflexivity.
  - rewrite (nd_read_rd _ _ _ H_x). apply vec_read_rd. eapply view_array_ptr; eassumption.
  - rewrite (nd_read_rd _ _ _ H_g). apply vec_read_rd. eapply view_array_ptr; eassumption.
  - rewrite (nd_read_rd _ _ _ H_lb). apply vec_read_rd. eapply view_array_ptr; eassumption.
  - rewrite (nd_read_rd _ _ _ H_ub). apply vec_read_rd. eapply view_array_ptr; eassumption.
  - apply rows_read. exact Hwf'.
  - unfold nd_read. destruct H_cons as (_ & -> & _). reflexivity.
  - destruct H_vx as (_ & vo & H1 & H2 & _). eauto.
Qed.

Lemma loop_inv_layout o lbt ubt w :
  loop_inv o lbt ubt w ->
  exists bl bu, forall w', same_shape w w' -> layout o lbt ubt bl bu w'.
Proof.
  intros [Hwf (bl & bu & Hl & Hu & Ll & Lu & Hne & Hnl & Hnu)].
  exists bl, bu. intros w' S.
  pose proof S as (E1 & _ & _ & E4).
  apply layout_intro; try assumption.
  - eapply opt_wf_shape; eassumption.
  - rewrite E1. exact Hl.
  - rewrite E1. exact Hu.
  - rewrite E4. exact Ll.
  - rewrite E4. exact Lu.
Qed.

Lemma bufs_rd_wr o bl bu w k l :
  (forall k k', k <> k' -> buf_block o bl bu k <> buf_block o bl bu k') ->
  block_len w (buf_block o bl bu k) = Some (buf_len (prob o) k) ->
  bufs_rd o bl bu (wr (buf_block o bl bu k) (buf_len (prob o) k) l w)
  = buf_set k (filled (buf_get k (bufs_rd o bl bu w)) l) (bufs_rd o bl bu w).
Proof.
  intros Hne Hlen.
  destruct k; unfold bufs_rd, buf_set, buf_get;
    cbn [b_x b_lb b_ub b_g b_cons b_gcon b_lbt b_ubt]; f_equal;
    solve [ apply rd_wr_eq; exact Hlen
          | apply rd_wr_ne; apply Hne; discriminate ].
Qed.

Lemma string_app_nil_r (s : string) : (s +:+ "")%string = s.
Proof.
  induction s as [|c s IH]; [reflexivity|].
  change (String c (s +:+ "")%string = String c s). f_equal. exact IH.
Qed.

Lemma string_app_assoc (a b c : string) :
  ((a +:+ b) +:+ c)%string = (a +:+ (b +:+ c))%string.
Proof.
  induction a as [|x a IH]; [reflexivity|].
  change (String x ((a +:+ b) +:+ c)%string = String x (a +:+ (b +:+ c))%string).
  f_equal. exact IH.
Qed.

Section Steps.

Context (M : MMA_class) (o : Optimizer) (lbt ubt : nat) (bl bu : nat).

Context (f : string).

Lemma Layout_shape w w' : same_shape w w' -> Layout o lbt ubt bl bu w -> Layout o lbt ubt bl bu w'.
Proof. intros S L w'' S'. apply L. eapply same_shape_trans; eassumption. Qed.

Lemma Layout_here w : Layout o lbt ubt bl bu w -> layout o lbt ubt bl bu w.
Proof. intros L. apply L, same_shape_refl. Qed.

Lemma stepped_refl w : stepped o bl bu f w w (bufs_rd o bl bu w) [] "".
Proof.
  repeat split; try reflexivity.
  - symmetry. apply app_nil_r.
  - symmetry. apply string_app_nil_r.
Qed.

Lemma stepped_emit w w1 B1 evs txt e :
  stepped o bl bu f w w1 B1 evs txt -> stepped o bl bu f w (emit e w1) B1 (evs ++ [e]) txt.
Proof.
  intros (S & EB & ET & EF & EF' & EU & EW).
  split; [eapply same_shape_trans; [exact S | apply same_shape_emit]|].
  split; [exact EB|]. split; [simpl; rewrite ET, app_assoc; reflexivity|].
  split; [exact EF|]. split; [exact EF'|]. split; assumption.
Qed.

Lemma stepped_wr w w1 B1 evs txt k l :
  Layout o lbt ubt bl bu w -> stepped o bl bu f w w1 B1 evs txt ->
  stepped o bl bu f w (wr (buf_block o bl bu k) (buf_len (prob o) k) l w1)
    (buf_set k (filled (buf_get k B1) l) B1) evs txt.
Proof.
  intros L (S & EB & ET & EF & EF' & EU & EW).
  pose proof (L w1 S) as L1.
  split; [eapply same_shape_trans; [exact S | apply same_shape_wr]|].
  split.
  { rewrite bufs_rd_wr, EB;
      [reflexivity | apply (ly_ne _ _ _ _ _ _ L1) | apply (ly_len _ _ _ _ _ _ L1)]. }
  split; [exact ET|]. split; [exact EF|]. split; [exact EF'|]. split; assumption.
Qed.

Lemma stepped_print w w1 B1 evs txt s :
  stepped o bl bu f w w1 B1 evs txt ->
  stepped o bl bu f w (with_files (<[f := (file_text w1 f +:+ s)%string]> (files w1)) w1)
    B1 evs (txt +:+ s)%string.
Proof.
  intros (S & EB & ET & EF & EF' & EU & EW).
  split; [eapply same_shape_trans; [exact S | apply same_shape_with_files]|].
  split; [exact EB|]. split; [exact ET|].
  split.
  { unfold file_text at 1. simpl. rewrite lookup_insert_eq. simpl.
    rewrite EF. apply string_app_assoc. }
  split; [|split; assumption].
  intros f' Hf'. simpl. rewrite lookup_insert_ne by congruence. apply EF'. exact Hf'.
Qed.

Lemma stepped_trans w w1 w2 B1 B2 e1 e2 t1 t2 :
  stepped o bl bu f w w1 B1 e1 t1 -> stepped o bl bu f w1 w2 B2 e2 t2 ->
  stepped o bl bu f w w2 B2 (e1 ++ e2) (t1 +:+ t2)%string.
Proof.
  intros (S & EB & ET & EF & EF' & EU & EW) (S' & EB' & ET' & EF2 & EF2' & EU' & EW').
  split; [eapply same_shape_trans; eassumption|].
  split; [exact EB'|]. split; [rewrite ET', ET, app_assoc; reflexivity|].
  split; [rewrite EF2, EF; apply string_app_assoc|].
  split; [intros f' Hf'; rewrite EF2', EF' by exact Hf'; reflexivity|].
  split; congruence.
Qed.

Lemma step_evalObjCon w :
  Layout o lbt ubt bl bu w ->
  let B := bufs_rd o bl bu w in
  let oc := evalObjCon (prob o) (b_x B) (b_cons B) in
  exists w', prob_evalObjCon o w = (Ok oc.1, w') /\
    stepped o bl bu f w w' (buf_set BCONS (filled (b_cons B) oc.2) B)
      [EvEvalObjCon (b_x B)] "".
Proof.
  intros L B oc. pose proof (Layout_here w L) as Lw.
  pose proof (ly_bufs _ _ _ _ _ _ Lw) as EB.
  assert (Ex : nd_read w (np_x o) = b_x B) by exact (f_equal b_x EB).
  assert (Ec : nd_read w (np_cons o) = b_cons B) by exact (f_equal b_cons EB).
  unfold prob_evalObjCon. rewrite Ex, Ec. fold oc. destruct oc as [obj cons0].
  eexists. split; [reflexivity|].
  rewrite (ly_w_cons _ _ _ _ _ _ (L _ (same_shape_emit _ _))).
  apply (stepped_wr w _ B _ _ BCONS); [exact L|].
  apply (stepped_emit w w _ [] ""), stepped_refl.
Qed.

Lemma step_evalObjConGrad w :
  Layout o lbt ubt bl bu w ->
  let B := bufs_rd o bl bu w in
  let og := evalObjConGrad (prob o) (b_x B) (b_g B) (b_gcon B) in
  exists w', prob_evalObjConGrad o w = (Ok tt, w') /\
    stepped o bl bu f w w'
      (buf_set BGCON (filled (b_gcon B) og.2)
         (buf_set BG (filled (b_g B) og.1) B))
      [EvEvalObjConGrad (b_x B)] "".
Proof.
  intros L B og. pose proof (Layout_here w L) as Lw.
  pose proof (ly_bufs _ _ _ _ _ _ Lw) as EB.
  assert (Ex : nd_read w (np_x o) = b_x B) by exact (f_equal b_x EB).
  assert (Eg : nd_read w (np_g o) = b_g B) by exact (f_equal b_g EB).
  assert (Ec : nd_read w (np_gcon o) = b_gcon B) by exact (f_equal b_gcon EB).
  unfold prob_evalObjConGrad. rewrite Ex, Eg, Ec. fold og.
  destruct og as [g0 gcon0].
  eexists. split; [reflexivity|].
  rewrite (ly_w_g _ _ _ _ _ _ (L _ (same_shape_emit _ _))).
  rewrite (ly_w_gcon _ _ _ _ _ _
             (L _ (same_shape_trans _ _ _ (same_shape_emit _ _)
                     (same_shape_wr _ _ _ _)))).
  apply (stepped_wr w _ (buf_set BG (filled (b_g B) g0) B) _ _ BGCON);
    [exact L|].
  apply (stepped_wr w _ B _ _ BG); [exact L|].
  apply (stepped_emit w w _ [] ""), stepped_refl.
Qed.

Lemma step_SetOuterMovelimit w mma :
  Layout o lbt ubt bl bu w ->
  let B := bufs_rd o bl bu w in
  let r := SetOuterMovelimit M mma (b_lb B) (b_ub B) movelim (b_x B)
             (b_lbt B) (b_ubt B) in
  exists w',
    mma_SetOuterMovelimit M mma (vec_lb o) (vec_ub o) movelim (vec_x o)
      lbt ubt w = (Ok (r.1.1.1, r.1.1.2), w') /\
    stepped o bl bu f w w'
      (buf_set BUBT (filled (b_ubt B) r.2)
         (buf_set BLBT (filled (b_lbt B) r.1.2) B))
      [EvSetOuterMovelimit (b_lb B) (b_ub B) movelim (b_x B)] "".
Proof.
  intros L B r. pose proof (Layout_here w L) as Lw.
  pose proof (ly_bufs _ _ _ _ _ _ Lw) as EB.
  assert (Ex : vec_read w (vec_x o) = b_x B).
  { rewrite (ly_vr_x _ _ _ _ _ _ Lw). exact (f_equal b_x EB). }
  assert (El : vec_read w (vec_lb o) = b_lb B).
  { rewrite (ly_vr_lb _ _ _ _ _ _ Lw). exact (f_equal b_lb EB). }
  assert (Eu : vec_read w (vec_ub o) = b_ub B).
  { rewrite (ly_vr_ub _ _ _ _ _ _ Lw). exact (f_equal b_ub EB). }
  assert (Elt : vec_read w lbt = b_lbt B) by exact (f_equal b_lbt EB).
  assert (Eut : vec_read w ubt = b_ubt B) by exact (f_equal b_ubt EB).
  unfold mma_SetOuterMovelimit. rewrite Ex, El, Eu, Elt, Eut. fold r.
  destruct r as [[[ierr mma'] lo0] hi0].
  eexists. split; [reflexivity|].
  rewrite (ly_vw_lbt _ _ _ _ _ _ (L _ (same_shape_emit _ _))).
  rewrite (ly_vw_ubt _ _ _ _ _ _
             (L _ (same_shape_trans _ _ _ (same_shape_emit _ _)
                     (same_shape_wr _ _ _ _)))).
  apply (stepped_wr w _ (buf_set BLBT (filled (b_lbt B) lo0) B) _ _ BUBT);
    [exact L|].
  apply (stepped_wr w _ B _ _ BLBT); [exact L|].
  apply (stepped_emit w w _ [] ""), stepped_refl.
Qed.

Lemma reads_for_solver w :
  Layout o lbt ubt bl bu w ->
  let B := bufs_rd o bl bu w in
  vec_read w (vec_x o) = b_x B /\ vec_read w (vec_g o) = b_g B /\
  nd_read w (np_cons o) = b_cons B /\
  map (vec_read w) (vec_gcon o)
  = rows_of (Z.to_nat (get_num_vars_local (prob o)))
      (Z.to_nat (get_num_cons (prob o))) (b_gcon B) /\
  vec_read w lbt = b_lbt B /\ vec_read w ubt = b_ubt B.
Proof.
  intros L B. pose proof (Layout_here w L) as Lw.
  pose proof (ly_bufs _ _ _ _ _ _ Lw) as EB.
  split; [rewrite (ly_vr_x _ _ _ _ _ _ Lw); exact (f_equal b_x EB)|].
  split; [rewrite (ly_vr_g _ _ _ _ _ _ Lw); exact (f_equal b_g EB)|].
  split; [exact (f_equal b_cons EB)|].
  split; [rewrite (ly_rows _ _ _ _ _ _ Lw); f_equal; exact (f_equal b_gcon EB)|].
  split; [exact (f_equal b_lbt EB) | exact (f_equal b_ubt EB)].
Qed.

Lemma step_Update w mma :
  Layout o lbt ubt bl bu w ->
  let B := bufs_rd o bl bu w in
  let rows := rows_of (Z.to_nat (get_num_vars_local (prob o)))
                (Z.to_nat (get_num_cons (prob o))) (b_gcon B) in
  let r := Update M mma (b_x B) (b_g B) (b_cons B) rows (b_lbt B) (b_ubt B) in
  exists w',
    mma_Update M mma (vec_x o) (vec_g o) (np_cons o) (vec_gcon o) lbt ubt w
      = (Ok (r.1.1, r.1.2), w') /\
    stepped o bl bu f w w' (buf_set BX (filled (b_x B) r.2) B)
      [EvUpdate (b_x B) (b_g B) (b_cons B) rows (b_lbt B) (b_ubt B)] "".
Proof.
  intros L B rows r.
  destruct (reads_for_solver w L) as (E1 & E2 & E3 & E4 & E5 & E6).
  unfold mma_Update. rewrite E1, E2, E3, E4, E5, E6. fold B rows r.
  destruct r as [[ierr mma'] x0].
  eexists. split; [reflexivity|].
  rewrite (ly_vw_x _ _ _ _ _ _ (L _ (same_shape_emit _ _))).
  apply (stepped_wr w _ B _ _ BX); [exact L|].
  apply (stepped_emit w w _ [] ""), stepped_refl.
Qed.

Lemma step_KKTresidual w mma :
  Layout o lbt ubt bl bu w ->
  let B := bufs_rd o bl bu w in
  let rows := rows_of (Z.to_nat (get_num_vars_local (prob o)))
                (Z.to_nat (get_num_cons (prob o))) (b_gcon B) in
  exists w',
    mma_KKTresidual M mma (vec_x o) (vec_g o) (np_cons o) (vec_gcon o)
      lbt ubt w
      = (Ok (KKTresidual M mma (b_x B) (b_g B) (b_cons B) rows (b_lbt B)
               (b_ubt B)), w') /\
    stepped o bl bu f w w' B
      [EvKKTresidual (b_x B) (b_g B) (b_cons B) rows (b_lbt B) (b_ubt B)] "".
Proof.
  intros L B rows.
  destruct (reads_for_solver w L) as (E1 & E2 & E3 & E4 & E5 & E6).
  unfold mma_KKTresidual. rewrite E1, E2, E3, E4, E5, E6. fold B rows.
  eexists. split; [reflexivity|].
  apply (stepped_emit w w _ [] ""), stepped_refl.
Qed.

Lemma step_VecNorm w :
  Layout o lbt ubt bl bu w ->
  VecNorm (vec_x o) NORM_1 w
  = (Ok (norm_of NORM_1 (b_x (bufs_rd o bl bu w))), w).
Proof.
  intros L. destruct (reads_for_solver w L) as (E1 & _).
  destruct (ly_live_x _ _ _ _ _ _ (Layout_here w L)) as (vo & p & H1 & H2).
  unfold VecNorm. rewrite H1, H2, E1. reflexivity.
Qed.

Lemma step_read_infeas w :
  Layout o lbt ubt bl bu w ->
  read_infeas o (get_num_cons (prob o)) w
  = (Ok (max_violation (b_cons (bufs_rd o bl bu w))), w).
Proof.
  intros L. pose proof (Layout_here w L) as Lw.
  unfold read_infeas. rewrite (ly_cons _ _ _ _ _ _ Lw).
  pose proof (ly_bufs _ _ _ _ _ _ Lw) as EB.
  rewrite (f_equal b_cons EB : nd_read w (np_cons o) = _). reflexivity.
Qed.

Lemma step_print w s :
  comm_rank (get_mpi_comm (prob o)) = 0%Z -> fp o = Some f ->
  exists w', PetscFPrintf (get_mpi_comm (prob o)) (fp o) s w = (Ok tt, w') /\
    stepped o bl bu f w w' (bufs_rd o bl bu w) [] s.
Proof.
  intros Hr Hf. unfold PetscFPrintf. rewrite Hr, Hf. simpl.
  eexists. split; [reflexivity|].
  apply (stepped_print w w _ [] "" s), stepped_refl.
Qed.

Lemma stepped_Layout w w' B' evs txt :
  stepped o bl bu f w w' B' evs txt -> Layout o lbt ubt bl bu w -> Layout o lbt ubt bl bu w'.
Proof. intros (S & _). apply Layout_shape. exact S. Qed.

Ltac norm_bufs H :=
  cbn [buf_set buf_get b_x b_lb b_ub b_g b_cons b_gcon b_lbt b_ubt fst snd]
    in H.

Lemma iteration_sim w iter mma :
  Layout o lbt ubt bl bu w ->
  comm_rank (get_mpi_comm (prob o)) = 0%Z -> fp o = Some f ->
  let R := iteration_on_bufs (prob o) M (bufs_rd o bl bu w) iter mma in
  exists w',
    iteration M o (get_mpi_comm (prob o)) (get_num_cons (prob o)) lbt ubt
      iter mma w = (R.1.1.1, w') /\
    stepped o bl bu f w w' R.1.1.2 R.1.2 R.2.
Proof.
  intros L Hr Hf. unfold iteration, iteration_on_bufs. unfold_petsc.
  pose proof (step_evalObjCon w L) as H1. cbv zeta in H1.
  remember (bufs_rd o bl bu w) as B eqn:HB.
  destruct (evalObjCon (prob o) (b_x B) (b_cons B)) as [obj cons0].
  norm_bufs H1. destruct H1 as (w1 & E1 & S1). rewrite E1. clear E1.
  pose proof (stepped_Layout _ _ _ _ _ S1 L) as L1.
  (* the gradients *)
  pose proof (step_evalObjConGrad w1 L1) as H2. cbv zeta in H2.
  pose proof S1 as (_ & EB1 & _). rewrite EB1 in H2. clear EB1.
  norm_bufs H2.
  destruct (evalObjConGrad (prob o) (b_x B) (b_g B) (b_gcon B)) as [g0 gcon0].
  norm_bufs H2. destruct H2 as (w2 & E2 & S2). rewrite E2. clear E2.
  pose proof (stepped_trans _ _ _ _ _ _ _ _ _ S1 S2) as S12.
  clear S1 S2. pose proof (stepped_Layout _ _ _ _ _ S12 L) as L2. clear L1.
  (* the move limits *)
  pose proof (step_SetOuterMovelimit w2 mma L2) as H3. cbv zeta in H3.
  pose proof S12 as (_ & EB2 & _). rewrite EB2 in H3. clear EB2.
  norm_bufs H3.
  destruct (SetOuterMovelimit M mma (b_lb B) (b_ub B) movelim (b_x B)
              (b_lbt B) (b_ubt B)) as [[[ierr mma1] lo0] hi0].
  norm_bufs H3. destruct H3 as (w3 & E3 & S3). rewrite E3. clear E3.
  pose proof (stepped_trans _ _ _ _ _ _ _ _ _ S12 S3) as S123.
  clear S12 S3. pose proof (stepped_Layout _ _ _ _ _ S123 L) as L3. clear L2.
  unfold PetscCall.
  destruct (ierr =? 0)%Z eqn:Eierr.
  2:{ eexists. split; [reflexivity|]. exact S123. }
  (* the update *)
  pose proof (step_Update w3 mma1 L3) as H4. cbv zeta in H4.
  pose proof S123 as (_ & EB3 & _). rewrite EB3 in H4. clear EB3.
  norm_bufs H4.
  match type of H4 with context [Update M ?a ?b ?c ?d ?e ?f0 ?g] =>
    destruct (Update M a b c d e f0 g) as [[e_upd mma2] x0] end.
  norm_bufs H4. destruct H4 as (w4 & E4 & S4). rewrite E4. clear E4.
  pose proof (stepped_trans _ _ _ _ _ _ _ _ _ S123 S4) as S1234.
  clear S123 S4. pose proof (stepped_Layout _ _ _ _ _ S1234 L) as L4. clear L3.
  (* the residual *)
  pose proof (step_KKTresidual w4 mma2 L4) as H5. cbv zeta in H5.
  pose proof S1234 as (_ & EB4 & _). rewrite EB4 in H5. clear EB4.
  norm_bufs H5.
  match type of H5 with context [KKTresidual M ?a ?b ?c ?d ?e ?f0 ?g] =>
    destruct (KKTresidual M a b c d e f0 g)
      as [[[e_kkt mma3] kkterr_l2] kkterr_linf] end.
  destruct H5 as (w5 & E5 & S5). rewrite E5. clear E5.
  pose proof (stepped_trans _ _ _ _ _ _ _ _ _ S1234 S5) as S5'.
  clear S1234 S5. pose proof (stepped_Layout _ _ _ _ _ S5' L) as L5. clear L4.
  (* the norm and the violation *)
  rewrite (step_VecNorm w5 L5), (step_read_infeas w5 L5).
  pose proof S5' as (_ & EB5 & _). rewrite EB5. clear EB5.
  cbn [b_x b_cons].
  (* the two prints *)
  destruct (Z.rem iter 10 =? 0)%Z.
  - destruct (step_print w5 log_header Hr Hf) as (w6 & E6 & S6).
    rewrite E6. clear E6.
    pose proof (stepped_trans _ _ _ _ _ _ _ _ _ S5' S6) as S6'.
    match goal with |- context [PetscFPrintf _ _ ?s w6] =>
      destruct (step_print w6 s Hr Hf) as (w7 & E7 & S7) end.
    rewrite E7. clear E7.
    pose proof (stepped_trans _ _ _ _ _ _ _ _ _ S6' S7) as S7'.
    eexists. split; [reflexivity|].
    destruct S5' as (_ & EB5 & _), S6 as (_ & EB6 & _),
      S7' as (A1 & A2 & A3 & A4 & A5).
    rewrite EB6, EB5 in A2. rewrite !app_nil_r in A3. simpl in A3.
    split; [exact A1|]. split; [exact A2|]. split; [exact A3|].
    split; [|exact A5]. rewrite A4. reflexivity.
  - match goal with |- context [PetscFPrintf _ _ ?s w5] =>
      destruct (step_print w5 s Hr Hf) as (w7 & E7 & S7) end.
    rewrite E7. clear E7.
    pose proof (stepped_trans _ _ _ _ _ _ _ _ _ S5' S7) as S7'.
    eexists. split; [reflexivity|].
    destruct S5' as (_ & EB5 & _), S7' as (A1 & A2 & A3 & A4 & A5).
    rewrite EB5 in A2. rewrite !app_nil_r in A3. simpl in A3.
    split; [exact A1|]. split; [exact A2|]. split; [exact A3|].
    split; [|exact A5]. rewrite A4. reflexivity.
Qed.

End Steps.

Lemma copy_from_length k i src dst : length (copy_from k i src dst) = length dst.
Proof.
  revert i dst. induction k as [|k IH]; intros i dst; simpl; [reflexivity|].
  rewrite IH. apply length_insert.
Qed.

Lemma copy_from_lookup k i src dst j :
  length src = length dst ->
  copy_from k i src dst !! j
  = if decide (i <= j < i + k)%nat then src !! j else dst !! j.
Proof.
  revert i dst. induction k as [|k IH]; intros i dst Hlen; simpl.
  - case_decide; [lia | reflexivity].
  - rewrite IH by (rewrite length_insert; exact Hlen).
    destruct (decide (i = j)) as [->|Hij].
    + rewrite (decide_False (P := (S j <= j < S j + k)%nat)) by lia.
      rewrite (decide_True (P := (j <= j < j + S k)%nat)) by lia.
      destruct (src !! j) as [x|] eqn:E.
      * simpl. apply list_lookup_insert_eq. rewrite <- Hlen.
        eapply lookup_lt_Some. exact E.
      * simpl. apply lookup_ge_None in E. rewrite list_insert_ge by lia.
        apply lookup_ge_None. lia.
    + rewrite list_lookup_insert_ne by exact Hij.
      repeat case_decide; try reflexivity; lia.
Qed.

Lemma copy_from_all src dst :
  length src = length dst -> copy_from (length dst) 0 src dst = src.
Proof.
  intros Hlen. apply list_eq. intros j.
  rewrite copy_from_lookup by exact Hlen.
  case_decide as E; [reflexivity|].
  rewrite (proj2 (lookup_ge_None src j)) by lia.
  apply lookup_ge_None. lia.
Qed.

Lemma copy_bounds_blocks k i bl bu blb bub (h : gmap nat (list Q)) L U LB UB :
  bl <> bu -> bl <> blb -> bl <> bub -> bu <> blb -> bu <> bub ->
  h !! bl = Some L -> h !! bu = Some U ->
  h !! blb = Some LB -> h !! bub = Some UB ->
  copy_bounds k i (Ptr bl 0) (Ptr bu 0) (Ptr blb 0) (Ptr bub 0) h
  = <[bu := copy_from k i UB U]> (<[bl := copy_from k i LB L]> h).
Proof.
  intros N1 N2 N3 N4 N5. revert i h L U.
  induction k as [|k IH]; intros i h L U HL HU HLB HUB; simpl.
  - rewrite (insert_id h bl L HL). rewrite (insert_id h bu U HU). reflexivity.
  - unfold store, load. simpl.
    rewrite HLB. simpl.
    rewrite lookup_alter_ne by congruence. rewrite HUB. simpl.
    erewrite IH.
    + apply map_eq. intros b.
      destruct (decide (b = bu)) as [->|Hbu].
      { rewrite !lookup_insert_eq. reflexivity. }
      rewrite !(lookup_insert_ne _ bu) by congruence.
      destruct (decide (b = bl)) as [->|Hbl].
      { rewrite !lookup_insert_eq. reflexivity. }
      rewrite !(lookup_insert_ne _ bl) by congruence.
      rewrite !lookup_alter_ne by congruence. reflexivity.
    + rewrite lookup_alter_ne by congruence. rewrite lookup_alter_eq, HL. reflexivity.
    + rewrite lookup_alter_eq. rewrite lookup_alter_ne by congruence.
      rewrite HU. reflexivity.
    + rewrite !lookup_alter_ne by congruence. exact HLB.
    + rewrite !lookup_alter_ne by congruence. exact HUB.
Qed.

Lemma allocate_petsc_vec_eq comm gsize lsize w :
  (0 <= lsize <= gsize)%Z ->
  sum_local comm lsize = gsize ->
  allocate_petsc_vec comm gsize lsize w
  = (Ok (next_vec w),
     {| heap := <[next_block w := replicate (Z.to_nat lsize) 0]> (heap w);
        next_block := S (next_block w); uninit := uninit w;
        vecs := <[next_vec w := owned_vec comm gsize lsize (Ptr (next_block w) 0)]>
                  (vecs w);
        next_vec := S (next_vec w); writable := writable w;
        files := files w; trace := trace w |}).
Proof.
  intros H Hs. unfold allocate_petsc_vec. unfold_petsc.
  unfold VecCreate, new_vec. simpl.
  unfold VecSetSizes. simpl. rewrite lookup_insert_eq. simpl.
  replace ((0 <=? gsize) && (gsize <? lsize))%Z with false
    by (symmetry; apply andb_false_iff; right; apply Z.ltb_ge; lia).
  simpl. unfold VecSetType, with_vecs. simpl. rewrite lookup_insert_eq. simpl.
  replace (lsize <? 0)%Z with false by (symmetry; apply Z.ltb_ge; lia).
  replace (sum_local comm lsize =? gsize)%Z with true
    by (symmetry; apply Z.eqb_eq; exact Hs).
  rewrite andb_false_r.
  simpl. rewrite !insert_insert_eq. reflexivity.
Qed.

Lemma opt_wf_extends o w w' : extends w w' -> opt_wf o w -> opt_wf o w'.
Proof.
  intros (E1 & E2 & E3 & E4) [].
  assert (A : forall a sz, array_ok w a sz -> array_ok w' a sz).
  { intros a sz (H1 & H2 & H3 & H4). repeat split; try assumption.
    - rewrite E3 by exact H4. exact H3.
    - lia. }
  assert (V : forall v p n, view_ok w v p n -> view_ok w' v p n).
  { intros v p n (H1 & vo & H2). split; [lia|]. exists vo.
    rewrite E4 by exact H1. exact H2. }
  constructor; auto.
Qed.

Lemma same_shape_extends w w' : same_shape w w' -> extends w w'.
Proof.
  intros (E1 & E2 & E3 & E4). repeat split; try lia.
  - intros b _. apply E4.
  - intros v _. rewrite E1. reflexivity.
Qed.

Lemma extends_trans w1 w2 w3 : extends w1 w2 -> extends w2 w3 -> extends w1 w3.
Proof.
  intros (A1 & A2 & A3 & A4) (B1 & B2 & B3 & B4). repeat split; try lia.
  - intros b Hb. rewrite B3 by lia. apply A3. exact Hb.
  - intros v Hv. rewrite B4 by lia. apply A4. exact Hv.
Qed.

Lemma allocate_temp_bounds_eq o w :
  opt_wf o w ->
  let n := Z.to_nat (get_num_vars_local (prob o)) in
  let nb := next_block w in
  let nv := next_vec w in
  let own b := owned_vec (get_mpi_comm (prob o)) (get_num_vars (prob o))
                 (get_num_vars_local (prob o)) (Ptr b 0) in
  allocate_temp_bounds o w
  = (Ok (nv, S nv),
     {| heap := <[S nb := nd_read w (np_ub o)]>
                  (<[nb := nd_read w (np_lb o)]> (heap w));
        next_block := S (S nb); uninit := uninit w;
        vecs := <[S nv := own (S nb)]> (<[nv := own nb]> (vecs w));
        next_vec := S (S nv); writable := writable w;
        files := files w; trace := trace w |}).
Proof.
  intros Hwf n nb nv own. subst n nb nv own. destruct Hwf as
    [H_nl H_nv H_sum H_nc H_x H_lb H_ub H_g H_cons H_gcon H_blocks H_vx H_vg H_vlb H_vub H_rl H_rows].
  unfold allocate_temp_bounds. unfold_petsc.
  rewrite allocate_petsc_vec_eq by lia.
  rewrite allocate_petsc_vec_eq by lia.
  cbn [heap next_block vecs next_vec uninit writable files trace].
  unfold VecGetArray, VecRestoreArray, with_heap.
  repeat (cbn [owned_vec v_array heap next_block vecs next_vec uninit
               writable files trace];
          first [ rewrite lookup_insert_eq
                | rewrite (lookup_insert_ne _ (S (next_vec w)) (next_vec w))
                    by lia ]).
  cbn [owned_vec v_array heap next_block vecs next_vec uninit
       writable files trace].
  f_equal. f_equal.
  destruct H_lb as (Ol & Sl & Ll & Bl), H_ub as (Ou & Su & Lu & Bu).
  apply block_len_Some in Ll as (LB & HLB & LLB).
  apply block_len_Some in Lu as (UB & HUB & LUB).
  destruct (nd_data (np_lb o)) as [blb offl] eqn:El.
  destruct (nd_data (np_ub o)) as [bub offu] eqn:Eu.
  simpl in *. subst offl offu.
  assert (Rl : nd_read w (np_lb o) = LB).
  { unfold nd_read, load_n. rewrite El. simpl. rewrite HLB, drop_0, Sl, <- LLB.
    apply firstn_all. }
  assert (Ru : nd_read w (np_ub o) = UB).
  { unfold nd_read, load_n. rewrite Eu. simpl. rewrite HUB, drop_0, Su, <- LUB.
    apply firstn_all. }
  rewrite Rl, Ru.
  rewrite (copy_bounds_blocks _ 0 (next_block w) (S (next_block w)) blb bub _
             (replicate (Z.to_nat (get_num_vars_local (prob o))) 0)
             (replicate (Z.to_nat (get_num_vars_local (prob o))) 0) LB UB).
  - assert (C : forall src, length src = Z.to_nat (get_num_vars_local (prob o)) ->
        copy_from (Z.to_nat (get_num_vars_local (prob o))) 0 src
          (replicate (Z.to_nat (get_num_vars_local (prob o))) 0) = src).
    { intros src Hs.
      pose proof (copy_from_all src
                    (replicate (Z.to_nat (get_num_vars_local (prob o))) 0)) as C.
      rewrite length_replicate in C. apply C. exact Hs. }
    rewrite !C by assumption.
    apply map_eq. intros b.
    destruct (decide (b = S (next_block w))) as [->|H1];
      [rewrite !lookup_insert_eq; reflexivity|].
    destruct (decide (b = next_block w)) as [->|H2].
    { rewrite !(lookup_insert_ne _ (S (next_block w))) by lia.
      rewrite !lookup_insert_eq. reflexivity. }
    repeat (rewrite lookup_insert_ne by congruence). reflexivity.
  - lia.
  - lia.
  - lia.
  - lia.
  - lia.
  - rewrite lookup_insert_ne by lia. apply lookup_insert_eq.
  - apply lookup_insert_eq.
  - rewrite !lookup_insert_ne by lia. exact HLB.
  - rewrite !lookup_insert_ne by lia. exact HUB.
Qed.

Lemma nd_read_length w a sz : array_ok w a sz -> length (nd_read w a) = sz.
Proof.
  intros H. rewrite (nd_read_rd _ _ _ H). destruct H as (_ & _ & H & _).
  apply block_len_Some in H as (blk0 & Hb & Hl).
  rewrite (rd_whole _ _ _ _ Hb Hl). exact Hl.
Qed.

Lemma nd_read_write_eq w a sz l :
  array_ok w a sz -> nd_read (nd_write a l w) a = filled (nd_read w a) l.
Proof.
  intros H. rewrite (nd_write_wr _ _ _ _ H).
  rewrite (nd_read_rd _ _ sz), (nd_read_rd _ _ _ H).
  - apply rd_wr_eq. apply H.
  - eapply array_ok_shape; [apply same_shape_wr | exact H].
Qed.

Lemma nd_read_write_ne w a sz a' sz' l :
  array_ok w a sz -> array_ok w a' sz' ->
  p_block (nd_data a) <> p_block (nd_data a') ->
  nd_read (nd_write a l w) a' = nd_read w a'.
Proof.
  intros H H' Hne. rewrite (nd_write_wr _ _ _ _ H).
  rewrite (nd_read_rd _ _ sz'), (nd_read_rd _ _ _ H').
  - apply rd_wr_ne. exact Hne.
  - eapply array_ok_shape; [apply same_shape_wr | exact H'].
Qed.

Lemma same_shape_nd_write w a sz l : array_ok w a sz -> same_shape w (nd_write a l w).
Proof. intros H. rewrite (nd_write_wr _ _ _ _ H). apply same_shape_wr. Qed.

Lemma nd_read_ext w w' a :
  heap w' !! p_block (nd_data a) = heap w !! p_block (nd_data a) ->
  nd_read w' a = nd_read w a.
Proof. intros H. unfold nd_read, load_n. rewrite H. reflexivity. Qed.

(** The six arrays after [getVarsAndBounds]. *)
Lemma prob_getVarsAndBounds_spec o w :
  opt_wf o w ->
  let ini := getVarsAndBounds (prob o) (nd_read w (np_x o))
               (nd_read w (np_lb o)) (nd_read w (np_ub o)) in
  exists w',
    prob_getVarsAndBounds o w = (Ok tt, w') /\
    same_shape w w' /\
    nd_read w' (np_x o) = filled (nd_read w (np_x o)) ini.1.1 /\
    nd_read w' (np_lb o) = filled (nd_read w (np_lb o)) ini.1.2 /\
    nd_read w' (np_ub o) = filled (nd_read w (np_ub o)) ini.2 /\
    nd_read w' (np_g o) = nd_read w (np_g o) /\
    nd_read w' (np_cons o) = nd_read w (np_cons o) /\
    nd_read w' (np_gcon o) = nd_read w (np_gcon o) /\
    trace w' = trace w ++ [EvGetVarsAndBounds] /\
    files w' = files w /\ uninit w' = uninit w /\ writable w' = writable w.
Proof.
  intros Hwf ini. unfold prob_getVarsAndBounds. fold ini.
  destruct ini as [[x' lb'] ub']. cbn [fst snd].
  eexists. split; [reflexivity|].
  set (w0 := emit EvGetVarsAndBounds w).
  assert (S0 : same_shape w w0) by apply same_shape_emit.
  pose proof (opt_wf_shape _ _ _ S0 Hwf) as Hwf0.
  set (w1 := nd_write (np_x o) x' w0).
  assert (S1 : same_shape w0 w1) by (eapply same_shape_nd_write, Hwf0).
  pose proof (opt_wf_shape _ _ _ S1 Hwf0) as Hwf1.
  set (w2 := nd_write (np_lb o) lb' w1).
  assert (S2 : same_shape w1 w2) by (eapply same_shape_nd_write, Hwf1).
  pose proof (opt_wf_shape _ _ _ S2 Hwf1) as Hwf2.
  assert (S3 : same_shape w2 (nd_write (np_ub o) ub' w2))
    by (eapply same_shape_nd_write, Hwf2).
  pose proof (wf_blocks _ _ Hwf) as ND. unfold array_blocks in ND. simpl in ND.
  apply NoDup_6_ne in ND.
  destruct ND as (?&?&?&?&?&?&?&?&?&?&?&?&?&?&?).
  split; [eauto using same_shape_trans|].
  destruct Hwf0, Hwf1, Hwf2. subst w2 w1 w0.
  repeat split.
  - erewrite nd_read_write_ne by eauto. erewrite nd_read_write_ne by eauto.
    erewrite nd_read_write_eq by eauto. reflexivity.
  - erewrite nd_read_write_ne by eauto. erewrite nd_read_write_eq by eauto.
    erewrite nd_read_write_ne by eauto. reflexivity.
  - erewrite nd_read_write_eq by eauto. erewrite nd_read_write_ne by eauto.
    erewrite nd_read_write_ne by eauto. reflexivity.
  - erewrite !nd_read_write_ne by eauto. reflexivity.
  - erewrite !nd_read_write_ne by eauto. reflexivity.
  - erewrite !nd_read_write_ne by eauto. reflexivity.
Qed.

Lemma not_elem_6_intro (x a b c d e f : nat) :
  x <> a /\ x <> b /\ x <> c /\ x <> d /\ x <> e /\ x <> f ->
  x ∉ [a; b; c; d; e; f].
Proof.
  intros (?&?&?&?&?&?) Hin.
  repeat (apply elem_of_cons in Hin as [Hin|Hin]; [congruence|]).
  apply elem_of_nil in Hin. exact Hin.
Qed.

Lemma vec_read_view w v a n :
  array_ok w a (Z.to_nat n) -> view_ok w v (nd_data a) n ->
  vec_read w v = nd_read w a.
Proof.
  intros Ha Hv. rewrite (nd_read_rd _ _ _ Ha). apply vec_read_rd.
  eapply view_array_ptr; eassumption.
Qed.

Lemma optimize_setup_spec M o w :
  opt_wf o w ->
  let lbt := next_vec w in
  let ubt := S (next_vec w) in
  let B := setup_on_bufs (prob o) (get_bufs o lbt ubt w) in
  let mma0 := MMA_new M (get_num_vars (prob o)) (get_num_cons (prob o))
                (b_x B) in
  exists w',
    optimize_setup M o w = (Ok (lbt, ubt, mma0), w') /\
    loop_inv o lbt ubt w' /\
    get_bufs o lbt ubt w' = B /\
    trace w' = trace w ++
      [EvGetMpiComm; EvGetNumVars; EvGetNumVarsLocal; EvGetNumCons;
       EvGetVarsAndBounds;
       EvMMANew (get_num_vars (prob o)) (get_num_cons (prob o)) (b_x B)] /\
    files w' = files w /\ uninit w' = uninit w /\ writable w' = writable w /\
    extends w w'.
Proof.
  intros Hwf lbt ubt B mma0. subst ubt.
  unfold optimize_setup, call. unfold_petsc. cbv beta iota.
  set (w0 := emit EvGetNumCons (emit EvGetNumVarsLocal
               (emit EvGetNumVars (emit EvGetMpiComm w)))).
  assert (S0 : same_shape w w0) by (repeat split).
  pose proof (opt_wf_shape _ _ _ S0 Hwf) as Hwf0.
  destruct (prob_getVarsAndBounds_spec o w0 Hwf0)
    as (wa & Ea & Sa & Rx & Rlb & Rub & Rg & Rc & Rgc & Ta & Fa & Ua & Wa).
  rewrite Ea. cbv beta iota.
  pose proof (opt_wf_shape _ _ _ Sa Hwf0) as Hwfa.
  rewrite (allocate_temp_bounds_eq o wa Hwfa). cbv beta iota zeta.
  pose proof (same_shape_trans _ _ _ S0 Sa) as (V1 & NB & NV & BL).
  rewrite NB, NV. fold lbt.
  set (nb := next_block w).
  pose (own b := owned_vec (get_mpi_comm (prob o)) (get_num_vars (prob o))
                  (get_num_vars_local (prob o)) (Ptr b 0)).
  change (owned_vec (get_mpi_comm (prob o)) (get_num_vars (prob o))
            (get_num_vars_local (prob o)) (Ptr (S nb) 0)) with (own (S nb)).
  change (owned_vec (get_mpi_comm (prob o)) (get_num_vars (prob o))
            (get_num_vars_local (prob o)) (Ptr nb 0)) with (own nb).
  set (wb := {| heap := <[S nb := nd_read wa (np_ub o)]>
                          (<[nb := nd_read wa (np_lb o)]> (heap wa));
                next_block := S (S nb); uninit := uninit wa;
                vecs := <[S lbt := own (S nb)]> (<[lbt := own nb]> (vecs wa));
                next_vec := S (S lbt); writable := writable wa;
                files := files wa; trace := trace wa |}).
  assert (Hkeep : forall b, (b < nb)%nat -> heap wb !! b = heap wa !! b).
  { intros b Hb. unfold wb. cbn [heap].
    rewrite !lookup_insert_ne by lia. reflexivity. }
  assert (Eab : extends wa wb).
  { unfold extends. rewrite NB, NV. fold nb lbt. cbn [next_block next_vec wb].
    split; [lia|]. split; [lia|]. split.
    - intros b Hb. unfold block_len. rewrite Hkeep by exact Hb. reflexivity.
    - intros v Hv. unfold wb. cbn [vecs].
      rewrite !lookup_insert_ne by lia. reflexivity. }
  pose proof (opt_wf_extends _ _ _ Eab Hwfa) as Hwfb.
  assert (Rarr : forall a sz, array_ok wa a sz -> nd_read wb a = nd_read wa a).
  { intros a sz (_ & _ & _ & Hlt). apply nd_read_ext, Hkeep.
    rewrite NB in Hlt. exact Hlt. }
  assert (Ex : vec_read wb (vec_x o) = b_x B).
  { rewrite (vec_read_view wb (vec_x o) (np_x o) (get_num_vars_local (prob o)))
      by apply Hwfb.
    rewrite (Rarr _ _ (wf_x _ _ Hwfa)). exact Rx. }
  unfold mma_new. rewrite Ex. fold mma0.
  eexists. split; [reflexivity|].
  assert (Sbe : same_shape wb (emit (EvMMANew (get_num_vars (prob o))
                  (get_num_cons (prob o)) (b_x B)) wb)) by apply same_shape_emit.
  assert (Ll : length (nd_read wa (np_lb o))
               = Z.to_nat (get_num_vars_local (prob o)))
    by (eapply nd_read_length, Hwfa).
  assert (Lu : length (nd_read wa (np_ub o))
               = Z.to_nat (get_num_vars_local (prob o)))
    by (eapply nd_read_length, Hwfa).
  assert (Hfresh : forall a sz, array_ok w a sz ->
            p_block (nd_data a) <> nb /\ p_block (nd_data a) <> S nb).
  { intros a sz (_ & _ & _ & Hlt). fold nb in Hlt. lia. }
  split.
  { constructor.
    - eapply opt_wf_shape; [exact Sbe | exact Hwfb].
    - exists nb, (S nb). cbn [vecs emit wb].
      split; [rewrite lookup_insert_ne by lia;
              apply lookup_insert_eq|].
      split; [apply lookup_insert_eq|].
      unfold block_len. cbn [heap emit wb].
      split; [rewrite lookup_insert_ne by lia; rewrite lookup_insert_eq;
              simpl; f_equal; exact Ll|].
      split; [rewrite lookup_insert_eq; simpl; f_equal; exact Lu|].
      split; [lia|].
      unfold array_blocks.
      destruct (Hfresh _ _ (wf_x _ _ Hwf)), (Hfresh _ _ (wf_lb _ _ Hwf)),
        (Hfresh _ _ (wf_ub _ _ Hwf)), (Hfresh _ _ (wf_g _ _ Hwf)),
        (Hfresh _ _ (wf_cons _ _ Hwf)), (Hfresh _ _ (wf_gcon _ _ Hwf)).
      split; cbn [map]; apply not_elem_6_intro; repeat split; congruence. }
  split.
  { unfold get_bufs, B, setup_on_bufs.
    cbn [b_x b_lb b_ub b_g b_cons b_gcon b_lbt b_ubt get_bufs].
    assert (Rd : forall a, nd_read (emit (EvMMANew (get_num_vars (prob o))
                   (get_num_cons (prob o)) (b_x B)) wb) a = nd_read wb a)
      by reflexivity.
    rewrite !Rd.
    rewrite (Rarr _ _ (wf_x _ _ Hwfa)), (Rarr _ _ (wf_lb _ _ Hwfa)),
      (Rarr _ _ (wf_ub _ _ Hwfa)), (Rarr _ _ (wf_g _ _ Hwfa)),
      (Rarr _ _ (wf_cons _ _ Hwfa)), (Rarr _ _ (wf_gcon _ _ Hwfa)).
    rewrite Rx, Rlb, Rub, Rg, Rc, Rgc.
    f_equal.
    - unfold vec_read. cbn [vecs emit wb].
      rewrite lookup_insert_ne by lia. rewrite lookup_insert_eq.
      cbn [own owned_vec v_array v_n]. unfold load_n. cbn [p_block p_off heap emit wb].
      rewrite lookup_insert_ne by lia. rewrite lookup_insert_eq.
      rewrite drop_0, <- Ll, firstn_all. exact Rlb.
    - unfold vec_read. cbn [vecs emit wb]. rewrite lookup_insert_eq.
      cbn [own owned_vec v_array v_n]. unfold load_n. cbn [p_block p_off heap emit wb].
      rewrite lookup_insert_eq.
      rewrite drop_0, <- Lu, firstn_all. exact Rub. }
  split.
  { cbn [trace emit wb]. rewrite Ta. unfold w0. cbn [trace emit].
    rewrite <- !app_assoc. reflexivity. }
  split; [cbn [files emit wb]; rewrite Fa; reflexivity|].
  split; [cbn [uninit emit wb]; rewrite Ua; reflexivity|].
  split; [cbn [writable emit wb]; rewrite Wa; reflexivity|].
  eapply extends_trans;
    [exact (same_shape_extends _ _ (same_shape_trans _ _ _ S0 Sa))|].
  eapply extends_trans; [exact Eab | apply same_shape_extends, same_shape_emit].
Qed.

Lemma optimize_loop_sim M o lbt ubt bl bu f n :
  comm_rank (get_mpi_comm (prob o)) = 0%Z -> fp o = Some f ->
  forall w iter mma,
  Layout o lbt ubt bl bu w ->
  let R := loop_on_bufs (prob o) M n (bufs_rd o bl bu w) iter mma in
  exists w',
    optimize_loop M o (get_mpi_comm (prob o)) (get_num_cons (prob o)) lbt ubt
      n iter mma w = (R.1.1.1, w') /\
    stepped o bl bu f w w' R.1.1.2 R.1.2 R.2.
Proof.
  intros Hr Hf. induction n as [|n IH]; intros w iter mma L; simpl.
  - eexists. split; [reflexivity|]. apply stepped_refl.
  - unfold_petsc.
    destruct (iteration_sim M o lbt ubt bl bu f w iter mma L Hr Hf)
      as (w1 & E1 & S1).
    rewrite E1.
    destruct (iteration_on_bufs (prob o) M (bufs_rd o bl bu w) iter mma)
      as [[[r B1] ev1] t1].
    cbn [fst snd] in *.
    destruct r as [mma1|e].
    + pose proof (stepped_Layout _ _ _ _ _ _ _ _ _ _ _ S1 L) as L1.
      destruct (IH w1 (iter + 1)%Z mma1 L1) as (w2 & E2 & S2).
      rewrite E2. pose proof S1 as (_ & EB1 & _). rewrite EB1 in S2 |- *.
      destruct (loop_on_bufs (prob o) M n B1 (iter + 1) mma1)
        as [[[r2 B2] ev2] t2].
      cbn [fst snd] in *. eexists. split; [reflexivity|].
      eapply stepped_trans; eassumption.
    + eexists. split; [reflexivity|]. exact S1.
Qed.

Lemma release_spec o lbt ubt w :
  loop_inv o lbt ubt w ->
  exists w',
    (VecDestroy lbt;; VecDestroy ubt;; mret tt) w = (Ok tt, w') /\
    opt_wf o w' /\
    (forall a, p_block (nd_data a) ∈ array_blocks o ->
       nd_read w' a = nd_read w a) /\
    trace w' = trace w /\ files w' = files w /\
    uninit w' = uninit w /\ writable w' = writable w /\
    vecs w' !! lbt = None /\ vecs w' !! ubt = None.
Proof.
  intros [Hwf (bl & bu & Hl & Hu & Ll & Lu & Hne & Hnl & Hnu)].
  assert (Hlu : lbt <> ubt).
  { intros ->. rewrite Hl in Hu. injection Hu as Hu. congruence. }
  unfold_petsc. unfold VecDestroy. rewrite Hl.
  cbn [own_array owned_vec v_unplaced v_array p_block].
  unfold with_vecs, with_heap.
  cbn [heap next_block vecs next_vec uninit writable files trace].
  rewrite lookup_delete_ne by exact Hlu. rewrite Hu.
  cbn [own_array owned_vec v_unplaced v_array p_block].
  cbn [heap next_block vecs next_vec uninit writable files trace].
  eexists. split; [reflexivity|].
  unfold array_blocks in Hnl, Hnu. cbn [map] in Hnl, Hnu.
  apply not_elem_6 in Hnl as (?&?&?&?&?&?), Hnu as (?&?&?&?&?&?).
  assert (A : forall a sz, p_block (nd_data a) <> bl -> p_block (nd_data a) <> bu ->
            array_ok w a sz ->
            array_ok {| heap := delete bu (delete bl (heap w));
                        next_block := next_block w; uninit := uninit w;
                        vecs := delete ubt (delete lbt (vecs w));
                        next_vec := next_vec w; writable := writable w;
                        files := files w; trace := trace w |} a sz).
  { intros a sz N1 N2 (A1 & A2 & A3 & A4). repeat split; try assumption.
    unfold block_len in *. cbn [heap].
    rewrite !lookup_delete_ne by congruence. exact A3. }
  assert (V : forall v p n, p_block p <> bl -> p_block p <> bu ->
            view_ok w v p n ->
            view_ok {| heap := delete bu (delete bl (heap w));
                       next_block := next_block w; uninit := uninit w;
                       vecs := delete ubt (delete lbt (vecs w));
                       next_vec := next_vec w; writable := writable w;
                       files := files w; trace := trace w |} v p n).
  { intros v p n N1 N2 (V1 & vo & V2 & V3 & V4). split; [exact V1|].
    exists vo. cbn [vecs]. split; [|split; assumption].
    assert (v <> lbt).
    { intros ->. rewrite Hl in V2. injection V2 as <-. simpl in V3.
      injection V3 as <-. simpl in N1. congruence. }
    assert (v <> ubt).
    { intros ->. rewrite Hu in V2. injection V2 as <-. simpl in V3.
      injection V3 as <-. simpl in N2. congruence. }
    rewrite !lookup_delete_ne by congruence. exact V2. }
  split.
  { destruct Hwf as
    [H_nl H_nv H_sum H_nc H_x H_lb H_ub H_g H_cons H_gcon H_blocks H_vx H_vg H_vlb H_vub H_rl H_rows]. constructor; try assumption; try (apply A; congruence);
      try (apply V; congruence).
    intros i v Hv. apply V; [simpl; congruence | simpl; congruence |].
    apply H_rows. exact Hv. }
  split.
  { intros a Ha. apply nd_read_ext. cbn [heap].
    unfold array_blocks in Ha. cbn [map] in Ha.
    assert (p_block (nd_data a) <> bl /\ p_block (nd_data a) <> bu) as [N1 N2].
    { repeat (apply elem_of_cons in Ha as [Ha|Ha]; [split; congruence|]).
      apply elem_of_nil in Ha. destruct Ha. }
    rewrite !lookup_delete_ne by congruence. reflexivity. }
  repeat split; cbn [vecs].
  - rewrite lookup_delete_ne by congruence. apply lookup_delete_eq.
  - apply lookup_delete_eq.
Qed.

Lemma arrays_are_get_bufs o lbt ubt w : arrays_are o w (get_bufs o lbt ubt w).
Proof. repeat split. Qed.

Lemma optimize_spec M o niter w f :
  opt_wf o w ->
  comm_rank (get_mpi_comm (prob o)) = 0%Z -> fp o = Some f ->
  let lbt := next_vec w in
  let ubt := S (next_vec w) in
  let R := optimize_on_bufs (prob o) M niter (get_bufs o lbt ubt w) in
  exists w',
    optimize M o niter w = (R.1.1.1, w') /\
    opt_wf o w' /\ arrays_are o w' R.1.1.2 /\
    trace w' = trace w ++ R.1.2 /\
    file_text w' f = (file_text w f +:+ R.2)%string /\
    (forall f', f' <> f -> files w' !! f' = files w !! f') /\
    (R.1.1.1 = Ok tt -> vecs w' !! lbt = None /\ vecs w' !! ubt = None) /\
    (forall e, R.1.1.1 = Err e ->
       is_Some (vecs w' !! lbt) /\ is_Some (vecs w' !! ubt)).
Proof.
  intros Hwf Hr Hf lbt ubt R. subst lbt ubt R.
  destruct (optimize_setup_spec M o w Hwf)
    as (w1 & E1 & LI & EB & T1 & F1 & U1 & W1 & X1).
  unfold optimize. unfold_petsc. rewrite E1. cbv beta iota.
  unfold mma_scope, optimize_run. unfold_petsc.
  destruct (loop_inv_layout _ _ _ _ LI) as (bl & bu & L).
  pose proof (ly_bufs _ _ _ _ _ _ (Layout_here _ _ _ _ _ _ L)) as EB1.
  destruct (optimize_loop_sim M o (next_vec w) (S (next_vec w)) bl bu f (Z.to_nat niter) Hr Hf w1 0%Z
              (MMA_new M (get_num_vars (prob o)) (get_num_cons (prob o))
                 (b_x (setup_on_bufs (prob o) (get_bufs o (next_vec w) (S (next_vec w)) w)))) L)
    as (w2 & E2 & S2).
  rewrite E2. rewrite <- EB1, EB in S2 |- *.
  unfold optimize_on_bufs.
  destruct (loop_on_bufs (prob o) M (Z.to_nat niter)
              (setup_on_bufs (prob o) (get_bufs o (next_vec w) (S (next_vec w)) w)) 0
              (MMA_new M (get_num_vars (prob o)) (get_num_cons (prob o))
                 (b_x (setup_on_bufs (prob o) (get_bufs o (next_vec w) (S (next_vec w)) w)))))
    as [[[r B2] ev2] t2].
  cbn [fst snd] in *.
  destruct S2 as (SS & EB2 & T2 & F2 & F2' & U2 & W2).
  pose proof (loop_inv_shape _ _ _ _ _ SS LI) as LI2.
  pose proof (ly_bufs _ _ _ _ _ _ (L w2 SS)) as EB2'.
  rewrite <- EB2' in EB2.
  assert (TT : forall w3, trace w3 = trace w2 ->
            trace (emit EvMMADelete w3)
            = trace w ++ setup_events (prob o)
                (b_x (setup_on_bufs (prob o) (get_bufs o (next_vec w) (S (next_vec w)) w)))
              ++ ev2 ++ [EvMMADelete]).
  { intros w3 E3. cbn [trace emit]. rewrite E3, T2, T1.
    unfold setup_events. rewrite <- !app_assoc. reflexivity. }
  assert (FT : file_text w2 f = (file_text w f +:+ t2)%string).
  { rewrite F2. unfold file_text. rewrite F1. reflexivity. }
  destruct r as [[]|e].
  - destruct (release_spec o (next_vec w) (S (next_vec w)) w2 LI2)
      as (w3 & E3 & Hwf3 & A3 & T3 & F3 & U3 & W3 & D1 & D2).
    unfold mbind, petsc_bind, mret, petsc_ret in E3.
    cbv beta iota in E3 |- *. rewrite E3.
    eexists. split; [reflexivity|].
    split; [eapply opt_wf_shape; [apply same_shape_emit | exact Hwf3]|].
    split.
    { pose proof (arrays_are_get_bufs o (next_vec w) (S (next_vec w)) w2) as AA. rewrite EB2 in AA.
      destruct AA as (A1 & A2 & A4 & A5 & A6 & A7).
      unfold array_blocks in A3.
      repeat split; (etransitivity; [apply (A3 _); cbn [map]; set_solver |]);
        assumption. }
    split; [apply TT; exact T3|].
    split.
    { unfold file_text in *. cbn [files emit]. rewrite F3. exact FT. }
    split.
    { intros f' Hf'. cbn [files emit]. rewrite F3, F2' by exact Hf'.
      rewrite F1. reflexivity. }
    split; [intros _; split; assumption|].
    intros e He. discriminate He.
  - eexists. split; [reflexivity|].
    split; [eapply opt_wf_shape; [apply same_shape_emit | apply LI2]|].
    split.
    { pose proof (arrays_are_get_bufs o (next_vec w) (S (next_vec w)) w2) as AA. rewrite EB2 in AA.
      exact AA. }
    split; [apply TT; reflexivity|].
    split; [exact FT|].
    split.
    { intros f' Hf'. cbn [files emit]. rewrite F2' by exact Hf'.
      rewrite F1. reflexivity. }
    split; [intros He; discriminate He|].
    intros e' _. destruct LI2 as [_ (bl' & bu' & Hl & Hu & _)].
    cbn [vecs emit]. rewrite Hl, Hu. split; eexists; reflexivity.
Qed.

(** *** What the constructor builds *)

Lemma extends_refl w : extends w w.
Proof. repeat split; auto. Qed.

Lemma array_ok_extends w w' a sz :
  extends w w' -> array_ok w a sz -> array_ok w' a sz.
Proof.
  intros (E1 & E2 & E3 & E4) (H1 & H2 & H3 & H4).
  repeat split; try assumption; [|lia].
  rewrite E3 by exact H4. exact H3.
Qed.

Lemma view_ok_extends w w' v p n :
  extends w w' -> view_ok w v p n -> view_ok w' v p n.
Proof.
  intros (E1 & E2 & E3 & E4) (H1 & vo & H2). split; [lia|].
  exists vo. rewrite E4 by exact H1. exact H2.
Qed.

Lemma bind_petsc_vec_to_array_eq comm gsize lsize data w :
  (0 <= lsize <= gsize)%Z ->
  sum_local comm lsize = gsize ->
  bind_petsc_vec_to_array comm gsize lsize data w
  = (Ok (next_vec w),
     {| heap := <[next_block w := replicate (Z.to_nat lsize) 0]> (heap w);
        next_block := S (next_block w); uninit := uninit w;
        vecs := <[next_vec w :=
                    bound_vec comm gsize lsize data (Ptr (next_block w) 0)]>
                  (vecs w);
        next_vec := S (next_vec w); writable := writable w;
        files := files w; trace := trace w |}).
Proof.
  intros H Hs. unfold bind_petsc_vec_to_array. unfold_petsc.
  unfold VecCreate, new_vec. simpl.
  unfold VecSetSizes. simpl. rewrite lookup_insert_eq. simpl.
  replace ((0 <=? gsize) && (gsize <? lsize))%Z with false
    by (symmetry; apply andb_false_iff; right; apply Z.ltb_ge; lia).
  simpl. unfold VecSetType, with_vecs. simpl. rewrite lookup_insert_eq. simpl.
  replace (lsize <? 0)%Z with false by (symmetry; apply Z.ltb_ge; lia).
  replace (sum_local comm lsize =? gsize)%Z with true
    by (symmetry; apply Z.eqb_eq; exact Hs).
  rewrite andb_false_r.
  simpl. unfold VecPlaceArray, with_vecs. simpl. rewrite lookup_insert_eq.
  simpl. rewrite !insert_insert_eq. reflexivity.
Qed.

Lemma ndarray_new_spec n w :
  exists a w',
    ndarray_new n w = (a, w') /\ array_ok w' a (Z.to_nat n) /\
    p_block (nd_data a) = next_block w /\
    next_block w' = S (next_block w) /\
    extends w w' /\ files w' = files w.
Proof.
  eexists _, _. split; [reflexivity|].
  split; [|split; [reflexivity|split; [reflexivity|split; [|reflexivity]]]].
  - repeat split; cbn.
    + unfold block_len. cbn. rewrite lookup_insert_eq. cbn.
      rewrite length_map, length_seq. reflexivity.
    + lia.
  - repeat split; cbn; try lia.
    intros b Hb. unfold block_len. cbn.
    rewrite lookup_insert_ne by lia. reflexivity.
Qed.

Lemma bind_petsc_vec_to_array_spec comm gsize lsize data w :
  (0 <= lsize <= gsize)%Z ->
  sum_local comm lsize = gsize ->
  exists w',
    bind_petsc_vec_to_array comm gsize lsize data w = (Ok (next_vec w), w') /\
    view_ok w' (next_vec w) data lsize /\
    extends w w' /\ files w' = files w.
Proof.
  intros H Hs. rewrite (bind_petsc_vec_to_array_eq _ _ _ _ _ H Hs).
  eexists. split; [reflexivity|]. split; [|split; [|reflexivity]].
  - split; cbn; [lia|]. eexists. rewrite lookup_insert_eq.
    split; [reflexivity|]. split; reflexivity.
  - repeat split; cbn; try lia.
    + intros b Hb. unfold block_len. cbn.
      rewrite lookup_insert_ne by lia. reflexivity.
    + intros v Hv. rewrite lookup_insert_ne by lia. reflexivity.
Qed.

Lemma bind_gcon_rows_spec comm nvars nvars_l gcon_data n :
  (0 <= nvars_l <= nvars)%Z ->
  sum_local comm nvars_l = nvars ->
  forall offset w,
  exists vs w',
    bind_gcon_rows comm nvars nvars_l gcon_data n offset w = (Ok vs, w') /\
    length vs = n /\ extends w w' /\ files w' = files w /\
    forall i v, vs !! i = Some v ->
      view_ok w' v
        (Ptr (p_block gcon_data)
           (p_off gcon_data + (offset + i * Z.to_nat nvars_l)))
        nvars_l.
Proof.
  intros H Hs. induction n as [|n IH]; intros offset w.
  - exists [], w. split; [reflexivity|]. split; [reflexivity|].
    split; [apply extends_refl|]. split; [reflexivity|].
    intros i v Hv. discriminate Hv.
  - cbn [bind_gcon_rows]. unfold_petsc.
    match goal with |- context [bind_petsc_vec_to_array ?c ?g ?l ?d ?w0] =>
      destruct (bind_petsc_vec_to_array_spec c g l d w0 H Hs)
        as (w1 & -> & V1 & X1 & F1) end.
    destruct (IH (offset + Z.to_nat nvars_l)%nat w1)
      as (vs & w' & -> & Hl & X2 & F2 & Hrows).
    eexists _, _. split; [reflexivity|].
    split; [simpl; f_equal; exact Hl|].
    split; [eapply extends_trans; eassumption|].
    split; [rewrite F2; exact F1|].
    intros [|i] v Hv.
    + injection Hv as <-. apply (view_ok_extends _ _ _ _ _ X2).
      replace (offset + 0 * Z.to_nat nvars_l)%nat with offset by lia.
      exact V1.
    + replace (offset + S i * Z.to_nat nvars_l)%nat
        with (offset + Z.to_nat nvars_l + i * Z.to_nat nvars_l)%nat by lia.
      apply Hrows. exact Hv.
Qed.

Lemma int_wrap_fits (z : Z) :
  int_wrap z = z <-> (- 2 ^ 31 <= z <= INT_MAX)%Z.
Proof.
  unfold int_wrap, INT_MAX. split.
  - intros E.
    pose proof (Z.mod_pos_bound (z + 2 ^ 31) (2 ^ 32) eq_refl) as B. lia.
  - intros H. rewrite Z.mod_small by lia. lia.
Qed.

Lemma int_mul_fits (a b : Z) :
  (0 <= a)%Z -> (0 <= b)%Z -> (a * b <= INT_MAX)%Z ->
  int_mul a b = (a * b)%Z.
Proof.
  intros Ha Hb H. apply int_wrap_fits. split; [|exact H].
  pose proof (Z.mul_nonneg_nonneg _ _ Ha Hb). lia.
Qed.

(** For sizes that make sense (local sizes that add up to the global
    size, a Jacobian whose number of elements fits an [int]) the
    constructor completes, in any store, and leaves the object in the
    state [opt_wf]; its stream is what [fopen] gave. *)
Lemma Optimizer_new_spec P name w :
  (0 <= get_num_vars_local P <= get_num_vars P)%Z ->
  (0 <= get_num_cons P)%Z ->
  sum_local (get_mpi_comm P) (get_num_vars_local P) = get_num_vars P ->
  (get_num_cons P * get_num_vars_local P <= INT_MAX)%Z ->
  exists o w',
    Optimizer_new P name w = (Constructed o, w') /\
    opt_wf o w' /\ prob o = P /\ log_name o = name /\
    fp o = (fopen name w).1 /\ files w' = files (fopen name w).2.
Proof.
  intros Hn Hm Hs Hfit. unfold Optimizer_new.
  destruct (fopen name w) as [fp0 w0]. cbv zeta.
  rewrite (int_mul_fits _ _ Hm (proj1 Hn) Hfit), Z.eqb_refl.
  replace ((get_num_vars_local P <? 0)%Z || (get_num_cons P <? 0)%Z)
    with false
    by (symmetry; apply orb_false_iff; split; apply Z.ltb_ge; lia).
  cbn [negb orb].
  set (n := get_num_vars_local P) in *.
  set (m := get_num_cons P) in *.
  set (wa := emit EvGetNumCons _).
  destruct (ndarray_new_spec n wa) as (ax & w1 & -> & Ax & Bx & N1 & X1 & F1).
  destruct (ndarray_new_spec n w1) as (alb & w2 & -> & Alb & Blb & N2 & X2 & F2).
  destruct (ndarray_new_spec n w2) as (aub & w3 & -> & Aub & Bub & N3 & X3 & F3).
  destruct (ndarray_new_spec n w3) as (ag & w4 & -> & Ag & Bg & N4 & X4 & F4).
  destruct (ndarray_new_spec m w4) as (ac & w5 & -> & Ac & Bc & N5 & X5 & F5).
  destruct (ndarray_new_spec (m * n) w5)
    as (agc & w6 & -> & Agc & Bgc & N6 & X6 & F6).
  unfold_petsc.
  destruct (bind_petsc_vec_to_array_spec (get_mpi_comm P)
              (get_num_vars P) n (nd_data ax) w6 Hn Hs)
    as (w7 & -> & Vx & X7 & F7).
  destruct (bind_petsc_vec_to_array_spec (get_mpi_comm P)
              (get_num_vars P) n (nd_data ag) w7 Hn Hs)
    as (w8 & -> & Vg & X8 & F8).
  destruct (bind_petsc_vec_to_array_spec (get_mpi_comm P)
              (get_num_vars P) n (nd_data alb) w8 Hn Hs)
    as (w9 & -> & Vlb & X9 & F9).
  destruct (bind_petsc_vec_to_array_spec (get_mpi_comm P)
              (get_num_vars P) n (nd_data aub) w9 Hn Hs)
    as (w10 & -> & Vub & X10 & F10).
  destruct (bind_gcon_rows_spec (get_mpi_comm P) (get_num_vars P) n
              (nd_data agc) (Z.to_nat m) Hn Hs 0%nat w10)
    as (vs & w11 & -> & Lvs & X11 & F11 & Vrows).
  eexists _, _. split; [reflexivity|].
  split; [|split; [reflexivity|split; [reflexivity|split; [reflexivity|]]]].
  2:{ rewrite F11, F10, F9, F8, F7, F6, F5, F4, F3, F2, F1. reflexivity. }
  pose proof (extends_trans _ _ _ X10 X11) as Y10.
  pose proof (extends_trans _ _ _ X9 Y10) as Y9.
  pose proof (extends_trans _ _ _ X8 Y9) as Y8.
  pose proof (extends_trans _ _ _ X7 Y8) as Y7.
  pose proof (extends_trans _ _ _ X6 Y7) as Y6.
  pose proof (extends_trans _ _ _ X5 Y6) as Y5.
  pose proof (extends_trans _ _ _ X4 Y5) as Y4.
  pose proof (extends_trans _ _ _ X3 Y4) as Y3.
  pose proof (extends_trans _ _ _ X2 Y3) as Y2.
  constructor; cbn [prob np_x np_lb np_ub np_g np_cons np_gcon
                      vec_x vec_g vec_lb vec_ub vec_gcon]; fold n; fold m.
  - lia.
  - lia.
  - exact Hs.
  - lia.
  - exact (array_ok_extends _ _ _ _ Y2 Ax).
  - exact (array_ok_extends _ _ _ _ Y3 Alb).
  - exact (array_ok_extends _ _ _ _ Y4 Aub).
  - exact (array_ok_extends _ _ _ _ Y5 Ag).
  - exact (array_ok_extends _ _ _ _ Y6 Ac).
  - rewrite <- Z2Nat.inj_mul by lia. exact (array_ok_extends _ _ _ _ Y7 Agc).
  - unfold array_blocks.
    cbn [map np_x np_lb np_ub np_g np_cons np_gcon].
    rewrite Bx, Blb, Bub, Bg, Bc, Bgc, N5, N4, N3, N2, N1.
    repeat (apply NoDup_cons; split;
            [intros E; repeat (apply elem_of_cons in E as [E|E]; [lia|]);
             apply elem_of_nil in E; exact E|]).
    apply NoDup_nil_2.
  - exact (view_ok_extends _ _ _ _ _ Y8 Vx).
  - exact (view_ok_extends _ _ _ _ _ Y9 Vg).
  - exact (view_ok_extends _ _ _ _ _ Y10 Vlb).
  - exact (view_ok_extends _ _ _ _ _ X11 Vub).
  - exact Lvs.
  - intros i v Hv. specialize (Vrows i v Hv).
    destruct Agc as (Off & _). rewrite Off in Vrows. exact Vrows.
Qed.

(** *** The small problem *)

Lemma toy_constructed :
  Optimizer_new toy_problem "mma4py.log" world0 = (Constructed toy_o, toy_w).
Proof. vm_compute. reflexivity. Qed.

Lemma toy_wf : opt_wf toy_o toy_w.
Proof.
  assert (A : forall a sz,
            p_off (nd_data a) = 0%nat -> nd_size a = sz ->
            block_len toy_w (p_block (nd_data a)) = Some sz ->
            (p_block (nd_data a) <? next_block toy_w)%nat = true ->
            array_ok toy_w a sz).
  { intros a sz H1 H2 H3 H4. repeat split; try assumption.
    apply Nat.ltb_lt. exact H4. }
  assert (V : forall v p n vo,
            (v <? next_vec toy_w)%nat = true -> vecs toy_w !! v = Some vo ->
            v_array vo = Some p -> v_n vo = n -> view_ok toy_w v p n).
  { intros v p n vo H1 H2 H3 H4. split; [apply Nat.ltb_lt; exact H1|].
    exists vo. auto. }
  constructor; try (apply A; vm_compute; reflexivity);
    try (eapply V; vm_compute; reflexivity).
  - apply Z.leb_le. reflexivity.
  - apply Z.leb_le. reflexivity.
  - reflexivity.
  - apply Z.leb_le. reflexivity.
  - apply (bool_decide_unpack _). vm_compute. exact I.
  - reflexivity.
  - intros [|i] v Hv; [|destruct i; discriminate Hv].
    injection Hv as <-. eapply V; vm_compute; reflexivity.
Qed.

Lemma toy_next_vec : next_vec toy_w = 5%nat.
Proof. vm_compute. reflexivity. Qed.

Lemma toy_loop_inv : loop_inv toy_o 5 6 toy_loop_w.
Proof.
  destruct (optimize_setup_spec toy_M toy_o toy_w toy_wf) as (w' & E & LI & _).
  unfold toy_loop_w. rewrite E.
  rewrite toy_next_vec in LI. exact LI.
Qed.

Lemma toy_iteration :
  iteration toy_M toy_o (get_mpi_comm (prob toy_o))
    (get_num_cons (prob toy_o)) 5 6 0 O toy_loop_w
  = (Ok 1%nat, toy_loop_w1).
Proof. vm_compute. reflexivity. Qed.

Lemma toy_first_call : optimize toy_M toy_o 1 toy_w = (Ok tt, toy_w1).
Proof. vm_compute. reflexivity. Qed.

Lemma toy_second_call : optimize toy_M toy_o 1 toy_w1 = (Ok tt, toy_w2).
Proof. vm_compute. reflexivity. Qed.

Lemma toy_three_passes : optimize toy_M toy_o 3 toy_w = (Ok tt, toy_w3).
Proof. vm_compute. reflexivity. Qed.

Lemma toy_failed_call :
  optimize toy_M_movelimit_fails toy_o 1 toy_w = (Err 1%Z, toy_w_failed).
Proof. vm_compute. reflexivity. Qed.

(** *** A call with no iteration *)

(** C3, as amended. [optimize(0)] returns 0 after exactly these calls:
    the four getters, [getVarsAndBounds] once, the construction of the
    solver on the design just written, and its destruction. Neither
    [evalObjCon] nor [evalObjConGrad] nor a step of the solver is called.
    The design buffer holds what [getVarsAndBounds] wrote into it, and
    nothing is logged. *)
Theorem optimize_zero_iterations M o w :
  opt_wf o w ->
  let x0 := nd_read w (np_x o) in
  let ini := getVarsAndBounds (prob o) x0 (nd_read w (np_lb o))
               (nd_read w (np_ub o)) in
  let x1 := filled x0 ini.1.1 in
  exists w',
    optimize M o 0 w = (Ok tt, w') /\
    trace w' = trace w ++
      [EvGetMpiComm; EvGetNumVars; EvGetNumVarsLocal; EvGetNumCons;
       EvGetVarsAndBounds;
       EvMMANew (get_num_vars (prob o)) (get_num_cons (prob o)) x1;
       EvMMADelete] /\
    nd_read w' (np_x o) = x1 /\
    files w' = files w.
Proof.
  intros Hwf x0 ini x1.
  destruct (optimize_setup_spec M o w Hwf)
    as (w1 & E1 & LI & EB & T1 & F1 & U1 & W1 & X1).
  unfold optimize. unfold_petsc. rewrite E1. cbv beta iota.
  unfold mma_scope, optimize_run. cbn [Z.to_nat optimize_loop].
  destruct (release_spec o (next_vec w) (S (next_vec w)) w1 LI)
    as (w3 & E3 & Hwf3 & A3 & T3 & F3 & U3 & W3 & D1 & D2).
  unfold_petsc. unfold mbind, petsc_bind, mret, petsc_ret in E3.
  change (Z.to_nat 0) with O. cbn [optimize_loop]. unfold_petsc.
  cbv beta iota in E3 |- *. rewrite E3.
  eexists. split; [reflexivity|].
  assert (Ex : b_x (setup_on_bufs (prob o)
                      (get_bufs o (next_vec w) (S (next_vec w)) w)) = x1)
    by reflexivity.
  split.
  { cbn [trace emit]. rewrite T3, T1, Ex, <- app_assoc. reflexivity. }
  split.
  { change (nd_read w3 (np_x o) = x1). rewrite A3.
    - rewrite <- Ex, <- EB. reflexivity.
    - unfold array_blocks. cbn [map]. apply elem_of_cons. left. reflexivity. }
  cbn [files emit]. rewrite F3. exact F1.
Qed.

Lemma optimize_zero_iterations_witness :
  exists w',
    optimize toy_M toy_o 0 toy_w = (Ok tt, w') /\
    nd_read w' (np_x toy_o) = [1; 1].
Proof.
  destruct (optimize_zero_iterations toy_M toy_o toy_w toy_wf)
    as (w' & E & _ & X & _).
  exists w'. split; [exact E | exact X].
Defined.

(** C3 as stated fails: the call with no iteration asks the evaluator
    for the initial design (line 105), builds the solver (line 128), and
    leaves [1; 1] in the design buffer that held [7; 7]. *)
Lemma optimize_zero_calls_evaluator :
  exists w',
    optimize toy_M toy_o 0 toy_w = (Ok tt, w') /\
    trace w' = trace toy_w ++
      [EvGetMpiComm; EvGetNumVars; EvGetNumVarsLocal; EvGetNumCons;
       EvGetVarsAndBounds; EvMMANew 2 1 [1; 1]; EvMMADelete] /\
    nd_read toy_w (np_x toy_o) = [7; 7] /\
    nd_read w' (np_x toy_o) = [1; 1].
Proof.
  eexists. split; [vm_compute; reflexivity|].
  repeat split.
Qed.

(** *** Two calls in a row *)

(** The calls of one pass start with the evaluation at the iterate. *)
Lemma iteration_on_bufs_head P M B iter mma :
  exists rest,
    (iteration_on_bufs P M B iter mma).1.2 = EvEvalObjCon (b_x B) :: rest.
Proof.
  unfold iteration_on_bufs.
  destruct (evalObjCon P (b_x B) (b_cons B)) as [obj cons0].
  destruct (evalObjConGrad P (b_x B) (b_g B) (b_gcon B)) as [g0 gcon0].
  destruct (SetOuterMovelimit M mma (b_lb B) (b_ub B) movelim (b_x B)
              (b_lbt B) (b_ubt B)) as [[[ierr mma1] lo0] hi0].
  destruct (ierr =? 0)%Z; [|eexists; reflexivity].
  match goal with |- context [Update M ?a ?b ?c ?d ?e ?f0 ?g] =>
    destruct (Update M a b c d e f0 g) as [[e_upd mma2] x0] end.
  match goal with |- context [KKTresidual M ?a ?b ?c ?d ?e ?f0 ?g] =>
    destruct (KKTresidual M a b c d e f0 g)
      as [[[e_kkt mma3] kkterr_l2] kkterr_linf] end.
  eexists. reflexivity.
Qed.

Lemma loop_on_bufs_head P M n B iter mma :
  exists rest,
    (loop_on_bufs P M (S n) B iter mma).1.2 = EvEvalObjCon (b_x B) :: rest.
Proof.
  cbn [loop_on_bufs].
  destruct (iteration_on_bufs_head P M B iter mma) as (rest & E).
  destruct (iteration_on_bufs P M B iter mma) as [[[r B1] ev1] t1].
  cbn [fst snd] in E. subst ev1.
  destruct r as [mma1|e]; [|eexists; reflexivity].
  destruct (loop_on_bufs P M n B1 (iter + 1) mma1) as [[[r2 B2] ev2] t2].
  eexists. reflexivity.
Qed.

(** C7, as amended. In [optimize(N)] followed by [optimize(M)] with
    [M > 0], the second call first overwrites the design buffer with the
    initial design of [getVarsAndBounds] (line 105), then builds a new
    solver on it (line 128), and its first evaluation is at that initial
    design: what the first call left in the buffer is seen only by
    [getVarsAndBounds]. *)
Theorem second_call_starts_from_initial_design M o w f n1 n2 r1 w1 r2 w2 :
  opt_wf o w ->
  comm_rank (get_mpi_comm (prob o)) = 0%Z -> fp o = Some f ->
  optimize M o n1 w = (r1, w1) ->
  optimize M o n2 w1 = (r2, w2) ->
  (0 < n2)%Z ->
  let left := nd_read w1 (np_x o) in
  let ini := getVarsAndBounds (prob o) left (nd_read w1 (np_lb o))
               (nd_read w1 (np_ub o)) in
  let x1 := filled left ini.1.1 in
  opt_wf o w1 /\
  exists rest,
    trace w2 = trace w1 ++
      [EvGetMpiComm; EvGetNumVars; EvGetNumVarsLocal; EvGetNumCons;
       EvGetVarsAndBounds;
       EvMMANew (get_num_vars (prob o)) (get_num_cons (prob o)) x1;
       EvEvalObjCon x1] ++ rest.
Proof.
  intros Hwf Hr Hf E1 E2 Hn left ini x1.
  destruct (optimize_spec M o n1 w f Hwf Hr Hf) as (w1' & E1' & Hwf1 & _).
  rewrite E1 in E1'. injection E1' as _ <-.
  split; [exact Hwf1|].
  destruct (optimize_spec M o n2 w1 f Hwf1 Hr Hf) as (w2' & E2' & _ & _ & T & _).
  rewrite E2 in E2'. injection E2' as _ <-.
  rewrite T. unfold optimize_on_bufs.
  destruct (Z.to_nat n2) as [|k] eqn:Ek; [lia|].
  set (B := setup_on_bufs (prob o)
              (get_bufs o (next_vec w1) (S (next_vec w1)) w1)).
  destruct (loop_on_bufs_head (prob o) M k B 0%Z
              (MMA_new M (get_num_vars (prob o)) (get_num_cons (prob o))
                 (b_x B))) as (rest & Eh).
  destruct (loop_on_bufs (prob o) M (S k) B 0
              (MMA_new M (get_num_vars (prob o)) (get_num_cons (prob o))
                 (b_x B))) as [[[r B'] ev] txt].
  cbn [fst snd] in *. subst ev.
  exists (rest ++ [EvMMADelete]). reflexivity.
Qed.

Lemma second_call_witness :
  opt_wf toy_o toy_w1 /\
  exists rest,
    trace toy_w2 = trace toy_w1 ++
      [EvGetMpiComm; EvGetNumVars; EvGetNumVarsLocal; EvGetNumCons;
       EvGetVarsAndBounds;
       EvMMANew (get_num_vars (prob toy_o)) (get_num_cons (prob toy_o))
         (filled (nd_read toy_w1 (np_x toy_o))
            (getVarsAndBounds (prob toy_o) (nd_read toy_w1 (np_x toy_o))
               (nd_read toy_w1 (np_lb toy_o))
               (nd_read toy_w1 (np_ub toy_o))).1.1);
       EvEvalObjCon
         (filled (nd_read toy_w1 (np_x toy_o))
            (getVarsAndBounds (prob toy_o) (nd_read toy_w1 (np_x toy_o))
               (nd_read toy_w1 (np_lb toy_o))
               (nd_read toy_w1 (np_ub toy_o))).1.1)] ++ rest.
Proof.
  apply (second_call_starts_from_initial_design toy_M toy_o toy_w
           "mma4py.log" 1 1 (Ok tt) toy_w1 (Ok tt) toy_w2
           toy_wf eq_refl eq_refl toy_first_call toy_second_call).
  lia.
Defined.

(** C7 as stated fails: the first [optimize(1)] leaves the design at
    [3/5; 3/5]; the second [optimize(1)] evaluates at [1; 1], the initial
    design, and ends at [3/5; 3/5] again, where [optimize(2)] ends at
    [1/5; 1/5]. *)
Lemma second_call_does_not_continue :
  optimize toy_M toy_o 1 toy_w = (Ok tt, toy_w1) /\
  optimize toy_M toy_o 1 toy_w1 = (Ok tt, toy_w2) /\
  map Qred (nd_read toy_w1 (np_x toy_o)) = [3 # 5; 3 # 5] /\
  nth_error (drop (length (trace toy_w1)) (trace toy_w2)) 6
  = Some (EvEvalObjCon [1; 1]) /\
  map Qred (nd_read toy_w2 (np_x toy_o)) = [3 # 5; 3 # 5] /\
  map Qred (nd_read (optimize toy_M toy_o 2 toy_w).2 (np_x toy_o))
  = [1 # 5; 1 # 5].
Proof.
  split; [exact toy_first_call|]. split; [exact toy_second_call|].
  repeat split; vm_compute; reflexivity.
Qed.

(** *** One pass of the loop *)

(** C10. In a pass that returns normally, with [xk] the design at its
    start and [x'] the design at its end: [evalObjCon] is called once,
    at [xk]; the constraint values [cons] it wrote are the ones given to
    [Update] (which turns [xk] into [x']) and to [KKTresidual] (called
    with [x']), and they are still in [np_cons] at the end of the pass.
    The row printed holds the objective at [xk], the two residuals
    returned by [KKTresidual] at [x'], the 1-norm of [x'], and the
    maximum violation of [cons], the constraints at [xk]. *)
Theorem iteration_keeps_constraints_of_old_iterate
    M o lbt ubt w iter mma mma' w' f :
  loop_inv o lbt ubt w ->
  comm_rank (get_mpi_comm (prob o)) = 0%Z -> fp o = Some f ->
  iteration M o (get_mpi_comm (prob o)) (get_num_cons (prob o)) lbt ubt
    iter mma w = (Ok mma', w') ->
  let xk := nd_read w (np_x o) in
  let oc := evalObjCon (prob o) xk (nd_read w (np_cons o)) in
  let cons := filled (nd_read w (np_cons o)) oc.2 in
  let x' := nd_read w' (np_x o) in
  loop_inv o lbt ubt w' /\
  nd_read w' (np_cons o) = cons /\
  exists g rows lo hi mma1 mma2 e_upd x0 e_kkt kkterr_l2 kkterr_linf,
    trace w' = trace w ++
      [EvEvalObjCon xk; EvEvalObjConGrad xk;
       EvSetOuterMovelimit (nd_read w (np_lb o)) (nd_read w (np_ub o))
         movelim xk;
       EvUpdate xk g cons rows lo hi;
       EvKKTresidual x' g cons rows lo hi] /\
    Update M mma1 xk g cons rows lo hi = (e_upd, mma2, x0) /\
    x' = filled xk x0 /\
    KKTresidual M mma2 x' g cons rows lo hi
      = (e_kkt, mma', kkterr_l2, kkterr_linf) /\
    file_text w' f
    = (file_text w f
       +:+ (if (Z.rem iter 10 =? 0)%Z then log_header else "")
       +:+ log_row iter oc.1 kkterr_l2 kkterr_linf (norm_of NORM_1 x')
             (max_violation cons))%string.
Proof.
  intros LI Hr Hf E xk oc cons x'.
  destruct (loop_inv_layout _ _ _ _ LI) as (bl & bu & L).
  pose proof (ly_bufs _ _ _ _ _ _ (Layout_here _ _ _ _ _ _ L)) as EB.
  destruct (iteration_sim M o lbt ubt bl bu f w iter mma L Hr Hf)
    as (w'' & E' & S).
  rewrite E in E'. injection E' as ER <-.
  rewrite <- EB in ER, S.
  unfold iteration_on_bufs in ER, S.
  cbn [get_bufs b_x b_lb b_ub b_g b_cons b_gcon b_lbt b_ubt] in ER, S.
  fold xk in ER, S. fold oc in ER, S.
  destruct oc as [obj cons0] eqn:Eoc. cbn [fst snd] in cons.
  fold cons in ER, S.
  destruct (evalObjConGrad (prob o) xk (nd_read w (np_g o))
              (nd_read w (np_gcon o))) as [g0 gcon0].
  destruct (SetOuterMovelimit M mma (nd_read w (np_lb o))
              (nd_read w (np_ub o)) movelim xk (vec_read w lbt)
              (vec_read w ubt)) as [[[ierr mma1] lo0] hi0].
  destruct (ierr =? 0)%Z; [|discriminate ER].
  match type of ER with context [Update M ?a ?b ?c ?d ?e ?f0 ?g] =>
    destruct (Update M a b c d e f0 g) as [[e_upd mma2] x0] eqn:EU end.
  match type of ER with context [KKTresidual M ?a ?b ?c ?d ?e ?f0 ?g] =>
    destruct (KKTresidual M a b c d e f0 g)
      as [[[e_kkt mma3] kkterr_l2] kkterr_linf] eqn:EK end.
  cbn [fst snd] in ER, S. injection ER as ->.
  destruct S as (SS & EB' & T & FT & _).
  pose proof (ly_bufs _ _ _ _ _ _ (L w' SS)) as EBw'.
  rewrite EB' in EBw'.
  assert (Ex' : x' = filled xk x0) by exact (f_equal b_x EBw').
  split; [eapply loop_inv_shape; eassumption|].
  split; [exact (f_equal b_cons EBw')|].
  rewrite <- Ex' in EK, T, FT.
  do 11 eexists.
  split; [exact T|]. split; [exact EU|]. split; [exact Ex'|].
  split; [exact EK|]. exact FT.
Qed.

Lemma iteration_keeps_constraints_witness :
  exists cons,
    nd_read toy_loop_w1 (np_cons toy_o) = cons /\
    cons = filled (nd_read toy_loop_w (np_cons toy_o))
             (evalObjCon toy_problem (nd_read toy_loop_w (np_x toy_o))
                (nd_read toy_loop_w (np_cons toy_o))).2.
Proof.
  destruct (iteration_keeps_constraints_of_old_iterate toy_M toy_o 5 6
              toy_loop_w 0 O 1%nat toy_loop_w1 "mma4py.log"
              toy_loop_inv eq_refl eq_refl toy_iteration) as (_ & Hc & _).
  eexists. split; [exact Hc | reflexivity].
Defined.

(** *** The violation logged by a pass *)

(** C2, as amended. In every pass of the loop of [optimize] that returns
    normally, let [cons] be what the constraint buffer [np_cons] holds
    when lines 152-159 read it: the [ncons] values that [evalObjCon]
    wrote at line 134 of this pass. The last number of the row that the
    pass adds to the log is the violation computed from them, which is,
    the values being numbers: the maximum over the constraints of
    [max(cons[i], 0)], never negative, 0 exactly when every value is at
    most 0, and 0.3 on [-1.0, 0.3, 0.0]. It is what the loop computes on
    doubles none of which is not-a-number. The state at the head of the
    loop is kept by the pass, so that this holds of every pass. *)
Theorem max_violation_correct M o lbt ubt w iter mma mma' w' f :
  loop_inv o lbt ubt w ->
  comm_rank (get_mpi_comm (prob o)) = 0%Z -> fp o = Some f ->
  iteration M o (get_mpi_comm (prob o)) (get_num_cons (prob o)) lbt ubt
    iter mma w = (Ok mma', w') ->
  let cons := nd_read w' (np_cons o) in
  loop_inv o lbt ubt w' /\
  length cons = Z.to_nat (get_num_cons (prob o)) /\
  cons = filled (nd_read w (np_cons o))
           (evalObjCon (prob o) (nd_read w (np_x o))
              (nd_read w (np_cons o))).2 /\
  exists obj kkterr_l2 kkterr_linf x_l1 infeas,
    file_text w' f
    = (file_text w f
       +:+ (if (Z.rem iter 10 =? 0)%Z then log_header else "")
       +:+ log_row iter obj kkterr_l2 kkterr_linf x_l1 infeas)%string /\
    infeas = max_violation cons /\
    DNum infeas = max_violation_d (map DNum cons) /\
    infeas == max_violation_spec cons /\
    0 <= infeas /\
    (infeas == 0 <-> (forall c, In c cons -> c <= 0)) /\
    (cons = [-(1); 3 # 10; 0] -> infeas = 3 # 10).
Proof.
  intros LI Hr Hf E cons.
  destruct (loop_inv_layout _ _ _ _ LI) as (bl & bu & L).
  pose proof (ly_bufs _ _ _ _ _ _ (Layout_here _ _ _ _ _ _ L)) as EB.
  destruct (iteration_sim M o lbt ubt bl bu f w iter mma L Hr Hf)
    as (w'' & E' & S).
  rewrite E in E'. injection E' as ER <-.
  rewrite <- EB in ER, S.
  unfold iteration_on_bufs in ER, S.
  cbn [get_bufs b_x b_lb b_ub b_g b_cons b_gcon b_lbt b_ubt] in ER, S.
  destruct (evalObjCon (prob o) (nd_read w (np_x o)) (nd_read w (np_cons o)))
    as [obj cons0].
  destruct (evalObjConGrad (prob o) (nd_read w (np_x o))
              (nd_read w (np_g o)) (nd_read w (np_gcon o))) as [g0 gcon0].
  destruct (SetOuterMovelimit M mma (nd_read w (np_lb o))
              (nd_read w (np_ub o)) movelim (nd_read w (np_x o))
              (vec_read w lbt) (vec_read w ubt)) as [[[ierr mma1] lo0] hi0].
  destruct (ierr =? 0)%Z; [|discriminate ER].
  match type of ER with context [Update M ?a ?b ?c ?d ?e ?f0 ?g] =>
    destruct (Update M a b c d e f0 g) as [[e_upd mma2] x0] end.
  match type of ER with context [KKTresidual M ?a ?b ?c ?d ?e ?f0 ?g] =>
    destruct (KKTresidual M a b c d e f0 g)
      as [[[e_kkt mma3] kkterr_l2] kkterr_linf] end.
  cbn [fst snd] in ER, S.
  destruct S as (SS & EB' & _ & FT & _).
  pose proof (ly_bufs _ _ _ _ _ _ (L w' SS)) as EBw'.
  rewrite EB' in EBw'.
  assert (Ec : cons = filled (nd_read w (np_cons o)) cons0)
    by exact (f_equal b_cons EBw').
  pose proof (loop_inv_shape _ _ _ _ _ SS LI) as LI'.
  split; [exact LI'|].
  split; [apply nd_read_length, (wf_cons _ _ (li_wf _ _ _ _ LI'))|].
  split; [exact Ec|].
  rewrite <- Ec in FT.
  destruct (max_violation_props cons) as (P1 & P2 & P3 & P4).
  do 5 eexists. split; [exact FT|]. split; [reflexivity|].
  split; [symmetry; apply infeas_fold_numbers|].
  split; [exact P1|]. split; [exact P2|]. split; [exact P3|].
  intros ->. exact P4.
Qed.

Lemma max_violation_correct_witness :
  exists obj kkterr_l2 kkterr_linf x_l1 infeas,
    file_text toy_loop_w1 "mma4py.log"
    = (file_text toy_loop_w "mma4py.log" +:+ log_header
       +:+ log_row 0 obj kkterr_l2 kkterr_linf x_l1 infeas)%string /\
    infeas = max_violation (nd_read toy_loop_w1 (np_cons toy_o)) /\
    0 <= infeas.
Proof.
  destruct (max_violation_correct toy_M toy_o 5 6 toy_loop_w 0 O 1%nat
              toy_loop_w1 "mma4py.log" toy_loop_inv eq_refl eq_refl
              toy_iteration)
    as (_ & _ & _ & obj & k2 & kinf & xl1 & infeas & Ht & Hi & _ & _ & Hp & _).
  exists obj, k2, kinf, xl1, infeas.
  split; [exact Ht|]. split; [exact Hi | exact Hp].
Defined.

(** C2 as stated fails on a constraint value that is not a number: the
    comparison of line 156 is false for it, [infeas] keeps its value,
    and the violation is 0 although not every constraint value is at
    most 0. *)
Lemma nan_constraint_logs_zero :
  max_violation_d [DNum (-(1)); DNaN] = DNum 0 /\
  ~ (forall c, In c [DNum (-(1)); DNaN] -> dle c (DNum 0) = true).
Proof.
  split; [reflexivity|].
  intros H. specialize (H DNaN (or_intror (or_introl eq_refl))).
  discriminate H.
Qed.

(** *** The log *)

Lemma string_app_length (a b : string) :
  String.length (a +:+ b) = (String.length a + String.length b)%nat.
Proof.
  induction a as [|c a IH]; [reflexivity|].
  change (S (String.length (a +:+ b)) = S (String.length a + String.length b)).
  f_equal. exact IH.
Qed.

Lemma string_app_nil_l (s : string) : (""%string +:+ s)%string = s.
Proof. reflexivity. Qed.

Lemma digits_fixed_length (n : nat) (m : Z) :
  String.length (digits_fixed n m) = n.
Proof.
  revert m. induction n as [|n IH]; intros m; [reflexivity|].
  cbn [digits_fixed]. rewrite string_app_length, IH. simpl. lia.
Qed.

Lemma iteration_on_bufs_text P M B iter mma mma' :
  (iteration_on_bufs P M B iter mma).1.1.1 = Ok mma' ->
  exists r,
    (iteration_on_bufs P M B iter mma).2
    = ((if (Z.rem iter 10 =? 0)%Z then log_header else "")
       +:+ log_row_of iter r)%string.
Proof.
  unfold iteration_on_bufs.
  destruct (evalObjCon P (b_x B) (b_cons B)) as [obj cons0].
  destruct (evalObjConGrad P (b_x B) (b_g B) (b_gcon B)) as [g0 gcon0].
  destruct (SetOuterMovelimit M mma (b_lb B) (b_ub B) movelim (b_x B)
              (b_lbt B) (b_ubt B)) as [[[ierr mma1] lo0] hi0].
  destruct (ierr =? 0)%Z; [|discriminate].
  match goal with |- context [Update M ?a ?b ?c ?d ?e ?f0 ?g] =>
    destruct (Update M a b c d e f0 g) as [[e_upd mma2] x0] end.
  match goal with |- context [KKTresidual M ?a ?b ?c ?d ?e ?f0 ?g] =>
    destruct (KKTresidual M a b c d e f0 g)
      as [[[e_kkt mma3] kkterr_l2] kkterr_linf] end.
  intros _. cbn [fst snd].
  eexists (_, _, _, _, _). reflexivity.
Qed.

Lemma loop_on_bufs_text P M n :
  forall B iter mma,
  (loop_on_bufs P M n B iter mma).1.1.1 = Ok tt ->
  exists rows,
    length rows = n /\ (loop_on_bufs P M n B iter mma).2 = log_lines iter rows.
Proof.
  induction n as [|n IH]; intros B iter mma H.
  - exists []. split; reflexivity.
  - cbn [loop_on_bufs] in *.
    pose proof (iteration_on_bufs_text P M B iter mma) as Ht.
    destruct (iteration_on_bufs P M B iter mma) as [[[r B1] ev1] t1].
    cbn [fst snd] in Ht.
    destruct r as [mma1|e]; [|discriminate H].
    destruct (Ht mma1 eq_refl) as (r & ->).
    specialize (IH B1 (iter + 1)%Z mma1).
    destruct (loop_on_bufs P M n B1 (iter + 1) mma1) as [[[r2 B2] ev2] t2].
    cbn [fst snd] in *. destruct (IH H) as (rows & Hl & ->).
    exists (r :: rows). split; [simpl; f_equal; exact Hl|].
    cbn [log_lines]. apply string_app_assoc.
Qed.

(** *** The mantissa of [%e] *)

Lemma pow10_pos (k : Z) : (0 <= k -> 0 < 10 ^ k)%Z.
Proof. intros H. apply Z.pow_pos_nonneg; lia. Qed.

Lemma lt_pow10_log2 (a : Z) : (0 < a -> a < 10 ^ (Z.log2 a + 1))%Z.
Proof.
  intros H. destruct (Z.log2_spec a H) as [_ H2].
  pose proof (Z.log2_nonneg a) as H0.
  unfold Z.succ in H2.
  assert (2 ^ (Z.log2 a + 1) <= 10 ^ (Z.log2 a + 1))%Z
    by (apply Z.pow_le_mono_l; lia).
  lia.
Qed.

Lemma find_exp_spec (a d : Z) (fuel : nat) :
  forall e,
  ge_pow10 a d (e + 1) = false ->
  ge_pow10 a d (e - Z.of_nat fuel + 1) = true ->
  (0 < fuel)%nat ->
  ge_pow10 a d (find_exp fuel a d e) = true /\
  ge_pow10 a d (find_exp fuel a d e + 1) = false.
Proof.
  induction fuel as [|f IH]; intros e Hup Hlast Hf; [lia|].
  cbn [find_exp]. destruct (ge_pow10 a d e) eqn:E; [split; assumption|].
  destruct f as [|f'].
  - replace (e - Z.of_nat 1 + 1)%Z with e in Hlast by lia. congruence.
  - apply IH; [| |lia].
    + replace (e - 1 + 1)%Z with e by lia. exact E.
    + replace (e - 1 - Z.of_nat (S f') + 1)%Z
        with (e - Z.of_nat (S (S f')) + 1)%Z by lia.
      exact Hlast.
Qed.

Lemma floor_log10_spec (a d : Z) :
  (0 < a)%Z -> (0 < d)%Z ->
  ge_pow10 a d (floor_log10 a d) = true /\
  ge_pow10 a d (floor_log10 a d + 1) = false.
Proof.
  intros Ha Hd. unfold floor_log10.
  pose proof (Z.log2_nonneg a) as La. pose proof (Z.log2_nonneg d) as Ld.
  apply find_exp_spec; [| |lia].
  - unfold ge_pow10.
    replace (0 <=? Z.log2 a + 1 + 1)%Z with true by (symmetry; apply Z.leb_le; lia).
    apply Z.leb_gt. pose proof (lt_pow10_log2 a Ha).
    assert (10 ^ (Z.log2 a + 1) <= 10 ^ (Z.log2 a + 1 + 1))%Z
      by (apply Z.pow_le_mono_r; lia).
    nia.
  - rewrite Z2Nat.id by lia.
    replace (Z.log2 a + 1 - (Z.log2 a + Z.log2 d + 3) + 1)%Z
      with (- (Z.log2 d + 1))%Z by lia.
    unfold ge_pow10.
    replace (0 <=? - (Z.log2 d + 1))%Z with false
      by (symmetry; apply Z.leb_gt; lia).
    apply Z.leb_le. rewrite Z.opp_involutive.
    pose proof (lt_pow10_log2 d Hd). nia.
Qed.

Lemma round_half_even_bounds (num den lo hi : Z) :
  (0 < den)%Z -> (lo * den <= num)%Z -> (num < hi * den)%Z ->
  (lo <= round_half_even num den <= hi)%Z.
Proof.
  intros Hd H1 H2. unfold round_half_even.
  assert (lo <= num / den)%Z by (apply Z.div_le_lower_bound; lia).
  assert (num / den < hi)%Z by (apply Z.div_lt_upper_bound; lia).
  destruct (2 * (num mod den) <? den)%Z; [lia|].
  destruct (den <? 2 * (num mod den))%Z; [lia|].
  destruct (Z.even (num / den)); lia.
Qed.

(** The mantissa of a number that is not zero is an integer of exactly
    [prec + 1] digits: the first digit printed is not 0. *)
Lemma to_sci_mantissa (prec : nat) (q : Q) :
  ~ q == 0 ->
  (10 ^ Z.of_nat prec <= sci_mant (to_sci prec q)
   < 10 ^ (Z.of_nat prec + 1))%Z.
Proof.
  intros Hq. unfold to_sci.
  assert (Ha : (0 < Z.abs (Qnum q))%Z).
  { destruct q as [n dq]. unfold Qeq in Hq. simpl in *. lia. }
  set (a := Z.abs (Qnum q)) in *. set (d := Zpos (Qden q)).
  set (p := Z.of_nat prec).
  assert (Hd : (0 < d)%Z) by (unfold d; lia).
  assert (Hp : (0 <= p)%Z) by (unfold p; lia).
  replace (a =? 0)%Z with false by (symmetry; apply Z.eqb_neq; lia).
  destruct (floor_log10_spec a d Ha Hd) as [Hlo Hhi].
  set (e := floor_log10 a d) in *.
  pose proof (pow10_pos p Hp) as Pp.
  assert (Pp1 : (10 ^ (p + 1) = 10 * 10 ^ p)%Z)
    by (rewrite Z.pow_add_r by lia; lia).
  set (m := if (e <=? p)%Z
            then round_half_even (a * 10 ^ (p - e)) d
            else round_half_even a (d * 10 ^ (e - p))).
  assert (Hm : (10 ^ p <= m <= 10 ^ (p + 1))%Z).
  { unfold m. unfold ge_pow10 in Hlo, Hhi.
    destruct (e <=? p)%Z eqn:Eep;
      [apply Z.leb_le in Eep | apply Z.leb_gt in Eep].
    - apply round_half_even_bounds; [exact Hd| |].
      + destruct (0 <=? e)%Z eqn:E0;
          [apply Z.leb_le in E0 | apply Z.leb_gt in E0];
          apply Z.leb_le in Hlo.
        * replace p with (e + (p - e))%Z at 1 by lia.
          rewrite Z.pow_add_r by lia.
          pose proof (pow10_pos (p - e)). nia.
        * replace (p - e)%Z with (p + - e)%Z by lia.
          rewrite Z.pow_add_r by lia. nia.
      + destruct (0 <=? e + 1)%Z eqn:E1;
          [apply Z.leb_le in E1 | apply Z.leb_gt in E1];
          apply Z.leb_gt in Hhi.
        * replace (p + 1)%Z with ((e + 1) + (p - e))%Z by lia.
          rewrite Z.pow_add_r by lia.
          pose proof (pow10_pos (p - e)). nia.
        * replace (p - e)%Z with ((p + 1) + - (e + 1))%Z by lia.
          rewrite (Z.pow_add_r 10 (p + 1)) by lia.
          pose proof (pow10_pos (p + 1)). nia.
    - replace (0 <=? e)%Z with true in Hlo by (symmetry; apply Z.leb_le; lia).
      replace (0 <=? e + 1)%Z with true in Hhi
        by (symmetry; apply Z.leb_le; lia).
      apply Z.leb_le in Hlo. apply Z.leb_gt in Hhi.
      pose proof (pow10_pos (e - p)).
      apply round_half_even_bounds; [nia| |].
      + replace e with (p + (e - p))%Z in Hlo at 1 by lia.
        rewrite Z.pow_add_r in Hlo by lia. nia.
      + replace (e + 1)%Z with ((p + 1) + (e - p))%Z in Hhi by lia.
        rewrite Z.pow_add_r in Hhi by lia. nia. }
  fold m. destruct (m =? 10 ^ (p + 1))%Z eqn:Em; cbn [sci_mant].
  - lia.
  - apply Z.eqb_neq in Em. lia.
Qed.

(** C8, as amended. In a call of [optimize] that returns 0, the text
    added to the log is, for each iteration from 0 to [niter - 1] in
    order, the header line when the iteration number is a multiple of 10
    (0, 10, 20, ...) and then one row; for three iterations that is one
    header followed by three rows. The five numbers of a row are printed
    with [%20.10e]: one digit before the point and ten after it, eleven
    digits in the mantissa, the first of which is not 0 unless the
    number is 0. *)
Theorem log_of_a_run M o niter w f w' :
  opt_wf o w ->
  comm_rank (get_mpi_comm (prob o)) = 0%Z -> fp o = Some f ->
  optimize M o niter w = (Ok tt, w') ->
  exists rows,
    length rows = Z.to_nat niter /\
    file_text w' f = (file_text w f +:+ log_lines 0 rows)%string /\
    (niter = 3%Z ->
     exists r0 r1 r2,
       rows = [r0; r1; r2] /\
       log_lines 0 rows
       = (log_header +:+ log_row_of 0 r0 +:+ log_row_of 1 r1
          +:+ log_row_of 2 r2)%string) /\
    (forall q,
       String.length (mantissa_digits 10 (to_sci 10 q)) = 11%nat /\
       (~ q == 0 -> (10 ^ 10 <= sci_mant (to_sci 10 q) < 10 ^ 11)%Z)).
Proof.
  intros Hwf Hr Hf E.
  destruct (optimize_spec M o niter w f Hwf Hr Hf)
    as (w'' & E' & _ & _ & _ & FT & _).
  rewrite E in E'. injection E' as ER <-.
  unfold optimize_on_bufs in ER, FT.
  set (B := setup_on_bufs (prob o)
              (get_bufs o (next_vec w) (S (next_vec w)) w)) in *.
  set (mma0 := MMA_new M (get_num_vars (prob o)) (get_num_cons (prob o))
                 (b_x B)) in *.
  pose proof (loop_on_bufs_text (prob o) M (Z.to_nat niter) B 0%Z mma0) as Ht.
  destruct (loop_on_bufs (prob o) M (Z.to_nat niter) B 0 mma0)
    as [[[r B'] ev] txt].
  cbn [fst snd] in *.
  destruct (Ht (eq_sym ER)) as (rows & Hl & ->).
  exists rows. split; [exact Hl|]. split; [exact FT|]. split.
  - intros ->. change (Z.to_nat 3) with 3%nat in Hl.
    destruct rows as [|r0 [|r1 [|r2 [|r3 rest]]]]; try discriminate Hl.
    exists r0, r1, r2. split; [reflexivity|].
    cbn [log_lines]. change (Z.rem 0 10 =? 0)%Z with true.
    change (Z.rem (0 + 1) 10 =? 0)%Z with false.
    change (Z.rem (0 + 1 + 1) 10 =? 0)%Z with false.
    change (Z.rem (0 + 1 + 1 + 1) 10 =? 0)%Z with false.
    cbv iota. change (0 + 1 + 1)%Z with 2%Z. change (0 + 1)%Z with 1%Z.
    rewrite string_app_nil_r, !string_app_nil_l. reflexivity.
  - intros q. split; [apply digits_fixed_length|].
    intros Hq. exact (to_sci_mantissa 10 q Hq).
Qed.

Lemma log_of_a_run_witness :
  exists rows,
    length rows = Z.to_nat 3 /\
    file_text toy_w3 "mma4py.log"
    = (file_text toy_w "mma4py.log" +:+ log_lines 0 rows)%string.
Proof.
  destruct (log_of_a_run toy_M toy_o 3 toy_w "mma4py.log" toy_w3
              toy_wf eq_refl eq_refl toy_three_passes) as (rows & Hl & Ht & _).
  exists rows. split; [exact Hl | exact Ht].
Defined.

(** C8 as stated fails on "10 significant digits": one third is printed
    with eleven. *)
Lemma eleven_significant_digits :
  fmt_e 20 10 (1 # 3) = "    3.3333333333e-01"%string /\
  mantissa_digits 10 (to_sci 10 (1 # 3)) = "33333333333"%string /\
  String.length (mantissa_digits 10 (to_sci 10 (1 # 3))) = 11%nat /\
  fmt_e 20 10 (3 # 10) = "    3.0000000000e-01"%string.
Proof. repeat split; vm_compute; reflexivity. Qed.

(** *** Failures inside the loop *)

Lemma count_updates_app l1 l2 :
  count_updates (l1 ++ l2) = (count_updates l1 + count_updates l2)%nat.
Proof.
  induction l1 as [|e l1 IH]; [reflexivity|].
  destruct e; cbn [app count_updates]; rewrite IH; reflexivity.
Qed.

Lemma iteration_on_bufs_Ok P M B iter mma :
  (SetOuterMovelimit M mma (b_lb B) (b_ub B) movelim (b_x B) (b_lbt B)
     (b_ubt B)).1.1.1 = 0%Z ->
  exists mma',
    (iteration_on_bufs P M B iter mma).1.1.1 = Ok mma' /\
    count_updates (iteration_on_bufs P M B iter mma).1.2 = 1%nat.
Proof.
  unfold iteration_on_bufs.
  destruct (evalObjCon P (b_x B) (b_cons B)) as [obj cons0].
  destruct (evalObjConGrad P (b_x B) (b_g B) (b_gcon B)) as [g0 gcon0].
  destruct (SetOuterMovelimit M mma (b_lb B) (b_ub B) movelim (b_x B)
              (b_lbt B) (b_ubt B)) as [[[ierr mma1] lo0] hi0].
  cbn [fst snd]. intros ->. cbn [Z.eqb].
  match goal with |- context [Update M ?a ?b ?c ?d ?e ?f0 ?g] =>
    destruct (Update M a b c d e f0 g) as [[e_upd mma2] x0] end.
  match goal with |- context [KKTresidual M ?a ?b ?c ?d ?e ?f0 ?g] =>
    destruct (KKTresidual M a b c d e f0 g)
      as [[[e_kkt mma3] kkterr_l2] kkterr_linf] end.
  eexists. split; reflexivity.
Qed.

Lemma loop_on_bufs_Ok P M n :
  (forall mma lb ub f x lo hi,
     (SetOuterMovelimit M mma lb ub f x lo hi).1.1.1 = 0%Z) ->
  forall B iter mma,
    (loop_on_bufs P M n B iter mma).1.1.1 = Ok tt /\
    count_updates (loop_on_bufs P M n B iter mma).1.2 = n.
Proof.
  intros H0. induction n as [|n IH]; intros B iter mma.
  - split; reflexivity.
  - cbn [loop_on_bufs].
    destruct (iteration_on_bufs_Ok P M B iter mma (H0 _ _ _ _ _ _ _))
      as (mma' & E & C).
    destruct (iteration_on_bufs P M B iter mma) as [[[r B1] ev1] t1].
    cbn [fst snd] in E, C. subst r.
    specialize (IH B1 (iter + 1)%Z mma').
    destruct (loop_on_bufs P M n B1 (iter + 1) mma') as [[[r2 B2] ev2] t2].
    cbn [fst snd] in *. destruct IH as [-> IH].
    split; [reflexivity|]. rewrite count_updates_app, C, IH. reflexivity.
Qed.

(** C4 does not hold of the code. Line 141 drops the code returned by
    [Update] (and line 145 the one of [KKTresidual]), where line 138
    wraps [SetOuterMovelimit] in [PetscCall]: as long as the move-limit
    step succeeds, [optimize] returns 0 and makes all [niter] passes,
    whatever [Update] and [KKTresidual] return. *)
Theorem update_failure_is_not_propagated M o niter w f :
  opt_wf o w ->
  comm_rank (get_mpi_comm (prob o)) = 0%Z -> fp o = Some f ->
  (forall mma lb ub f x lo hi,
     (SetOuterMovelimit M mma lb ub f x lo hi).1.1.1 = 0%Z) ->
  exists w' calls,
    optimize M o niter w = (Ok tt, w') /\
    trace w' = trace w ++ calls /\
    count_updates calls = Z.to_nat niter.
Proof.
  intros Hwf Hr Hf H0.
  destruct (optimize_spec M o niter w f Hwf Hr Hf)
    as (w' & E & _ & _ & T & _).
  unfold optimize_on_bufs in E, T.
  set (B := setup_on_bufs (prob o)
              (get_bufs o (next_vec w) (S (next_vec w)) w)) in *.
  set (mma0 := MMA_new M (get_num_vars (prob o)) (get_num_cons (prob o))
                 (b_x B)) in *.
  destruct (loop_on_bufs_Ok (prob o) M (Z.to_nat niter) H0 B 0%Z mma0)
    as [ER C].
  destruct (loop_on_bufs (prob o) M (Z.to_nat niter) B 0 mma0)
    as [[[r B'] ev] txt].
  cbn [fst snd] in *. subst r.
  exists w'. eexists. split; [exact E|]. split; [exact T|].
  rewrite !count_updates_app, C. cbn. lia.
Qed.

Lemma update_failure_is_not_propagated_witness :
  exists w' calls,
    optimize toy_M_update_fails toy_o 2 toy_w = (Ok tt, w') /\
    trace w' = trace toy_w ++ calls /\
    count_updates calls = Z.to_nat 2.
Proof.
  apply (update_failure_is_not_propagated toy_M_update_fails toy_o 2 toy_w
           "mma4py.log" toy_wf eq_refl eq_refl).
  intros mma lb ub f x lo hi. unfold toy_M_update_fails, toy_mma. simpl.
  destruct (SetOuterMovelimit_spec lb ub f x). reflexivity.
Defined.

(** The update step of [toy_M_update_fails] returns 1 at every call. *)
Lemma failing_update_goes_on :
  (forall mma x g cons gcon xmin xmax,
     (Update toy_M_update_fails mma x g cons gcon xmin xmax).1.1 = 1%Z) /\
  (optimize toy_M_update_fails toy_o 2 toy_w).1 = Ok tt /\
  count_updates (trace (optimize toy_M_update_fails toy_o 2 toy_w).2) = 2%nat.
Proof.
  split; [intros; reflexivity|]. split; vm_compute; reflexivity.
Qed.

(** C5 does not hold of the code. The two temporary vectors are the
    next two handles of the store. They are destroyed (lines 173-174)
    when [optimize] returns 0; when it returns an error code, through
    one of the [PetscCall]s of the loop, both are still alive. *)
Theorem temporary_bounds_released_on_success_only M o niter w f r w' :
  opt_wf o w ->
  comm_rank (get_mpi_comm (prob o)) = 0%Z -> fp o = Some f ->
  optimize M o niter w = (r, w') ->
  let lb_temp := next_vec w in
  let ub_temp := S (next_vec w) in
  (r = Ok tt -> vecs w' !! lb_temp = None /\ vecs w' !! ub_temp = None) /\
  (forall e, r = Err e ->
     is_Some (vecs w' !! lb_temp) /\ is_Some (vecs w' !! ub_temp)).
Proof.
  intros Hwf Hr Hf E lb_temp ub_temp.
  destruct (optimize_spec M o niter w f Hwf Hr Hf)
    as (w'' & E' & _ & _ & _ & _ & _ & HOk & HErr).
  rewrite E in E'. injection E' as ER <-.
  split.
  - intros ->. apply HOk. symmetry. exact ER.
  - intros e ->. apply (HErr e). symmetry. exact ER.
Qed.

Lemma temporary_bounds_released_on_success_only_witness :
  is_Some (vecs toy_w_failed !! next_vec toy_w) /\
  is_Some (vecs toy_w_failed !! S (next_vec toy_w)).
Proof.
  destruct (temporary_bounds_released_on_success_only
              toy_M_movelimit_fails toy_o 1 toy_w "mma4py.log" (Err 1%Z)
              toy_w_failed toy_wf eq_refl eq_refl toy_failed_call)
    as [_ H].
  exact (H 1%Z eq_refl).
Defined.

Lemma temporary_bounds_left_after_failure :
  optimize toy_M_movelimit_fails toy_o 1 toy_w = (Err 1%Z, toy_w_failed) /\
  vecs toy_w !! 5%nat = None /\ vecs toy_w !! 6%nat = None /\
  (exists a, vecs toy_w_failed !! 5%nat = Some (owned_vec comm_self 2 2 a)) /\
  (exists a, vecs toy_w_failed !! 6%nat = Some (owned_vec comm_self 2 2 a)) /\
  vecs toy_w1 !! 5%nat = None /\ vecs toy_w1 !! 6%nat = None.
Proof.
  split; [exact toy_failed_call|].
  repeat split; try (eexists; vm_compute; reflexivity); vm_compute; reflexivity.
Qed.

(** *** The log file at construction *)

Lemma fopen_fails name w : writable w name = false -> fopen name w = (None, w).
Proof. intros H. unfold fopen. rewrite H. reflexivity. Qed.

(** C9 does not hold of the code. Line 39 keeps what [fopen] returns
    without looking at it: with a log that cannot be opened, and sizes
    that make sense (local sizes that add up to the global size, a
    Jacobian whose number of elements fits an [int]), the constructor
    completes as it does with a log that can be opened; the object holds
    the null stream, and no file is created. *)
Theorem failed_open_is_ignored P name w :
  writable w name = false ->
  (0 <= get_num_vars_local P <= get_num_vars P)%Z ->
  (0 <= get_num_cons P)%Z ->
  sum_local (get_mpi_comm P) (get_num_vars_local P) = get_num_vars P ->
  (get_num_cons P * get_num_vars_local P <= INT_MAX)%Z ->
  exists o w',
    Optimizer_new P name w = (Constructed o, w') /\
    opt_wf o w' /\ fp o = None /\ files w' = files w.
Proof.
  intros Hw Hn Hm Hs Hfit.
  destruct (Optimizer_new_spec P name w Hn Hm Hs Hfit)
    as (o & w' & E & Hwf & _ & _ & Hfp & Hfiles).
  rewrite (fopen_fails _ _ Hw) in Hfp, Hfiles.
  exists o, w'. split; [exact E|]. split; [exact Hwf|].
  split; [exact Hfp | exact Hfiles].
Qed.

Lemma failed_open_is_ignored_witness :
  exists o w',
    Optimizer_new toy_problem "/nonexistent/mma4py.log" world0
    = (Constructed o, w') /\
    opt_wf o w' /\ fp o = None /\ files w' = files world0.
Proof.
  apply (failed_open_is_ignored toy_problem "/nonexistent/mma4py.log" world0).
  - reflexivity.
  - simpl. lia.
  - simpl. lia.
  - reflexivity.
  - vm_compute. discriminate.
Defined.

(** With a log that cannot be opened the constructor gives an object
    whose stream is null, and no file; a call of [optimize] with no
    iteration returns 0, and the first pass of a call with one prints
    to the null stream. *)
Lemma unopened_log_surfaces_at_first_print :
  exists o w',
    toy_unopened = (Constructed o, w') /\ fp o = None /\ files w' = ∅ /\
    (optimize toy_M o 0 w').1 = Ok tt /\
    (optimize toy_M o 1 w').1 = Err PETSC_ERR_SIG.
Proof.
  eexists _, _. split; [vm_compute; reflexivity|].
  repeat split; vm_compute; reflexivity.
Qed.

(** ** Further properties of the code *)

(** *** The two vector constructors (lines 3-34) *)

Lemma allocate_petsc_vec_Ok comm gsize lsize w v w' :
  allocate_petsc_vec comm gsize lsize w = (Ok v, w') ->
  v = next_vec w /\
  w' = {| heap := <[next_block w :=
                      replicate (Z.to_nat (local_size comm gsize lsize)) 0]>
                    (heap w);
          next_block := S (next_block w); uninit := uninit w;
          vecs := <[next_vec w :=
                      owned_vec comm gsize (local_size comm gsize lsize)
                        (Ptr (next_block w) 0)]> (vecs w);
          next_vec := S (next_vec w); writable := writable w;
          files := files w; trace := trace w |} /\
  ((0 <= lsize)%Z -> (0 <= gsize)%Z ->
   (lsize <= gsize)%Z /\ sum_local comm lsize = gsize).
Proof.
  unfold allocate_petsc_vec. unfold_petsc.
  unfold VecCreate, new_vec. simpl.
  unfold VecSetSizes. simpl. rewrite lookup_insert_eq. simpl.
  destruct ((0 <=? gsize) && (gsize <? lsize))%Z eqn:E1; [discriminate|].
  simpl. unfold VecSetType, with_vecs. simpl. rewrite lookup_insert_eq. simpl.
  destruct ((lsize <? 0) && (gsize <? 0))%Z eqn:E2; [discriminate|].
  destruct ((0 <=? lsize) && (0 <=? gsize)
            && negb (sum_local comm lsize =? gsize))%Z eqn:E3;
    [discriminate|].
  simpl. intros H. injection H as <- <-. split; [reflexivity|].
  split; [rewrite !insert_insert_eq; reflexivity|].
  intros Hl Hg. split.
  - apply andb_false_iff in E1 as [E1|E1]; [apply Z.leb_gt in E1; lia|].
    apply Z.ltb_ge in E1. exact E1.
  - apply andb_false_iff in E3 as [E3|E3].
    + apply andb_false_iff in E3 as [E3|E3]; apply Z.leb_gt in E3; lia.
    + apply negb_false_iff, Z.eqb_eq in E3. exact E3.
Qed.

(** X1. A call of [allocate_petsc_vec] that succeeds: the handle is new;
    its local storage is a new block, which the accessor returns, of
    [lsize] zeros (of the size the library picks, when [lsize] is
    negative); no other vector and no other block is touched, nor a file,
    nor the problem. And the sizes were consistent: when both are given,
    the local size is at most the global size and adds up to it with the
    local sizes of the other ranks. *)
Theorem allocate_gives_zeroed_storage comm gsize lsize w v w' :
  allocate_petsc_vec comm gsize lsize w = (Ok v, w') ->
  v = next_vec w /\
  VecGetArray v w' = (Ok (Ptr (next_block w) 0), w') /\
  vec_read w' v = replicate (Z.to_nat (local_size comm gsize lsize)) 0 /\
  (forall v', v' <> v -> vecs w' !! v' = vecs w !! v') /\
  (forall b, b <> next_block w -> heap w' !! b = heap w !! b) /\
  files w' = files w /\ trace w' = trace w /\
  ((0 <= lsize)%Z -> (0 <= gsize)%Z ->
   (lsize <= gsize)%Z /\ sum_local comm lsize = gsize).
Proof.
  intros H. apply allocate_petsc_vec_Ok in H as (-> & -> & Hsz).
  split; [reflexivity|].
  split.
  { unfold VecGetArray. cbn [vecs]. rewrite lookup_insert_eq. reflexivity. }
  split.
  { unfold vec_read, load_n. cbn [vecs heap]. rewrite lookup_insert_eq.
    cbn [owned_vec v_array v_n p_block p_off]. rewrite lookup_insert_eq.
    rewrite drop_0. apply take_ge. rewrite length_replicate. lia. }
  split.
  { intros v Hv. cbn [vecs]. apply lookup_insert_ne. congruence. }
  split.
  { intros b Hb. cbn [heap]. apply lookup_insert_ne. congruence. }
  split; [reflexivity|]. split; [reflexivity | exact Hsz].
Qed.

Lemma allocate_gives_zeroed_storage_witness :
  exists w',
    allocate_petsc_vec comm_self 3%Z 3%Z buffer_world = (Ok 0%nat, w') /\
    vec_read w' 0%nat = [0; 0; 0] /\
    heap w' !! 0%nat = Some [1; 2; 3].
Proof.
  eexists. split; [reflexivity|].
  destruct (allocate_gives_zeroed_storage comm_self 3%Z 3%Z buffer_world
              0%nat _ eq_refl) as (_ & _ & R & _ & B & _).
  split; [exact R|].
  rewrite (B 0%nat); [reflexivity | discriminate].
Defined.

(** X2. A local size above a global size that is not negative: both
    constructors return the code of [VecSetSizes] through the [PetscCall] of
    lines 9 and 25. The vector object made by [VecCreate] one line earlier
    stays in the store, with no type and no storage: nothing destroys it on
    this exit. *)
Theorem local_size_above_global_fails comm gsize lsize data w :
  (0 <= gsize < lsize)%Z ->
  exists w',
    allocate_petsc_vec comm gsize lsize w = (Err PETSC_ERR_ARG_INCOMP, w') /\
    bind_petsc_vec_to_array comm gsize lsize data w
    = (Err PETSC_ERR_ARG_INCOMP, w') /\
    vecs w' !! next_vec w
    = Some {| v_comm := comm; v_n := -1; v_N := -1; v_type := None;
              v_array := None; v_unplaced := None |} /\
    next_vec w' = S (next_vec w) /\
    heap w' = heap w /\ next_block w' = next_block w.
Proof.
  intros H.
  assert (E : ((0 <=? gsize) && (gsize <? lsize))%Z = true).
  { apply andb_true_iff. split; [apply Z.leb_le | apply Z.ltb_lt]; lia. }
  unfold allocate_petsc_vec, bind_petsc_vec_to_array. unfold_petsc.
  unfold VecCreate, new_vec. cbv beta iota.
  unfold VecSetSizes. cbn [vecs]. rewrite lookup_insert_eq. rewrite E.
  eexists. split; [reflexivity|]. split; [reflexivity|].
  cbn [vecs next_vec heap next_block]. rewrite lookup_insert_eq.
  repeat split.
Qed.

Lemma local_size_above_global_fails_witness :
  exists w',
    allocate_petsc_vec comm_self 2%Z 3%Z world0 = (Err 75%Z, w') /\
    bind_petsc_vec_to_array comm_self 2%Z 3%Z (Ptr 0 0) world0 = (Err 75%Z, w') /\
    is_Some (vecs w' !! 0%nat) /\ next_vec w' = 1%nat.
Proof.
  destruct (local_size_above_global_fails comm_self 2%Z 3%Z (Ptr 0 0) world0)
    as (w' & E1 & E2 & V & N & _); [lia|].
  exists w'. split; [exact E1|]. split; [exact E2|].
  split; [eexists; exact V | exact N].
Defined.

(** X3. Binding and then destroying: in a store whose next handle and next
    block are not in use, the vectors and the blocks are again what they
    were before the bind. The buffer the vector was bound to is neither
    freed nor changed; what is freed is the array the vector got at line 28. *)
Theorem bind_then_destroy_restores comm gsize lsize data w v w1 :
  bind_petsc_vec_to_array comm gsize lsize data w = (Ok v, w1) ->
  heap w !! next_block w = None -> vecs w !! next_vec w = None ->
  exists w2,
    VecDestroy v w1 = (Ok tt, w2) /\ heap w2 = heap w /\ vecs w2 = vecs w /\
    files w2 = files w /\ trace w2 = trace w.
Proof.
  intros Hb Hh Hv. apply bind_petsc_vec_to_array_Ok in Hb as [-> ->].
  unfold VecDestroy. cbn [vecs]. rewrite lookup_insert_eq.
  cbn [own_array bound_vec v_unplaced p_block].
  eexists. split; [reflexivity|].
  unfold with_vecs, with_heap. cbn [heap vecs files trace].
  rewrite !delete_insert_id by assumption. repeat split.
Qed.

Lemma bind_then_destroy_restores_witness :
  exists w1 w2,
    bind_petsc_vec_to_array comm_self 3%Z 3%Z (Ptr 0 0) buffer_world
    = (Ok 0%nat, w1) /\
    VecDestroy 0%nat w1 = (Ok tt, w2) /\
    heap w2 = heap buffer_world /\ vecs w2 = vecs buffer_world.
Proof.
  eexists.
  destruct (bind_then_destroy_restores comm_self 3%Z 3%Z (Ptr 0 0) buffer_world
              0%nat _ eq_refl eq_refl eq_refl) as (w2 & E & H & V & _).
  exists w2. split; [reflexivity|]. split; [exact E|]. split; assumption.
Defined.

(** *** The constructor, in more detail *)

Lemma fopen_store name w :
  heap (fopen name w).2 = heap w /\ next_block (fopen name w).2 = next_block w /\
  vecs (fopen name w).2 = vecs w /\ next_vec (fopen name w).2 = next_vec w /\
  trace (fopen name w).2 = trace w.
Proof. unfold fopen. destruct (writable w name); repeat split. Qed.

Lemma ndarray_new_store n w :
  exists a w',
    ndarray_new n w = (a, w') /\
    p_block (nd_data a) = next_block w /\
    next_block w' = S (next_block w) /\ next_vec w' = next_vec w /\
    vecs w' = vecs w /\ trace w' = trace w /\ files w' = files w.
Proof. eexists _, _. repeat split. Qed.

Lemma bind_petsc_vec_to_array_store comm gsize lsize data w :
  (0 <= lsize <= gsize)%Z ->
  sum_local comm lsize = gsize ->
  exists w',
    bind_petsc_vec_to_array comm gsize lsize data w = (Ok (next_vec w), w') /\
    next_vec w' = S (next_vec w) /\ next_block w' = S (next_block w) /\
    vecs w' !! next_vec w
    = Some (bound_vec comm gsize lsize data (Ptr (next_block w) 0)) /\
    (forall v, v <> next_vec w -> vecs w' !! v = vecs w !! v) /\
    trace w' = trace w.
Proof.
  intros H Hs. rewrite (bind_petsc_vec_to_array_eq _ _ _ _ _ H Hs).
  eexists. split; [reflexivity|]. cbn [next_vec next_block vecs trace].
  split; [reflexivity|]. split; [reflexivity|].
  split; [apply lookup_insert_eq|]. split; [|reflexivity].
  intros v Hv. apply lookup_insert_ne. congruence.
Qed.

Lemma bind_gcon_rows_store comm nvars nvars_l gcon_data n :
  (0 <= nvars_l <= nvars)%Z ->
  sum_local comm nvars_l = nvars ->
  forall offset w,
  exists w',
    bind_gcon_rows comm nvars nvars_l gcon_data n offset w
    = (Ok (seq (next_vec w) n), w') /\
    next_vec w' = (next_vec w + n)%nat /\
    (forall v, (v < next_vec w)%nat -> vecs w' !! v = vecs w !! v) /\
    (forall i, (i < n)%nat ->
       exists vo own,
         vecs w' !! (next_vec w + i)%nat = Some vo /\
         v_unplaced vo = Some own /\ (next_block w <= p_block own)%nat) /\
    trace w' = trace w.
Proof.
  intros H Hs. induction n as [|n IH]; intros offset w.
  - exists w. split; [reflexivity|]. split; [lia|]. split; [auto|].
    split; [intros i Hi; lia | reflexivity].
  - cbn [bind_gcon_rows]. unfold_petsc.
    match goal with |- context [bind_petsc_vec_to_array ?c ?g ?l ?d ?w0] =>
      destruct (bind_petsc_vec_to_array_store c g l d w0 H Hs)
        as (w1 & -> & NV & NB & V1 & F1 & T1) end.
    destruct (IH (offset + Z.to_nat nvars_l)%nat w1)
      as (w' & -> & NV' & F' & Rows & T').
    rewrite NV. exists w'. split; [reflexivity|].
    split; [lia|].
    split.
    { intros v Hv. rewrite F' by lia. apply F1. lia. }
    split; [|congruence].
    intros [|i] Hi.
    + rewrite Nat.add_0_r, F' by lia. rewrite V1.
      eexists _, _. split; [reflexivity|]. split; [reflexivity|].
      cbn. lia.
    + destruct (Rows i) as (vo & own & E & U & L); [lia|].
      exists vo, own. rewrite NV in E.
      replace (next_vec w + S i)%nat with (S (next_vec w) + i)%nat by lia.
      split; [exact E|]. split; [exact U|]. lia.
Qed.

(** Where the constructor puts what it builds: the six arrays are the
    next six blocks, the vectors the next handles, and the array each
    vector got of its own lies after the six. *)
Lemma Optimizer_new_store P name w :
  (0 <= get_num_vars_local P <= get_num_vars P)%Z ->
  (0 <= get_num_cons P)%Z ->
  sum_local (get_mpi_comm P) (get_num_vars_local P) = get_num_vars P ->
  (get_num_cons P * get_num_vars_local P <= INT_MAX)%Z ->
  exists o w',
    Optimizer_new P name w = (Constructed o, w') /\
    vectors o = seq (next_vec w) (4 + Z.to_nat (get_num_cons P)) /\
    array_blocks o = seq (next_block w) 6 /\
    (forall i, (i < 4 + Z.to_nat (get_num_cons P))%nat ->
       exists vo own,
         vecs w' !! (next_vec w + i)%nat = Some vo /\
         v_unplaced vo = Some own /\ (next_block w + 6 <= p_block own)%nat) /\
    (forall v, (v < next_vec w)%nat -> vecs w' !! v = vecs w !! v) /\
    trace w' = trace w ++
      [EvGetMpiComm; EvGetNumVars; EvGetNumVarsLocal; EvGetNumCons].
Proof.
  intros Hn Hm Hs Hfit. unfold Optimizer_new.
  pose proof (fopen_store name w) as (_ & FB & FV & FN & FT).
  destruct (fopen name w) as [fp0 w0]. cbn [snd] in FB, FV, FN, FT. cbv zeta.
  rewrite (int_mul_fits _ _ Hm (proj1 Hn) Hfit), Z.eqb_refl.
  replace ((get_num_vars_local P <? 0)%Z || (get_num_cons P <? 0)%Z)
    with false
    by (symmetry; apply orb_false_iff; split; apply Z.ltb_ge; lia).
  cbn [negb orb].
  set (n := get_num_vars_local P) in *.
  set (m := get_num_cons P) in *.
  set (wa := emit EvGetNumCons _).
  assert (TA : trace wa = trace w ++
            [EvGetMpiComm; EvGetNumVars; EvGetNumVarsLocal; EvGetNumCons]).
  { subst wa. cbn [trace emit]. rewrite FT, <- !app_assoc. reflexivity. }
  assert (NA : next_vec wa = next_vec w) by exact FN.
  assert (BA : next_block wa = next_block w) by exact FB.
  assert (VA : vecs wa = vecs w) by exact FV.
  clearbody wa.
  destruct (ndarray_new_store n wa) as (ax & w1 & -> & Bx & B1 & N1 & V1 & T1 & _).
  destruct (ndarray_new_store n w1) as (alb & w2 & -> & Blb & B2 & N2 & V2 & T2 & _).
  destruct (ndarray_new_store n w2) as (aub & w3 & -> & Bub & B3 & N3 & V3 & T3 & _).
  destruct (ndarray_new_store n w3) as (ag & w4 & -> & Bg & B4 & N4 & V4 & T4 & _).
  destruct (ndarray_new_store m w4) as (ac & w5 & -> & Bc & B5 & N5 & V5 & T5 & _).
  destruct (ndarray_new_store (m * n) w5)
    as (agc & w6 & -> & Bgc & B6 & N6 & V6 & T6 & _).
  unfold_petsc.
  destruct (bind_petsc_vec_to_array_store (get_mpi_comm P) (get_num_vars P)
              n (nd_data ax) w6 Hn Hs) as (w7 & -> & N7 & B7 & L7 & F7 & T7).
  destruct (bind_petsc_vec_to_array_store (get_mpi_comm P) (get_num_vars P)
              n (nd_data ag) w7 Hn Hs) as (w8 & -> & N8 & B8 & L8 & F8 & T8).
  destruct (bind_petsc_vec_to_array_store (get_mpi_comm P) (get_num_vars P)
              n (nd_data alb) w8 Hn Hs) as (w9 & -> & N9 & B9 & L9 & F9 & T9).
  destruct (bind_petsc_vec_to_array_store (get_mpi_comm P) (get_num_vars P)
              n (nd_data aub) w9 Hn Hs) as (w10 & -> & N10 & B10 & L10 & F10 & T10).
  destruct (bind_gcon_rows_store (get_mpi_comm P) (get_num_vars P) n
              (nd_data agc) (Z.to_nat m) Hn Hs 0%nat w10)
    as (w11 & -> & N11 & F11 & Rows & T11).
  assert (NV6 : next_vec w6 = next_vec w) by congruence.
  assert (NB6 : next_block w6 = (next_block w + 6)%nat) by lia.
  eexists _, _. split; [reflexivity|].
  split.
  { unfold vectors. cbn [vec_x vec_g vec_lb vec_ub vec_gcon].
    rewrite N10, N9, N8, N7, NV6. reflexivity. }
  split.
  { unfold array_blocks. cbn [map np_x np_lb np_ub np_g np_cons np_gcon].
    rewrite Bx, Blb, Bub, Bg, Bc, Bgc, B5, B4, B3, B2, B1, BA.
    reflexivity. }
  split.
  { intros i Hi.
    assert (K : forall v b data,
              (v < next_vec w10)%nat ->
              vecs w10 !! v
              = Some (bound_vec (get_mpi_comm P) (get_num_vars P) n data
                        (Ptr b 0)) ->
              (next_block w + 6 <= b)%nat ->
              exists vo own,
                vecs w11 !! v = Some vo /\ v_unplaced vo = Some own /\
                (next_block w + 6 <= p_block own)%nat).
    { intros v b data Hv E Hb. rewrite (F11 v Hv), E.
      eexists _, _. split; [reflexivity|]. split; [reflexivity|]. exact Hb. }
    destruct i as [|[|[|[|j]]]].
    - eapply K; [lia| |].
      + rewrite Nat.add_0_r, <- NV6.
        rewrite F10, F9, F8 by lia. exact L7.
      + lia.
    - eapply K; [lia| |].
      + replace (next_vec w + 1)%nat with (next_vec w7) by lia.
        rewrite F10, F9 by lia. exact L8.
      + lia.
    - eapply K; [lia| |].
      + replace (next_vec w + 2)%nat with (next_vec w8) by lia.
        rewrite F10 by lia. exact L9.
      + lia.
    - eapply K; [lia| |].
      + replace (next_vec w + 3)%nat with (next_vec w9) by lia.
        exact L10.
      + lia.
    - destruct (Rows j) as (vo & own & E & U & L); [lia|].
      exists vo, own.
      replace (next_vec w + S (S (S (S j))))%nat
        with (next_vec w10 + j)%nat by lia.
      split; [exact E|]. split; [exact U|]. lia. }
  split.
  { intros v Hv.
    rewrite F11, F10, F9, F8, F7 by lia. congruence. }
  congruence.
Qed.

Lemma size_mismatch_eq comm gsize lsize data w :
  (0 <= gsize < lsize)%Z ->
  let w' := (new_vec {| v_comm := comm; v_n := -1; v_N := -1;
                        v_type := None; v_array := None;
                        v_unplaced := None |} w).2 in
  allocate_petsc_vec comm gsize lsize w = (Err PETSC_ERR_ARG_INCOMP, w') /\
  bind_petsc_vec_to_array comm gsize lsize data w
  = (Err PETSC_ERR_ARG_INCOMP, w').
Proof.
  intros H w'.
  assert (E : ((0 <=? gsize) && (gsize <? lsize))%Z = true).
  { apply andb_true_iff. split; [apply Z.leb_le | apply Z.ltb_lt]; lia. }
  unfold allocate_petsc_vec, bind_petsc_vec_to_array. unfold_petsc.
  unfold VecCreate. subst w'. unfold new_vec. cbv beta iota.
  unfold VecSetSizes. cbn [vecs snd]. rewrite lookup_insert_eq. rewrite E.
  split; reflexivity.
Qed.

(** A bind whose local size does not add up to the global size with
    those of the other ranks fails when the vector gets its type. *)
Lemma sum_mismatch_eq comm gsize lsize data w :
  (0 <= lsize <= gsize)%Z ->
  sum_local comm lsize <> gsize ->
  exists w',
    allocate_petsc_vec comm gsize lsize w = (Err PETSC_ERR_ARG_SIZ, w') /\
    bind_petsc_vec_to_array comm gsize lsize data w
    = (Err PETSC_ERR_ARG_SIZ, w') /\
    vecs w' !! next_vec w
    = Some {| v_comm := comm; v_n := lsize; v_N := gsize; v_type := None;
              v_array := None; v_unplaced := None |} /\
    next_vec w' = S (next_vec w) /\
    heap w' = heap w /\ next_block w' = next_block w /\
    files w' = files w /\ trace w' = trace w.
Proof.
  intros H Hs.
  unfold allocate_petsc_vec, bind_petsc_vec_to_array. unfold_petsc.
  unfold VecCreate, new_vec. cbv beta iota.
  unfold VecSetSizes. cbn [vecs]. rewrite lookup_insert_eq.
  cbn [v_n v_N v_comm v_type v_array v_unplaced].
  replace ((0 <=? gsize) && (gsize <? lsize))%Z with false
    by (symmetry; apply andb_false_iff; right; apply Z.ltb_ge; lia).
  cbn [orb andb negb Z.leb Z.compare Z.opp].
  unfold VecSetType, with_vecs. cbn [vecs]. rewrite lookup_insert_eq.
  cbn [v_n v_N v_comm v_type v_array v_unplaced].
  replace (lsize <? 0)%Z with false by (symmetry; apply Z.ltb_ge; lia).
  replace (0 <=? lsize)%Z with true by (symmetry; apply Z.leb_le; lia).
  replace (0 <=? gsize)%Z with true by (symmetry; apply Z.leb_le; lia).
  replace (sum_local comm lsize =? gsize)%Z with false
    by (symmetry; apply Z.eqb_neq; exact Hs).
  cbn [andb negb].
  eexists. split; [reflexivity|]. split; [reflexivity|].
  cbn [vecs next_vec heap next_block files trace].
  rewrite insert_insert_eq, lookup_insert_eq. repeat split.
Qed.

(** What a construction that completes tells about the sizes: the
    number of elements of the Jacobian fits an [int], and the local
    sizes add up to the global size. *)
Lemma Optimizer_new_sizes P name w o w' :
  (0 <= get_num_vars_local P <= get_num_vars P)%Z ->
  (0 <= get_num_cons P)%Z ->
  Optimizer_new P name w = (Constructed o, w') ->
  sum_local (get_mpi_comm P) (get_num_vars_local P) = get_num_vars P /\
  (get_num_cons P * get_num_vars_local P <= INT_MAX)%Z.
Proof.
  intros Hn Hm. unfold Optimizer_new.
  destruct (fopen name w) as [fp0 w0]. cbv zeta.
  replace ((get_num_vars_local P <? 0)%Z || (get_num_cons P <? 0)%Z)
    with false
    by (symmetry; apply orb_false_iff; split; apply Z.ltb_ge; lia).
  cbn [orb].
  destruct (int_mul (get_num_cons P) (get_num_vars_local P)
            =? get_num_cons P * get_num_vars_local P)%Z eqn:Emul;
    cbn [negb]; [|discriminate].
  apply Z.eqb_eq in Emul.
  assert (Hfit : (get_num_cons P * get_num_vars_local P <= INT_MAX)%Z).
  { apply int_wrap_fits in Emul. lia. }
  destruct (Z.eq_dec (sum_local (get_mpi_comm P) (get_num_vars_local P))
              (get_num_vars P)) as [Hs|Hs]; [intros _; split; assumption|].
  set (n := get_num_vars_local P) in *.
  set (m := get_num_cons P) in *.
  set (wa := emit EvGetNumCons _). clearbody wa.
  destruct (ndarray_new_store n wa) as (ax & w1 & -> & _).
  destruct (ndarray_new_store n w1) as (alb & w2 & -> & _).
  destruct (ndarray_new_store n w2) as (aub & w3 & -> & _).
  destruct (ndarray_new_store n w3) as (ag & w4 & -> & _).
  destruct (ndarray_new_store m w4) as (ac & w5 & -> & _).
  destruct (ndarray_new_store (int_mul m n) w5) as (agc & w6 & -> & _).
  unfold_petsc.
  destruct (sum_mismatch_eq (get_mpi_comm P) (get_num_vars P) n
              (nd_data ax) w6 Hn Hs) as (w7 & _ & -> & _).
  discriminate.
Qed.

Lemma Optimizer_new_Constructed P name w o w' :
  (0 <= get_num_vars P)%Z ->
  Optimizer_new P name w = (Constructed o, w') ->
  (0 <= get_num_vars_local P <= get_num_vars P)%Z /\
  (0 <= get_num_cons P)%Z /\
  sum_local (get_mpi_comm P) (get_num_vars_local P) = get_num_vars P /\
  (get_num_cons P * get_num_vars_local P <= INT_MAX)%Z.
Proof.
  intros Hnv E.
  assert (H : (0 <= get_num_vars_local P <= get_num_vars P)%Z /\
              (0 <= get_num_cons P)%Z).
  { revert E. unfold Optimizer_new.
    destruct (fopen name w) as [fp0 w0]. cbv zeta.
    destruct (get_num_vars_local P <? 0)%Z eqn:E1; [discriminate|].
    destruct (get_num_cons P <? 0)%Z eqn:E2; [discriminate|].
    cbn [orb].
    destruct (negb (int_mul (get_num_cons P) (get_num_vars_local P)
                    =? get_num_cons P * get_num_vars_local P)%Z);
      [discriminate|].
    apply Z.ltb_ge in E1, E2.
    destruct (Z_le_gt_dec (get_num_vars_local P) (get_num_vars P))
      as [Hle|Hgt]; [intros _; lia|].
    set (n := get_num_vars_local P) in *.
    set (m := get_num_cons P) in *.
    set (wa := emit EvGetNumCons _). clearbody wa.
    destruct (ndarray_new_store n wa) as (ax & w1 & -> & _).
    destruct (ndarray_new_store n w1) as (alb & w2 & -> & _).
    destruct (ndarray_new_store n w2) as (aub & w3 & -> & _).
    destruct (ndarray_new_store n w3) as (ag & w4 & -> & _).
    destruct (ndarray_new_store m w4) as (ac & w5 & -> & _).
    destruct (ndarray_new_store (int_mul m n) w5) as (agc & w6 & -> & _).
    unfold_petsc.
    assert (Hn : (0 <= get_num_vars P < n)%Z) by lia.
    destruct (size_mismatch_eq (get_mpi_comm P) (get_num_vars P) n
                (nd_data ax) w6 Hn) as [_ ->].
    discriminate. }
  destruct H as [Hn Hm].
  destruct (Optimizer_new_sizes P name w o w' Hn Hm E) as [Hs Hfit].
  auto.
Qed.

Lemma Optimizer_new_wf P name w o w' :
  (0 <= get_num_vars_local P <= get_num_vars P)%Z ->
  (0 <= get_num_cons P)%Z ->
  Optimizer_new P name w = (Constructed o, w') ->
  opt_wf o w'.
Proof.
  intros Hn Hm E.
  destruct (Optimizer_new_sizes P name w o w' Hn Hm E) as [Hs Hfit].
  destruct (Optimizer_new_spec P name w Hn Hm Hs Hfit)
    as (o' & w'' & E' & Hwf & _).
  rewrite E in E'. injection E' as <- <-. exact Hwf.
Qed.

(** The constructor leaves the object in the state [opt_owns]. *)
Lemma Optimizer_new_owns P name w o w' :
  (0 <= get_num_vars_local P <= get_num_vars P)%Z ->
  (0 <= get_num_cons P)%Z ->
  Optimizer_new P name w = (Constructed o, w') ->
  opt_owns o w'.
Proof.
  intros Hn Hm E.
  destruct (Optimizer_new_sizes P name w o w' Hn Hm E) as [Hs Hfit].
  destruct (Optimizer_new_store P name w Hn Hm Hs Hfit)
    as (o' & w'' & E' & Hv & Ha & Own & _).
  rewrite E in E'. injection E' as <- <-.
  constructor.
  - rewrite Hv. apply NoDup_seq.
  - intros v Hin. rewrite Hv in Hin. apply elem_of_seq in Hin.
    destruct (Own (v - next_vec w)%nat) as (vo & own & E1 & E2 & E3); [lia|].
    replace (next_vec w + (v - next_vec w))%nat with v in E1 by lia.
    exists vo, own. split; [exact E1|]. split; [exact E2|].
    rewrite Ha. rewrite elem_of_seq. lia.
Qed.

(** *** The destructor *)

Lemma destroy_all_spec (keep : list nat) (vs : list Vec) :
  forall w,
  NoDup vs ->
  (forall v, v ∈ vs ->
     exists vo own,
       vecs w !! v = Some vo /\ v_unplaced vo = Some own /\
       p_block own ∉ keep) ->
  exists w',
    destroy_all vs w = (Ok tt, w') /\
    (forall v, v ∈ vs -> vecs w' !! v = None) /\
    (forall v, v ∉ vs -> vecs w' !! v = vecs w !! v) /\
    (forall b, b ∈ keep -> heap w' !! b = heap w !! b) /\
    files w' = files w /\ trace w' = trace w.
Proof.
  induction vs as [|v vs IH]; intros w ND H.
  - exists w. split; [reflexivity|].
    split; [intros v Hv; apply elem_of_nil in Hv; destruct Hv|].
    repeat split.
  - apply NoDup_cons in ND as [Hnin ND].
    destruct (H v) as (vo & own & E & U & K);
      [apply elem_of_cons; left; reflexivity|].
    cbn [destroy_all]. unfold_petsc. unfold VecDestroy at 1. rewrite E.
    unfold own_array. rewrite U.
    set (w1 := with_vecs _ _).
    destruct (IH w1 ND) as (w' & -> & G & F & Hk & Hf & Ht).
    { intros v' Hv'. destruct (H v') as (vo' & own' & E' & U' & K');
        [apply elem_of_cons; right; exact Hv'|].
      exists vo', own'. split; [|split; assumption].
      subst w1. cbn [vecs with_vecs]. rewrite lookup_delete_ne; [exact E'|].
      intros ->. exact (Hnin Hv'). }
    exists w'. split; [reflexivity|].
    split.
    { intros v' Hv'. apply elem_of_cons in Hv' as [->|Hv']; [|apply G, Hv'].
      rewrite (F v Hnin). subst w1. cbn [vecs with_vecs].
      apply lookup_delete_eq. }
    split.
    { intros v' Hv'. rewrite F.
      - subst w1. cbn [vecs with_vecs]. apply lookup_delete_ne.
        intros ->. apply Hv'. apply elem_of_cons. left. reflexivity.
      - intros Hin. apply Hv'. apply elem_of_cons. right. exact Hin. }
    split.
    { intros b Hb. rewrite (Hk b Hb). subst w1.
      cbn [heap with_vecs with_heap]. apply lookup_delete_ne.
      intros Heq. apply K. rewrite Heq. exact Hb. }
    split; [rewrite Hf | rewrite Ht]; reflexivity.
Qed.

Lemma destroy_gcon_rows_all (gcon : list Vec) (n : nat) :
  forall i w,
  (i + n = length gcon)%nat ->
  destroy_gcon_rows gcon i n w = destroy_all (drop i gcon) w.
Proof.
  induction n as [|n IH]; intros i w H.
  - rewrite drop_ge by lia. reflexivity.
  - cbn [destroy_gcon_rows].
    destruct (lookup_lt_is_Some_2 gcon i) as (v & Ev); [lia|].
    rewrite Ev. rewrite (drop_S _ _ _ Ev). cbn [destroy_all]. unfold_petsc.
    destruct (VecDestroy v w) as [[[]|e] w1]; [|reflexivity].
    apply IH. lia.
Qed.

Lemma destructor_body o w :
  length (vec_gcon o) = Z.to_nat (get_num_cons (prob o)) ->
  (VecDestroy (vec_x o);; VecDestroy (vec_g o);; VecDestroy (vec_lb o);;
   VecDestroy (vec_ub o);;
   destroy_gcon_rows (vec_gcon o) 0 (Z.to_nat (get_num_cons (prob o)))) w
  = destroy_all (vectors o) w.
Proof.
  intros H. unfold vectors. cbn [app destroy_all]. unfold_petsc.
  destruct (VecDestroy (vec_x o) w) as [[[]|e] w1]; [|reflexivity].
  destruct (VecDestroy (vec_g o) w1) as [[[]|e] w2]; [|reflexivity].
  destruct (VecDestroy (vec_lb o) w2) as [[[]|e] w3]; [|reflexivity].
  destruct (VecDestroy (vec_ub o) w3) as [[[]|e] w4]; [|reflexivity].
  rewrite destroy_gcon_rows_all by (rewrite H; reflexivity).
  rewrite drop_0. reflexivity.
Qed.

(** What the destructor does to a well-formed object. *)
Lemma Optimizer_delete_spec o w f :
  opt_wf o w -> opt_owns o w -> fp o = Some f ->
  exists w',
    Optimizer_delete o w = (Destroyed, w') /\
    (forall v, v ∈ vectors o -> vecs w' !! v = None) /\
    (forall v, v ∉ vectors o -> vecs w' !! v = vecs w !! v) /\
    (forall a, p_block (nd_data a) ∈ array_blocks o ->
       nd_read w' a = nd_read w a) /\
    files w' = files w.
Proof.
  intros Hwf [ND Own] Hf. unfold Optimizer_delete. rewrite Hf. cbv zeta.
  rewrite (destructor_body o _ (wf_rows_len _ _ Hwf)).
  destruct (destroy_all_spec (array_blocks o) (vectors o)
              (emit EvGetNumCons (emit EvGetMpiComm w)) ND Own)
    as (w' & -> & G & F & K & Hfiles & _).
  exists w'. split; [reflexivity|]. split; [exact G|]. split; [exact F|].
  split; [|exact Hfiles].
  intros a Ha. apply nd_read_ext. exact (K _ Ha).
Qed.

(** X4. The destructor of an object with an open log: it completes; every
    vector of the object is released, and no other vector; the six arrays
    hold what they held (a bound vector does not own the array it is bound
    to, so the design handed out by [getOptimizedDesign] survives the
    vectors); the files are untouched. *)
Theorem destructor_releases_the_vectors_only o w f :
  opt_wf o w -> opt_owns o w -> fp o = Some f ->
  exists w',
    Optimizer_delete o w = (Destroyed, w') /\
    (forall v, v ∈ vectors o -> vecs w' !! v = None) /\
    (forall v, v ∉ vectors o -> vecs w' !! v = vecs w !! v) /\
    (forall a, p_block (nd_data a) ∈ array_blocks o ->
       nd_read w' a = nd_read w a) /\
    files w' = files w.
Proof. exact (Optimizer_delete_spec o w f). Qed.

(** *** The life of an optimizer object *)

Lemma release_vecs_frame o lbt ubt w v :
  loop_inv o lbt ubt w -> v <> lbt -> v <> ubt ->
  vecs ((VecDestroy lbt;; VecDestroy ubt;; mret tt) w).2 !! v = vecs w !! v.
Proof.
  intros [Hwf (bl & bu & Hl & Hu & _ & _ & Hne & _)] N1 N2.
  assert (Hlu : lbt <> ubt).
  { intros ->. rewrite Hl in Hu. injection Hu as Hu. congruence. }
  unfold_petsc. unfold VecDestroy. rewrite Hl.
  cbn [own_array owned_vec v_unplaced v_array p_block].
  unfold with_vecs, with_heap.
  cbn [heap next_block vecs next_vec uninit writable files trace].
  rewrite lookup_delete_ne by exact Hlu. rewrite Hu.
  cbn [own_array owned_vec v_unplaced v_array p_block snd vecs].
  rewrite !lookup_delete_ne by congruence. reflexivity.
Qed.

(** [optimize] leaves alone every vector that exists when it is
    called. *)
Lemma optimize_vecs_frame M o niter w f v :
  opt_wf o w ->
  comm_rank (get_mpi_comm (prob o)) = 0%Z -> fp o = Some f ->
  (v < next_vec w)%nat ->
  vecs (optimize M o niter w).2 !! v = vecs w !! v.
Proof.
  intros Hwf Hr Hf Hv.
  destruct (optimize_setup_spec M o w Hwf)
    as (w1 & E1 & LI & EB & T1 & F1 & U1 & W1 & X1).
  unfold optimize. unfold_petsc. rewrite E1. cbv beta iota.
  unfold mma_scope, optimize_run. unfold_petsc.
  destruct (loop_inv_layout _ _ _ _ LI) as (bl & bu & L).
  destruct (optimize_loop_sim M o (next_vec w) (S (next_vec w)) bl bu f
              (Z.to_nat niter) Hr Hf w1 0%Z
              (MMA_new M (get_num_vars (prob o)) (get_num_cons (prob o))
                 (b_x (setup_on_bufs (prob o)
                         (get_bufs o (next_vec w) (S (next_vec w)) w)))) L)
    as (w2 & E2 & S2).
  rewrite E2.
  destruct S2 as (SS & _).
  pose proof (loop_inv_shape _ _ _ _ _ SS LI) as LI2.
  destruct SS as (V2 & _).
  destruct X1 as (_ & _ & _ & X1).
  destruct ((loop_on_bufs (prob o) M (Z.to_nat niter) _ 0 _).1.1.1)
    as [[]|e].
  - pose proof (release_vecs_frame o (next_vec w) (S (next_vec w)) w2 v LI2)
      as FR.
    destruct (release_spec o (next_vec w) (S (next_vec w)) w2 LI2)
      as (w3 & E3 & _).
    rewrite E3 in FR. cbn [snd] in FR.
    unfold mbind, petsc_bind, mret, petsc_ret in E3.
    cbv beta iota in E3 |- *. rewrite E3. cbn [snd vecs emit].
    rewrite FR by lia. rewrite V2. apply X1. exact Hv.
  - cbn [snd vecs emit]. rewrite V2. apply X1. exact Hv.
Qed.

Lemma opt_wf_vectors_below o w v :
  opt_wf o w -> v ∈ vectors o -> (v < next_vec w)%nat.
Proof.
  intros Hwf Hin. unfold vectors in Hin.
  apply elem_of_app in Hin as [Hin|Hin].
  - repeat (apply elem_of_cons in Hin as [->|Hin]);
      [apply (wf_vec_x _ _ Hwf) | apply (wf_vec_g _ _ Hwf)
      | apply (wf_vec_lb _ _ Hwf) | apply (wf_vec_ub _ _ Hwf) |].
    apply elem_of_nil in Hin. destruct Hin.
  - apply list_elem_of_lookup_1 in Hin as (i & Hi).
    apply (wf_rows _ _ Hwf i v Hi).
Qed.

Lemma optimize_keeps_owns M o niter w f r w' :
  opt_wf o w -> opt_owns o w ->
  comm_rank (get_mpi_comm (prob o)) = 0%Z -> fp o = Some f ->
  optimize M o niter w = (r, w') ->
  opt_wf o w' /\ opt_owns o w'.
Proof.
  intros Hwf [ND Own] Hr Hf E.
  destruct (optimize_spec M o niter w f Hwf Hr Hf) as (w'' & E' & Hwf' & _).
  rewrite E in E'. injection E' as _ <-.
  split; [exact Hwf'|]. constructor; [exact ND|].
  intros v Hin. destruct (Own v Hin) as (vo & own & E1 & E2 & E3).
  exists vo, own. split; [|split; assumption].
  pose proof (optimize_vecs_frame M o niter w f v Hwf Hr Hf
                (opt_wf_vectors_below _ _ _ Hwf Hin)) as FR.
  rewrite E in FR. cbn [snd] in FR. rewrite FR. exact E1.
Qed.

(** X5. An object built with a log that opens, used for one call of
    [optimize] (however the call ends) and then destroyed: the destructor
    completes and releases the vectors of the object; the design array still
    holds the design after it, as does the log; and the vectors that existed
    before the object was built are what they were. *)
Theorem design_outlives_the_vectors P M name niter w o w1 r w2 :
  (0 <= get_num_vars_local P <= get_num_vars P)%Z ->
  (0 <= get_num_cons P)%Z ->
  writable w name = true -> comm_rank (get_mpi_comm P) = 0%Z ->
  Optimizer_new P name w = (Constructed o, w1) ->
  optimize M o niter w1 = (r, w2) ->
  exists w3,
    Optimizer_delete o w2 = (Destroyed, w3) /\
    nd_read w3 (getOptimizedDesign o) = nd_read w2 (getOptimizedDesign o) /\
    (forall v, v ∈ vectors o -> vecs w3 !! v = None) /\
    (forall v, (v < next_vec w)%nat -> vecs w3 !! v = vecs w !! v) /\
    files w3 = files w2.
Proof.
  intros Hn Hm Hw Hr E1 E2.
  destruct (Optimizer_new_sizes P name w o w1 Hn Hm E1) as [Hs Hfit].
  destruct (Optimizer_new_spec P name w Hn Hm Hs Hfit)
    as (o' & w1' & E1' & Hwf & HP & _ & Hfp & _).
  rewrite E1 in E1'. injection E1' as <- <-.
  unfold fopen in Hfp. rewrite Hw in Hfp. cbn [fst] in Hfp.
  pose proof (Optimizer_new_owns P name w o w1 Hn Hm E1) as Hown.
  destruct (Optimizer_new_store P name w Hn Hm Hs Hfit)
    as (o' & w1' & E1' & Hvs & _ & _ & Fr1 & _).
  rewrite E1 in E1'. injection E1' as <- <-.
  rewrite <- HP in Hr.
  destruct (optimize_keeps_owns M o niter w1 name r w2 Hwf Hown Hr Hfp E2)
    as [Hwf2 Hown2].
  destruct (Optimizer_delete_spec o w2 name Hwf2 Hown2 Hfp)
    as (w3 & E3 & G & F & A & Hfiles).
  exists w3. split; [exact E3|].
  split.
  { apply A. unfold getOptimizedDesign, array_blocks. cbn [map].
    apply elem_of_cons. left. reflexivity. }
  split; [exact G|]. split; [|exact Hfiles].
  intros v Hv.
  assert (Hlt : (next_vec w < next_vec w1)%nat).
  { pose proof (opt_wf_vectors_below o w1 (next_vec w) Hwf) as H.
    apply H. rewrite Hvs. apply elem_of_seq. lia. }
  rewrite F.
  - pose proof (optimize_vecs_frame M o niter w1 name v Hwf Hr Hfp) as FR.
    rewrite E2 in FR. cbn [snd] in FR. rewrite FR by lia. apply Fr1. exact Hv.
  - rewrite Hvs. rewrite elem_of_seq. lia.
Qed.

Lemma toy_owns : opt_owns toy_o toy_w.
Proof.
  apply (Optimizer_new_owns toy_problem "mma4py.log" world0 toy_o toy_w);
    [simpl; lia | simpl; lia | exact toy_constructed].
Qed.

Lemma destructor_releases_the_vectors_only_witness :
  exists w',
    Optimizer_delete toy_o toy_w = (Destroyed, w') /\
    (forall v, v ∈ vectors toy_o -> vecs w' !! v = None) /\
    nd_read w' (np_x toy_o) = nd_read toy_w (np_x toy_o).
Proof.
  destruct (destructor_releases_the_vectors_only toy_o toy_w "mma4py.log"
              toy_wf toy_owns eq_refl) as (w' & E & G & _ & A & _).
  exists w'. split; [exact E|]. split; [exact G|].
  apply A. apply elem_of_cons. left. reflexivity.
Defined.

Lemma design_outlives_the_vectors_witness :
  exists w3,
    Optimizer_delete toy_o toy_w3 = (Destroyed, w3) /\
    nd_read w3 (getOptimizedDesign toy_o)
    = nd_read toy_w3 (getOptimizedDesign toy_o) /\
    (forall v, v ∈ vectors toy_o -> vecs w3 !! v = None).
Proof.
  destruct (design_outlives_the_vectors toy_problem toy_M "mma4py.log" 3
              world0 toy_o toy_w (Ok tt) toy_w3)
    as (w3 & E & D & G & _);
    [simpl; lia | simpl; lia | reflexivity | reflexivity
    | exact toy_constructed | exact toy_three_passes |].
  exists w3. split; [exact E|]. split; [exact D | exact G].
Defined.

(** *** The constructor (lines 36-75) *)

(** X6. In the store that a construction that completes leaves, and in
    every store that differs from it only by the numbers the blocks hold,
    each vector reads what its array holds: the design, the gradient and
    the two bounds, and for the Jacobian one vector per row of the
    row-major block. The sizes were then such that the construction could
    complete: none negative, local sizes that add up to the global size,
    and a Jacobian whose number of elements fits an [int]. *)
Theorem constructor_binds_every_array P name w o w' :
  (0 <= get_num_vars P)%Z ->
  Optimizer_new P name w = (Constructed o, w') ->
  ((0 <= get_num_vars_local P <= get_num_vars P)%Z /\
   (0 <= get_num_cons P)%Z /\
   sum_local (get_mpi_comm P) (get_num_vars_local P) = get_num_vars P /\
   (get_num_cons P * get_num_vars_local P <= INT_MAX)%Z) /\
  forall w'', same_shape w' w'' ->
    vec_read w'' (vec_x o) = nd_read w'' (np_x o) /\
    vec_read w'' (vec_g o) = nd_read w'' (np_g o) /\
    vec_read w'' (vec_lb o) = nd_read w'' (np_lb o) /\
    vec_read w'' (vec_ub o) = nd_read w'' (np_ub o) /\
    map (vec_read w'') (vec_gcon o)
    = rows_of (Z.to_nat (get_num_vars_local P))
        (Z.to_nat (get_num_cons P)) (nd_read w'' (np_gcon o)) /\
    length (nd_read w'' (np_x o)) = Z.to_nat (get_num_vars_local P) /\
    length (nd_read w'' (np_cons o)) = Z.to_nat (get_num_cons P) /\
    length (nd_read w'' (np_gcon o))
    = (Z.to_nat (get_num_cons P) * Z.to_nat (get_num_vars_local P))%nat.
Proof.
  intros Hnv E.
  pose proof (Optimizer_new_Constructed P name w o w' Hnv E) as Hsz.
  split; [exact Hsz|]. destruct Hsz as (Hn & Hm & Hs & Hfit).
  destruct (Optimizer_new_spec P name w Hn Hm Hs Hfit)
    as (o' & w1 & E' & Hwf & HP & _).
  rewrite E in E'. injection E' as <- <-.
  intros w'' SS. pose proof (opt_wf_shape _ _ _ SS Hwf) as Hwf2.
  rewrite <- HP.
  split; [eapply vec_read_view; [apply (wf_x _ _ Hwf2) | apply (wf_vec_x _ _ Hwf2)]|].
  split; [eapply vec_read_view; [apply (wf_g _ _ Hwf2) | apply (wf_vec_g _ _ Hwf2)]|].
  split; [eapply vec_read_view; [apply (wf_lb _ _ Hwf2) | apply (wf_vec_lb _ _ Hwf2)]|].
  split; [eapply vec_read_view; [apply (wf_ub _ _ Hwf2) | apply (wf_vec_ub _ _ Hwf2)]|].
  split; [apply rows_read; exact Hwf2|].
  split; [apply nd_read_length, (wf_x _ _ Hwf2)|].
  split; [apply nd_read_length, (wf_cons _ _ Hwf2)|].
  apply nd_read_length, (wf_gcon _ _ Hwf2).
Qed.

Lemma constructor_binds_every_array_witness :
  vec_read toy_w (vec_x toy_o) = nd_read toy_w (np_x toy_o) /\
  map (vec_read toy_w) (vec_gcon toy_o)
  = rows_of (Z.to_nat (get_num_vars_local toy_problem))
      (Z.to_nat (get_num_cons toy_problem)) (nd_read toy_w (np_gcon toy_o)).
Proof.
  destruct (constructor_binds_every_array toy_problem "mma4py.log" world0
              toy_o toy_w) as (_ & H);
    [simpl; lia | exact toy_constructed |].
  destruct (H toy_w (same_shape_refl toy_w)) as (H1 & _ & _ & _ & H5 & _).
  split; [exact H1 | exact H5].
Defined.

Lemma quiet_ret {A} (a : A) : quiet (mret a).
Proof. intros w. split; reflexivity. Qed.

Lemma quiet_bind {A B} (m : petsc A) (k : A -> petsc B) :
  quiet m -> (forall a, quiet (k a)) -> quiet (m ≫= k).
Proof.
  intros Hm Hk w. unfold mbind, petsc_bind. specialize (Hm w).
  destruct (m w) as [[a|e] w1]; cbn [snd] in *; [|exact Hm].
  destruct (Hk a w1) as [F T]. destruct Hm as [F1 T1].
  split; congruence.
Qed.

Ltac quiet_step :=
  intros ?;
  repeat match goal with
         | |- context [match ?x with _ => _ end] => destruct x
         end;
  split; reflexivity.

Lemma quiet_bind_petsc_vec_to_array comm gsize lsize data :
  quiet (bind_petsc_vec_to_array comm gsize lsize data).
Proof.
  unfold bind_petsc_vec_to_array.
  apply quiet_bind; [unfold VecCreate, new_vec; quiet_step|]. intros x.
  apply quiet_bind; [unfold VecSetSizes; quiet_step|]. intros _.
  apply quiet_bind; [unfold VecSetType, alloc_block; quiet_step|]. intros _.
  apply quiet_bind; [unfold VecPlaceArray; quiet_step|]. intros _.
  apply quiet_ret.
Qed.

Lemma quiet_bind_gcon_rows comm nvars nvars_l gcon_data n :
  forall offset, quiet (bind_gcon_rows comm nvars nvars_l gcon_data n offset).
Proof.
  induction n as [|n IH]; intros offset; cbn [bind_gcon_rows].
  - apply quiet_ret.
  - apply quiet_bind; [apply quiet_bind_petsc_vec_to_array|]. intros v.
    apply quiet_bind; [apply IH|]. intros vs. apply quiet_ret.
Qed.

(** However the constructor ends, the files are those [fopen] left, the
    problem has been asked the communicator and the three sizes and
    nothing else, and an object that is built holds what [fopen]
    returned. *)
Lemma Optimizer_new_files P name w :
  files (Optimizer_new P name w).2 = files (fopen name w).2 /\
  trace (Optimizer_new P name w).2
  = trace w ++ [EvGetMpiComm; EvGetNumVars; EvGetNumVarsLocal; EvGetNumCons] /\
  (forall o, (Optimizer_new P name w).1 = Constructed o ->
     fp o = (fopen name w).1 /\ prob o = P /\ log_name o = name).
Proof.
  unfold Optimizer_new.
  pose proof (fopen_store name w) as (_ & _ & _ & _ & FT).
  destruct (fopen name w) as [fp0 w0]. cbn [fst snd] in *. cbv zeta.
  set (wa := emit EvGetNumCons _).
  assert (TA : trace wa = trace w ++
            [EvGetMpiComm; EvGetNumVars; EvGetNumVarsLocal; EvGetNumCons]).
  { subst wa. cbn [trace emit]. rewrite FT, <- !app_assoc. reflexivity. }
  assert (FA : files wa = files w0) by reflexivity.
  clearbody wa.
  destruct ((get_num_vars_local P <? 0) || (get_num_cons P <? 0)
            || negb (int_mul (get_num_cons P) (get_num_vars_local P)
                     =? get_num_cons P * get_num_vars_local P))%Z.
  { cbn [fst snd]. split; [exact FA|]. split; [exact TA|]. discriminate. }
  destruct (ndarray_new_store (get_num_vars_local P) wa)
    as (ax & w1 & -> & _ & _ & _ & _ & T1 & F1).
  destruct (ndarray_new_store (get_num_vars_local P) w1)
    as (alb & w2 & -> & _ & _ & _ & _ & T2 & F2).
  destruct (ndarray_new_store (get_num_vars_local P) w2)
    as (aub & w3 & -> & _ & _ & _ & _ & T3 & F3).
  destruct (ndarray_new_store (get_num_vars_local P) w3)
    as (ag & w4 & -> & _ & _ & _ & _ & T4 & F4).
  destruct (ndarray_new_store (get_num_cons P) w4)
    as (ac & w5 & -> & _ & _ & _ & _ & T5 & F5).
  destruct (ndarray_new_store
              (int_mul (get_num_cons P) (get_num_vars_local P)) w5)
    as (agc & w6 & -> & _ & _ & _ & _ & T6 & F6).
  assert (F : files w6 = files w0) by congruence.
  assert (T : trace w6 = trace w ++
            [EvGetMpiComm; EvGetNumVars; EvGetNumVarsLocal; EvGetNumCons])
    by congruence.
  clear - F T.
  match goal with |- context [match ?b w6 with _ => _ end] =>
    set (binds := b) end.
  assert (Q : quiet binds).
  { subst binds.
    apply quiet_bind; [apply quiet_bind_petsc_vec_to_array|]. intros x.
    apply quiet_bind; [apply quiet_bind_petsc_vec_to_array|]. intros g.
    apply quiet_bind; [apply quiet_bind_petsc_vec_to_array|]. intros lb.
    apply quiet_bind; [apply quiet_bind_petsc_vec_to_array|]. intros ub.
    apply quiet_bind; [apply quiet_bind_gcon_rows|]. intros gcon.
    apply quiet_ret. }
  assert (S : forall o, (binds w6).1 = Ok o ->
                fp o = fp0 /\ prob o = P /\ log_name o = name).
  { subst binds. unfold_petsc. intros o.
    repeat match goal with
           | |- context [match ?m ?w with _ => _ end] =>
               destruct (m w) as [[?|?] ?]
           end; cbn [fst]; try discriminate.
    intros [= <-]. repeat split. }
  destruct (Q w6) as [QF QT].
  destruct (binds w6) as [[o|e] w7]; cbn [fst snd] in *.
  - split; [congruence|]. split; [congruence|].
    intros o' [= <-]. apply S. reflexivity.
  - split; [congruence|]. split; [congruence|]. discriminate.
Qed.

(** X7. The constructor opens the log with mode ["w+"] before anything else:
    when the file can be opened, what it held is gone however the
    constructor ends, and no other file is touched. Of the problem the
    constructor asks the communicator and the three sizes, nothing else.
    An object that is built holds the stream of the log. *)
Theorem constructor_empties_the_log P name w :
  writable w name = true ->
  files (Optimizer_new P name w).2 !! name = Some ""%string /\
  (forall f', f' <> name ->
     files (Optimizer_new P name w).2 !! f' = files w !! f') /\
  trace (Optimizer_new P name w).2
  = trace w ++ [EvGetMpiComm; EvGetNumVars; EvGetNumVarsLocal; EvGetNumCons] /\
  (forall o, (Optimizer_new P name w).1 = Constructed o ->
     fp o = Some name /\ prob o = P /\ log_name o = name).
Proof.
  intros Hw.
  destruct (Optimizer_new_files P name w) as (F & T & S).
  unfold fopen in F, S. rewrite Hw in F, S.
  cbn [fst snd files with_files] in F, S.
  rewrite F. split; [apply lookup_insert_eq|].
  split; [intros f' Hf'; apply lookup_insert_ne; congruence|].
  split; [exact T | exact S].
Qed.

Lemma constructor_empties_the_log_witness :
  files (Optimizer_new toy_problem "mma4py.log" toy_w3).2
    !! "mma4py.log"%string = Some ""%string /\
  file_text toy_w3 "mma4py.log" <> ""%string.
Proof.
  destruct (constructor_empties_the_log toy_problem "mma4py.log" toy_w3)
    as (H & _); [vm_compute; reflexivity|].
  split; [exact H|]. vm_compute. discriminate.
Defined.

(** X8. A local size above the global size, with a Jacobian whose number
    of elements fits an [int]: the first bind of the constructor fails and
    [PetscCallAbort] ends the process with the code of [VecSetSizes]. By
    then the log has been opened, and so emptied, and the six arrays have
    been allocated. *)
Theorem constructor_aborts_on_size_mismatch P name w :
  (0 <= get_num_vars P < get_num_vars_local P)%Z ->
  (0 <= get_num_cons P)%Z ->
  (get_num_cons P * get_num_vars_local P <= INT_MAX)%Z ->
  exists w',
    Optimizer_new P name w = (Aborted PETSC_ERR_ARG_INCOMP, w') /\
    (writable w name = true -> files w' !! name = Some ""%string) /\
    next_block w' = (next_block w + 6)%nat /\
    trace w' = trace w ++
      [EvGetMpiComm; EvGetNumVars; EvGetNumVarsLocal; EvGetNumCons].
Proof.
  intros Hn Hm Hfit. unfold Optimizer_new.
  pose proof (fopen_store name w) as (_ & FB & _ & _ & FT).
  assert (FF : writable w name = true ->
               files (fopen name w).2 !! name = Some ""%string).
  { intros Hw. unfold fopen. rewrite Hw. cbn [snd files with_files].
    apply lookup_insert_eq. }
  destruct (fopen name w) as [fp0 w0]. cbn [snd] in FB, FT, FF. cbv zeta.
  assert (Hl : (0 <= get_num_vars_local P)%Z) by lia.
  rewrite (int_mul_fits _ _ Hm Hl Hfit), Z.eqb_refl.
  replace ((get_num_vars_local P <? 0)%Z || (get_num_cons P <? 0)%Z)
    with false
    by (symmetry; apply orb_false_iff; split; apply Z.ltb_ge; lia).
  cbn [negb orb].
  set (n := get_num_vars_local P) in *.
  set (m := get_num_cons P) in *.
  set (wa := emit EvGetNumCons _).
  assert (TA : trace wa = trace w ++
            [EvGetMpiComm; EvGetNumVars; EvGetNumVarsLocal; EvGetNumCons]).
  { subst wa. cbn [trace emit]. rewrite FT, <- !app_assoc. reflexivity. }
  assert (BA : next_block wa = next_block w) by exact FB.
  assert (FA : files wa = files w0) by reflexivity.
  clearbody wa.
  destruct (ndarray_new_store n wa) as (ax & w1 & -> & _ & B1 & _ & _ & T1 & F1).
  destruct (ndarray_new_store n w1) as (alb & w2 & -> & _ & B2 & _ & _ & T2 & F2).
  destruct (ndarray_new_store n w2) as (aub & w3 & -> & _ & B3 & _ & _ & T3 & F3).
  destruct (ndarray_new_store n w3) as (ag & w4 & -> & _ & B4 & _ & _ & T4 & F4).
  destruct (ndarray_new_store m w4) as (ac & w5 & -> & _ & B5 & _ & _ & T5 & F5).
  destruct (ndarray_new_store (m * n) w5)
    as (agc & w6 & -> & _ & B6 & _ & _ & T6 & F6).
  unfold_petsc.
  destruct (size_mismatch_eq (get_mpi_comm P) (get_num_vars P) n
              (nd_data ax) w6 Hn) as [_ ->].
  eexists. split; [reflexivity|]. cbn [new_vec snd files next_block trace].
  split; [intros Hw; rewrite F6, F5, F4, F3, F2, F1, FA; exact (FF Hw)|].
  split; [lia | congruence].
Qed.

Lemma constructor_aborts_on_size_mismatch_witness :
  exists w',
    Optimizer_new
      {| get_mpi_comm := comm_self; get_num_vars := 2;
         get_num_vars_local := 3; get_num_cons := 1;
         getVarsAndBounds := getVarsAndBounds toy_problem;
         evalObjCon := evalObjCon toy_problem;
         evalObjConGrad := evalObjConGrad toy_problem |}
      "mma4py.log" toy_w3
    = (Aborted 75%Z, w') /\
    files w' !! "mma4py.log"%string = Some ""%string.
Proof.
  destruct (constructor_aborts_on_size_mismatch
              {| get_mpi_comm := comm_self; get_num_vars := 2;
                 get_num_vars_local := 3; get_num_cons := 1;
                 getVarsAndBounds := getVarsAndBounds toy_problem;
                 evalObjCon := evalObjCon toy_problem;
                 evalObjConGrad := evalObjConGrad toy_problem |}
              "mma4py.log" toy_w3) as (w' & E & F & _);
    [simpl; lia | simpl; lia | vm_compute; discriminate |].
  exists w'. split; [exact E|]. apply F. vm_compute. reflexivity.
Defined.

(** *** What a call of [optimize] leaves *)

Lemma iteration_on_bufs_bounds P M B iter mma :
  b_lb (iteration_on_bufs P M B iter mma).1.1.2 = b_lb B /\
  b_ub (iteration_on_bufs P M B iter mma).1.1.2 = b_ub B.
Proof.
  unfold iteration_on_bufs.
  destruct (evalObjCon P (b_x B) (b_cons B)) as [obj cons0].
  destruct (evalObjConGrad P (b_x B) (b_g B) (b_gcon B)) as [g0 gcon0].
  destruct (SetOuterMovelimit M mma (b_lb B) (b_ub B) movelim (b_x B)
              (b_lbt B) (b_ubt B)) as [[[ierr mma1] lo0] hi0].
  destruct (ierr =? 0)%Z; [|split; reflexivity].
  match goal with |- context [Update M ?a ?b ?c ?d ?e ?f0 ?g] =>
    destruct (Update M a b c d e f0 g) as [[e_upd mma2] x0] end.
  match goal with |- context [KKTresidual M ?a ?b ?c ?d ?e ?f0 ?g] =>
    destruct (KKTresidual M a b c d e f0 g)
      as [[[e_kkt mma3] kkterr_l2] kkterr_linf] end.
  split; reflexivity.
Qed.

Lemma loop_on_bufs_bounds P M n :
  forall B iter mma,
    b_lb (loop_on_bufs P M n B iter mma).1.1.2 = b_lb B /\
    b_ub (loop_on_bufs P M n B iter mma).1.1.2 = b_ub B.
Proof.
  induction n as [|n IH]; intros B iter mma; [split; reflexivity|].
  cbn [loop_on_bufs].
  pose proof (iteration_on_bufs_bounds P M B iter mma) as [H1 H2].
  destruct (iteration_on_bufs P M B iter mma) as [[[r B1] ev1] t1].
  cbn [fst snd] in H1, H2. destruct r as [mma1|e]; [|split; assumption].
  specialize (IH B1 (iter + 1)%Z mma1).
  destruct (loop_on_bufs P M n B1 (iter + 1) mma1) as [[[r2 B2] ev2] t2].
  cbn [fst snd] in *. destruct IH as [-> ->]. split; assumption.
Qed.

(** X9. The permanent bounds are written by [getVarsAndBounds] (line 105)
    and by nothing else in [optimize]: whatever the number of passes and
    however the call ends, [np_lb] and [np_ub] hold what the problem put
    there at the start of the call. *)
Theorem optimize_keeps_permanent_bounds M o niter w f r w' :
  opt_wf o w ->
  comm_rank (get_mpi_comm (prob o)) = 0%Z -> fp o = Some f ->
  optimize M o niter w = (r, w') ->
  nd_read w' (np_lb o)
  = filled (nd_read w (np_lb o))
      (getVarsAndBounds (prob o) (nd_read w (np_x o)) (nd_read w (np_lb o))
         (nd_read w (np_ub o))).1.2 /\
  nd_read w' (np_ub o)
  = filled (nd_read w (np_ub o))
      (getVarsAndBounds (prob o) (nd_read w (np_x o)) (nd_read w (np_lb o))
         (nd_read w (np_ub o))).2.
Proof.
  intros Hwf Hr Hf E.
  destruct (optimize_spec M o niter w f Hwf Hr Hf)
    as (w'' & E' & _ & AA & _).
  rewrite E in E'. injection E' as _ <-.
  destruct AA as (_ & Alb & Aub & _). rewrite Alb, Aub.
  unfold optimize_on_bufs.
  set (B := setup_on_bufs (prob o)
              (get_bufs o (next_vec w) (S (next_vec w)) w)).
  set (mma0 := MMA_new M (get_num_vars (prob o)) (get_num_cons (prob o))
                 (b_x B)).
  pose proof (loop_on_bufs_bounds (prob o) M (Z.to_nat niter) B 0%Z mma0)
    as [H1 H2].
  destruct (loop_on_bufs (prob o) M (Z.to_nat niter) B 0 mma0)
    as [[[r0 B'] ev] txt].
  cbn [fst snd] in *. rewrite H1, H2. split; reflexivity.
Qed.

Lemma optimize_keeps_permanent_bounds_witness :
  nd_read toy_w3 (np_lb toy_o)
  = filled (nd_read toy_w (np_lb toy_o))
      (getVarsAndBounds (prob toy_o) (nd_read toy_w (np_x toy_o))
         (nd_read toy_w (np_lb toy_o)) (nd_read toy_w (np_ub toy_o))).1.2 /\
  nd_read toy_w3 (np_ub toy_o)
  = filled (nd_read toy_w (np_ub toy_o))
      (getVarsAndBounds (prob toy_o) (nd_read toy_w (np_x toy_o))
         (nd_read toy_w (np_lb toy_o)) (nd_read toy_w (np_ub toy_o))).2.
Proof.
  exact (optimize_keeps_permanent_bounds toy_M toy_o 3 toy_w "mma4py.log"
           (Ok tt) toy_w3 toy_wf eq_refl eq_refl toy_three_passes).
Defined.

(** *** The solver object *)

Lemma iteration_on_bufs_events P M B iter mma :
  forallb loop_event (iteration_on_bufs P M B iter mma).1.2 = true.
Proof.
  unfold iteration_on_bufs.
  destruct (evalObjCon P (b_x B) (b_cons B)) as [obj cons0].
  destruct (evalObjConGrad P (b_x B) (b_g B) (b_gcon B)) as [g0 gcon0].
  destruct (SetOuterMovelimit M mma (b_lb B) (b_ub B) movelim (b_x B)
              (b_lbt B) (b_ubt B)) as [[[ierr mma1] lo0] hi0].
  destruct (ierr =? 0)%Z; [|reflexivity].
  match goal with |- context [Update M ?a ?b ?c ?d ?e ?f0 ?g] =>
    destruct (Update M a b c d e f0 g) as [[e_upd mma2] x0] end.
  match goal with |- context [KKTresidual M ?a ?b ?c ?d ?e ?f0 ?g] =>
    destruct (KKTresidual M a b c d e f0 g)
      as [[[e_kkt mma3] kkterr_l2] kkterr_linf] end.
  reflexivity.
Qed.

Lemma loop_on_bufs_events P M n :
  forall B iter mma,
    forallb loop_event (loop_on_bufs P M n B iter mma).1.2 = true.
Proof.
  induction n as [|n IH]; intros B iter mma; [reflexivity|].
  cbn [loop_on_bufs].
  pose proof (iteration_on_bufs_events P M B iter mma) as H1.
  destruct (iteration_on_bufs P M B iter mma) as [[[r B1] ev1] t1].
  cbn [fst snd] in H1. destruct r as [mma1|e]; [|exact H1].
  specialize (IH B1 (iter + 1)%Z mma1).
  destruct (loop_on_bufs P M n B1 (iter + 1) mma1) as [[[r2 B2] ev2] t2].
  cbn [fst snd] in *. rewrite forallb_app, H1, IH. reflexivity.
Qed.

(** X10. Every call of [optimize] asks the problem for the initial design
    once, builds the solver once (line 128), and destroys it at the exit it
    takes, the error exits of the loop included: the solver is a local
    object of the function. Between the construction and the destruction
    there are only the five calls of the loop body. *)
Theorem solver_lives_for_one_call M o niter w f r w' :
  opt_wf o w ->
  comm_rank (get_mpi_comm (prob o)) = 0%Z -> fp o = Some f ->
  optimize M o niter w = (r, w') ->
  exists x1 calls,
    trace w' = trace w ++
      [EvGetMpiComm; EvGetNumVars; EvGetNumVarsLocal; EvGetNumCons;
       EvGetVarsAndBounds;
       EvMMANew (get_num_vars (prob o)) (get_num_cons (prob o)) x1]
      ++ calls ++ [EvMMADelete] /\
    forallb loop_event calls = true.
Proof.
  intros Hwf Hr Hf E.
  destruct (optimize_spec M o niter w f Hwf Hr Hf)
    as (w'' & E' & _ & _ & T & _).
  rewrite E in E'. injection E' as _ <-.
  unfold optimize_on_bufs in T.
  set (B := setup_on_bufs (prob o)
              (get_bufs o (next_vec w) (S (next_vec w)) w)) in *.
  set (mma0 := MMA_new M (get_num_vars (prob o)) (get_num_cons (prob o))
                 (b_x B)) in *.
  pose proof (loop_on_bufs_events (prob o) M (Z.to_nat niter) B 0%Z mma0)
    as Hev.
  destruct (loop_on_bufs (prob o) M (Z.to_nat niter) B 0 mma0)
    as [[[r0 B'] ev] txt].
  cbn [fst snd] in *.
  exists (b_x B), ev. split; [exact T | exact Hev].
Qed.

Lemma solver_lives_for_one_call_witness :
  exists x1 calls,
    trace toy_w_failed = trace toy_w ++
      [EvGetMpiComm; EvGetNumVars; EvGetNumVarsLocal; EvGetNumCons;
       EvGetVarsAndBounds;
       EvMMANew (get_num_vars (prob toy_o)) (get_num_cons (prob toy_o)) x1]
      ++ calls ++ [EvMMADelete] /\
    forallb loop_event calls = true.
Proof.
  exact (solver_lives_for_one_call toy_M_movelimit_fails toy_o 1 toy_w
           "mma4py.log" (Err 1%Z) toy_w_failed toy_wf eq_refl eq_refl
           toy_failed_call).
Defined.

(** *** The design returned *)

(** X11. [getOptimizedDesign] hands out the array the design vector is bound
    to, not a copy: after any call of [optimize] it reads what the vector of
    the solver holds, and what the caller writes into it is what the vector
    holds afterwards. *)
Theorem optimized_design_is_shared M o niter w f r w' :
  opt_wf o w ->
  comm_rank (get_mpi_comm (prob o)) = 0%Z -> fp o = Some f ->
  optimize M o niter w = (r, w') ->
  nd_read w' (getOptimizedDesign o) = vec_read w' (vec_x o) /\
  forall l,
    vec_read (nd_write (getOptimizedDesign o) l w') (vec_x o)
    = filled (nd_read w' (getOptimizedDesign o)) l.
Proof.
  intros Hwf Hr Hf E.
  destruct (optimize_spec M o niter w f Hwf Hr Hf) as (w'' & E' & Hwf' & _).
  rewrite E in E'. injection E' as _ <-.
  unfold getOptimizedDesign.
  pose proof (wf_x _ _ Hwf') as Ax. pose proof (wf_vec_x _ _ Hwf') as Vx.
  split; [symmetry; eapply vec_read_view; eassumption|].
  intros l.
  assert (S : same_shape w' (nd_write (np_x o) l w'))
    by (eapply same_shape_nd_write; exact Ax).
  rewrite (vec_read_view _ _ (np_x o) (get_num_vars_local (prob o))).
  - eapply nd_read_write_eq. exact Ax.
  - eapply array_ok_shape; eassumption.
  - eapply view_ok_shape; eassumption.
Qed.

Lemma optimized_design_is_shared_witness :
  nd_read toy_w3 (getOptimizedDesign toy_o) = vec_read toy_w3 (vec_x toy_o) /\
  forall l,
    vec_read (nd_write (getOptimizedDesign toy_o) l toy_w3) (vec_x toy_o)
    = filled (nd_read toy_w3 (getOptimizedDesign toy_o)) l.
Proof.
  exact (optimized_design_is_shared toy_M toy_o 3 toy_w "mma4py.log"
           (Ok tt) toy_w3 toy_wf eq_refl eq_refl toy_three_passes).
Defined.

(** *** A call that fails *)

Lemma iteration_on_bufs_failure P M B iter mma e :
  (iteration_on_bufs P M B iter mma).1.1.1 = Err e ->
  (e <> 0%Z /\
   (SetOuterMovelimit M mma (b_lb B) (b_ub B) movelim (b_x B) (b_lbt B)
      (b_ubt B)).1.1.1 = e) /\
  b_x (iteration_on_bufs P M B iter mma).1.1.2 = b_x B /\
  (iteration_on_bufs P M B iter mma).2 = ""%string /\
  count_updates (iteration_on_bufs P M B iter mma).1.2 = 0%nat.
Proof.
  unfold iteration_on_bufs.
  destruct (evalObjCon P (b_x B) (b_cons B)) as [obj cons0].
  destruct (evalObjConGrad P (b_x B) (b_g B) (b_gcon B)) as [g0 gcon0].
  destruct (SetOuterMovelimit M mma (b_lb B) (b_ub B) movelim (b_x B)
              (b_lbt B) (b_ubt B)) as [[[ierr mma1] lo0] hi0].
  destruct (ierr =? 0)%Z eqn:E0.
  - match goal with |- context [Update M ?a ?b ?c ?d ?e ?f0 ?g] =>
      destruct (Update M a b c d e f0 g) as [[e_upd mma2] x0] end.
    match goal with |- context [KKTresidual M ?a ?b ?c ?d ?e ?f0 ?g] =>
      destruct (KKTresidual M a b c d e f0 g)
        as [[[e_kkt mma3] kkterr_l2] kkterr_linf] end.
    discriminate.
  - cbn [fst snd]. intros [= <-]. apply Z.eqb_neq in E0.
    repeat split. exact E0.
Qed.

Lemma iteration_on_bufs_one_update P M B iter mma mma' :
  (iteration_on_bufs P M B iter mma).1.1.1 = Ok mma' ->
  count_updates (iteration_on_bufs P M B iter mma).1.2 = 1%nat.
Proof.
  unfold iteration_on_bufs.
  destruct (evalObjCon P (b_x B) (b_cons B)) as [obj cons0].
  destruct (evalObjConGrad P (b_x B) (b_g B) (b_gcon B)) as [g0 gcon0].
  destruct (SetOuterMovelimit M mma (b_lb B) (b_ub B) movelim (b_x B)
              (b_lbt B) (b_ubt B)) as [[[ierr mma1] lo0] hi0].
  destruct (ierr =? 0)%Z; [|discriminate].
  match goal with |- context [Update M ?a ?b ?c ?d ?e ?f0 ?g] =>
    destruct (Update M a b c d e f0 g) as [[e_upd mma2] x0] end.
  match goal with |- context [KKTresidual M ?a ?b ?c ?d ?e ?f0 ?g] =>
    destruct (KKTresidual M a b c d e f0 g)
      as [[[e_kkt mma3] kkterr_l2] kkterr_linf] end.
  reflexivity.
Qed.

Lemma loop_on_bufs_failure P M n :
  forall B iter mma e,
  (loop_on_bufs P M n B iter mma).1.1.1 = Err e ->
  (e <> 0%Z /\
   exists mma' lb ub x lo hi,
     (SetOuterMovelimit M mma' lb ub movelim x lo hi).1.1.1 = e) /\
  exists k,
    (k < n)%nat /\
    (loop_on_bufs P M k B iter mma).1.1.1 = Ok tt /\
    b_x (loop_on_bufs P M n B iter mma).1.1.2
    = b_x (loop_on_bufs P M k B iter mma).1.1.2 /\
    (loop_on_bufs P M n B iter mma).2 = (loop_on_bufs P M k B iter mma).2 /\
    count_updates (loop_on_bufs P M n B iter mma).1.2 = k.
Proof.
  induction n as [|n IH]; intros B iter mma e; [discriminate|].
  cbn [loop_on_bufs].
  pose proof (iteration_on_bufs_failure P M B iter mma) as HF.
  pose proof (iteration_on_bufs_one_update P M B iter mma) as HO.
  destruct (iteration_on_bufs P M B iter mma) as [[[r B1] ev1] t1] eqn:EI.
  cbn [fst snd] in HF, HO.
  destruct r as [mma1|e1].
  - specialize (IH B1 (iter + 1)%Z mma1 e).
    destruct (loop_on_bufs P M n B1 (iter + 1) mma1)
      as [[[r2 B2] ev2] t2] eqn:EL.
    cbn [fst snd] in *. intros He.
    destruct (IH He) as (Hne & k & Hk & HkOk & Hx & Ht & Hc).
    split; [exact Hne|]. exists (S k). split; [lia|].
    cbn [loop_on_bufs]. rewrite EI.
    destruct (loop_on_bufs P M k B1 (iter + 1) mma1) as [[[r3 B3] ev3] t3].
    cbn [fst snd] in *.
    split; [exact HkOk|]. split; [exact Hx|].
    split; [rewrite Ht; reflexivity|].
    rewrite count_updates_app, (HO mma1 eq_refl), Hc. reflexivity.
  - cbn [fst snd]. intros [= <-].
    destruct (HF e1 eq_refl) as ((Hne & Hcode) & Hx & Ht & Hc).
    split; [split; [exact Hne | do 6 eexists; exact Hcode]|].
    exists 0%nat. split; [lia|].
    cbn [loop_on_bufs fst snd]. repeat split; assumption.
Qed.

(** The calls of a run of the loop that fails: those of the passes made
    before, then the two evaluations and the move-limit step of the pass
    that fails, all three at the design the run leaves. *)
Lemma loop_on_bufs_failure_events P M n :
  forall B iter mma e,
  (loop_on_bufs P M n B iter mma).1.1.1 = Err e ->
  exists evk lb ub,
    (loop_on_bufs P M n B iter mma).1.2
    = evk ++ [EvEvalObjCon (b_x (loop_on_bufs P M n B iter mma).1.1.2);
              EvEvalObjConGrad (b_x (loop_on_bufs P M n B iter mma).1.1.2);
              EvSetOuterMovelimit lb ub movelim
                (b_x (loop_on_bufs P M n B iter mma).1.1.2)].
Proof.
  induction n as [|n IH]; intros B iter mma e; [discriminate|].
  cbn [loop_on_bufs].
  assert (HF : forall e1, (iteration_on_bufs P M B iter mma).1.1.1 = Err e1 ->
            exists lb ub,
              (iteration_on_bufs P M B iter mma).1.2
              = [EvEvalObjCon (b_x (iteration_on_bufs P M B iter mma).1.1.2);
                 EvEvalObjConGrad
                   (b_x (iteration_on_bufs P M B iter mma).1.1.2);
                 EvSetOuterMovelimit lb ub movelim
                   (b_x (iteration_on_bufs P M B iter mma).1.1.2)]).
  { unfold iteration_on_bufs.
    destruct (evalObjCon P (b_x B) (b_cons B)) as [obj cons0].
    destruct (evalObjConGrad P (b_x B) (b_g B) (b_gcon B)) as [g0 gcon0].
    destruct (SetOuterMovelimit M mma (b_lb B) (b_ub B) movelim (b_x B)
                (b_lbt B) (b_ubt B)) as [[[ierr mma1] lo0] hi0].
    destruct (ierr =? 0)%Z.
    - match goal with |- context [Update M ?a ?b ?c ?d ?e ?f0 ?g] =>
        destruct (Update M a b c d e f0 g) as [[e_upd mma2] x0] end.
      match goal with |- context [KKTresidual M ?a ?b ?c ?d ?e ?f0 ?g] =>
        destruct (KKTresidual M a b c d e f0 g)
          as [[[e_kkt mma3] kkterr_l2] kkterr_linf] end.
      discriminate.
    - intros e1 _. cbn [fst snd b_x]. eexists _, _. reflexivity. }
  destruct (iteration_on_bufs P M B iter mma) as [[[r B1] ev1] t1] eqn:EI.
  cbn [fst snd] in HF.
  destruct r as [mma1|e1].
  - specialize (IH B1 (iter + 1)%Z mma1 e).
    destruct (loop_on_bufs P M n B1 (iter + 1) mma1)
      as [[[r2 B2] ev2] t2] eqn:EL.
    cbn [fst snd] in *. intros He.
    destruct (IH He) as (evk & lb & ub & ->).
    exists (ev1 ++ evk), lb, ub. rewrite <- app_assoc. reflexivity.
  - cbn [fst snd]. intros _.
    destruct (HF e1 eq_refl) as (lb & ub & ->).
    exists [], lb, ub. reflexivity.
Qed.

(** X12. On the rank that writes the log, with an open log: a call of
    [optimize] that returns an error code straight after a move-limit
    step (the last call made to the solver before it is destroyed is
    [SetOuterMovelimit]: the call failed at line 138). The code is not
    0; fewer than [niter] passes were completed, as many as there are
    updates in the calls of the run; the design buffer and the log are
    what a call with that many passes leaves when it succeeds, and that
    design is the one the failing move-limit step was given: the passes
    completed before the failure are kept, the pass that fails changes
    neither the design nor the log. *)
Theorem failed_call_keeps_completed_passes M o niter w f e w' pre lb ub fr x :
  opt_wf o w ->
  comm_rank (get_mpi_comm (prob o)) = 0%Z -> fp o = Some f ->
  optimize M o niter w = (Err e, w') ->
  trace w' = trace w ++ pre ++ [EvSetOuterMovelimit lb ub fr x; EvMMADelete] ->
  e <> 0%Z /\
  x = nd_read w' (np_x o) /\
  exists wk,
    (Z.of_nat (count_updates pre) < niter)%Z /\
    optimize M o (Z.of_nat (count_updates pre)) w = (Ok tt, wk) /\
    nd_read w' (np_x o) = nd_read wk (np_x o) /\
    file_text w' f = file_text wk f.
Proof.
  intros Hwf Hr Hf E Htr.
  destruct (optimize_spec M o niter w f Hwf Hr Hf)
    as (w'' & E' & _ & AA & TT & FT & _).
  rewrite E in E'. injection E' as ER <-.
  rewrite Htr in TT. apply app_inv_head in TT.
  unfold optimize_on_bufs in ER, AA, FT, TT.
  set (B := setup_on_bufs (prob o)
              (get_bufs o (next_vec w) (S (next_vec w)) w)) in *.
  set (mma0 := MMA_new M (get_num_vars (prob o)) (get_num_cons (prob o))
                 (b_x B)) in *.
  pose proof (loop_on_bufs_failure (prob o) M (Z.to_nat niter) B 0%Z mma0 e)
    as HF.
  pose proof (loop_on_bufs_failure_events (prob o) M (Z.to_nat niter) B 0%Z
                mma0 e) as HE.
  destruct (loop_on_bufs (prob o) M (Z.to_nat niter) B 0 mma0)
    as [[[r B'] ev] txt].
  cbn [fst snd] in *.
  destruct (HF (eq_sym ER)) as ((Hne & _) & k & Hk & HkOk & Hx & Ht & Hc).
  destruct (HE (eq_sym ER)) as (evk & lb' & ub' & Hev).
  destruct AA as (Ax & _).
  assert (Hpre : pre ++ [EvSetOuterMovelimit lb ub fr x]
                 = setup_events (prob o) (b_x B) ++ ev).
  { apply (app_inj_tail _ _ EvMMADelete EvMMADelete).
    rewrite <- !app_assoc. exact TT. }
  assert (Hcount : count_updates pre = k).
  { rewrite <- Hc.
    pose proof (f_equal count_updates Hpre) as H.
    rewrite !count_updates_app in H. cbn [count_updates setup_events] in H.
    lia. }
  assert (Hxe : x = b_x B').
  { rewrite Hev in Hpre.
    change (evk ++ [EvEvalObjCon (b_x B'); EvEvalObjConGrad (b_x B');
                    EvSetOuterMovelimit lb' ub' movelim (b_x B')])
      with (evk ++ [EvEvalObjCon (b_x B'); EvEvalObjConGrad (b_x B')]
                ++ [EvSetOuterMovelimit lb' ub' movelim (b_x B')]) in Hpre.
    rewrite !app_assoc in Hpre.
    apply app_inj_tail in Hpre as [_ Hlast]. congruence. }
  split; [exact Hne|]. split; [rewrite Ax; exact Hxe|].
  rewrite Hcount.
  destruct (optimize_spec M o (Z.of_nat k) w f Hwf Hr Hf)
    as (wk & Ek & _ & AAk & _ & FTk & _).
  unfold optimize_on_bufs in Ek, AAk, FTk. rewrite Nat2Z.id in Ek, AAk, FTk.
  fold B in Ek, AAk, FTk. fold mma0 in Ek, AAk, FTk.
  destruct (loop_on_bufs (prob o) M k B 0 mma0) as [[[rk Bk] evk'] txtk].
  cbn [fst snd] in *. subst rk txtk.
  exists wk. split; [lia|]. split; [exact Ek|].
  destruct AAk as (Axk & _).
  split; [rewrite Ax, Axk; exact Hx | rewrite FT, FTk; reflexivity].
Qed.

Lemma toy_failed_later_call :
  optimize (toy_mma_failing_from 2) toy_o 5 toy_w
  = (Err 1%Z, toy_w_failed_later).
Proof. vm_compute. reflexivity. Qed.

Lemma toy_failed_later_trace :
  let pre := take 18 (drop (length (trace toy_w))
                        (trace toy_w_failed_later)) in
  count_updates pre = 2%nat /\
  trace toy_w_failed_later
  = trace toy_w ++ pre
    ++ [EvSetOuterMovelimit [0; 0] [2; 2] movelim [20 # 100; 20 # 100];
        EvMMADelete].
Proof. vm_compute. split; reflexivity. Qed.

Lemma failed_call_keeps_completed_passes_witness :
  exists wk,
    optimize (toy_mma_failing_from 2) toy_o 2 toy_w = (Ok tt, wk) /\
    nd_read toy_w_failed_later (np_x toy_o) = nd_read wk (np_x toy_o) /\
    file_text toy_w_failed_later "mma4py.log" = file_text wk "mma4py.log".
Proof.
  destruct toy_failed_later_trace as (Hc & Htr).
  destruct (failed_call_keeps_completed_passes (toy_mma_failing_from 2) toy_o
              5 toy_w "mma4py.log" 1%Z toy_w_failed_later _ _ _ _ _
              toy_wf eq_refl eq_refl toy_failed_later_call Htr)
    as (_ & _ & wk & _ & Ek & Hx & Ht).
  rewrite Hc in Ek. exists wk. split; [exact Ek|]. split; assumption.
Defined.

(** *** The log over several calls *)

Lemma optimize_log_text M o niter w f w' :
  opt_wf o w ->
  comm_rank (get_mpi_comm (prob o)) = 0%Z -> fp o = Some f ->
  optimize M o niter w = (Ok tt, w') ->
  opt_wf o w' /\
  exists rows,
    length rows = Z.to_nat niter /\
    file_text w' f = (file_text w f +:+ log_lines 0 rows)%string.
Proof.
  intros Hwf Hr Hf E.
  destruct (optimize_spec M o niter w f Hwf Hr Hf)
    as (w'' & E' & Hwf' & _ & _ & FT & _).
  rewrite E in E'. injection E' as ER <-.
  split; [exact Hwf'|].
  unfold optimize_on_bufs in ER, FT.
  set (B := setup_on_bufs (prob o)
              (get_bufs o (next_vec w) (S (next_vec w)) w)) in *.
  set (mma0 := MMA_new M (get_num_vars (prob o)) (get_num_cons (prob o))
                 (b_x B)) in *.
  pose proof (loop_on_bufs_text (prob o) M (Z.to_nat niter) B 0%Z mma0) as Ht.
  destruct (loop_on_bufs (prob o) M (Z.to_nat niter) B 0 mma0)
    as [[[r B'] ev] txt].
  cbn [fst snd] in *.
  destruct (Ht (eq_sym ER)) as (rows & Hl & ->).
  exists rows. split; [exact Hl | exact FT].
Qed.

(** X13. The log is opened once, by the constructor; [optimize] only appends
    to it. After two calls that succeed the file holds what it held, then
    the rows of the first call, then those of the second, each call
    numbering its iterations from 0 (so that the second call, when it makes
    a pass, starts with a header of its own). *)
Theorem log_is_appended_across_calls M o n1 n2 w f w1 w2 :
  opt_wf o w ->
  comm_rank (get_mpi_comm (prob o)) = 0%Z -> fp o = Some f ->
  optimize M o n1 w = (Ok tt, w1) ->
  optimize M o n2 w1 = (Ok tt, w2) ->
  exists rows1 rows2,
    length rows1 = Z.to_nat n1 /\ length rows2 = Z.to_nat n2 /\
    file_text w2 f
    = (file_text w f +:+ log_lines 0 rows1 +:+ log_lines 0 rows2)%string.
Proof.
  intros Hwf Hr Hf E1 E2.
  destruct (optimize_log_text M o n1 w f w1 Hwf Hr Hf E1)
    as (Hwf1 & rows1 & L1 & T1).
  destruct (optimize_log_text M o n2 w1 f w2 Hwf1 Hr Hf E2)
    as (_ & rows2 & L2 & T2).
  exists rows1, rows2. split; [exact L1|]. split; [exact L2|].
  rewrite T2, T1. apply string_app_assoc.
Qed.

Lemma log_is_appended_across_calls_witness :
  exists rows1 rows2,
    length rows1 = Z.to_nat 1 /\ length rows2 = Z.to_nat 1 /\
    file_text toy_w2 "mma4py.log"
    = (file_text toy_w "mma4py.log" +:+ log_lines 0 rows1
       +:+ log_lines 0 rows2)%string.
Proof.
  exact (log_is_appended_across_calls toy_M toy_o 1 1 toy_w "mma4py.log"
           toy_w1 toy_w2 toy_wf eq_refl eq_refl toy_first_call
           toy_second_call).
Defined.

(** *** The temporary bounds *)

(** X14. Lines 107-125: at the head of the loop the two temporary vectors
    hold the permanent bounds, element for element, in storage of their own:
    writing the arrays of the permanent bounds afterwards does not change
    them. *)
Theorem temporary_bounds_start_as_copies M o w :
  opt_wf o w ->
  exists lb_temp ub_temp mma w',
    optimize_setup M o w = (Ok (lb_temp, ub_temp, mma), w') /\
    vec_read w' lb_temp = nd_read w' (np_lb o) /\
    vec_read w' ub_temp = nd_read w' (np_ub o) /\
    forall l u,
      let w'' := nd_write (np_ub o) u (nd_write (np_lb o) l w') in
      vec_read w'' lb_temp = vec_read w' lb_temp /\
      vec_read w'' ub_temp = vec_read w' ub_temp.
Proof.
  intros Hwf.
  destruct (optimize_setup_spec M o w Hwf) as (w' & E & LI & EB & _).
  eexists _, _, _, w'. split; [exact E|].
  pose proof (f_equal b_lbt EB) as E1. pose proof (f_equal b_ubt EB) as E2.
  pose proof (f_equal b_lb EB) as E3. pose proof (f_equal b_ub EB) as E4.
  cbn [get_bufs setup_on_bufs b_lbt b_ubt b_lb b_ub] in E1, E2, E3, E4.
  split; [rewrite E1, E3; reflexivity|].
  split; [rewrite E2, E4; reflexivity|].
  intros l u w''. subst w''.
  destruct LI as [Hwf' (bl & bu & Hl & Hu & Ll & Lu & Hne & Hnl & Hnu)].
  pose proof (wf_lb _ _ Hwf') as Alb. pose proof (wf_ub _ _ Hwf') as Aub.
  assert (S1 : same_shape w' (nd_write (np_lb o) l w'))
    by (eapply same_shape_nd_write; exact Alb).
  pose proof (array_ok_shape _ _ _ _ S1 Aub) as Aub1.
  rewrite (nd_write_wr _ _ _ _ Aub1), (nd_write_wr _ _ _ _ Alb).
  unfold array_blocks in Hnl, Hnu. cbn [map] in Hnl, Hnu.
  assert (Nl1 : p_block (nd_data (np_lb o)) <> bl).
  { intros <-. apply Hnl. apply elem_of_cons. right.
    apply elem_of_cons. left. reflexivity. }
  assert (Nl2 : p_block (nd_data (np_ub o)) <> bl).
  { intros <-. apply Hnl. do 2 (apply elem_of_cons; right).
    apply elem_of_cons. left. reflexivity. }
  assert (Nu1 : p_block (nd_data (np_lb o)) <> bu).
  { intros <-. apply Hnu. apply elem_of_cons. right.
    apply elem_of_cons. left. reflexivity. }
  assert (Nu2 : p_block (nd_data (np_ub o)) <> bu).
  { intros <-. apply Hnu. do 2 (apply elem_of_cons; right).
    apply elem_of_cons. left. reflexivity. }
  set (n := get_num_vars_local (prob o)) in *.
  assert (R : forall v b,
            vecs w' !! v
            = Some (owned_vec (get_mpi_comm (prob o)) (get_num_vars (prob o))
                      n (Ptr b 0)) ->
            p_block (nd_data (np_lb o)) <> b ->
            p_block (nd_data (np_ub o)) <> b ->
            vec_read
              (wr (p_block (nd_data (np_ub o))) (Z.to_nat n) u
                 (wr (p_block (nd_data (np_lb o))) (Z.to_nat n) l w')) v
            = vec_read w' v).
  { intros v b Hv N1 N2.
    rewrite (vec_read_rd _ v b n), (vec_read_rd w' v b n).
    - rewrite !rd_wr_ne by assumption. reflexivity.
    - eexists. split; [exact Hv|]. split; reflexivity.
    - eexists. split; [exact Hv|]. split; reflexivity. }
  split; eapply R; eassumption.
Qed.

Lemma temporary_bounds_start_as_copies_witness :
  exists lb_temp ub_temp mma w',
    optimize_setup toy_M toy_o toy_w = (Ok (lb_temp, ub_temp, mma), w') /\
    vec_read w' lb_temp = nd_read w' (np_lb toy_o) /\
    vec_read w' ub_temp = nd_read w' (np_ub toy_o).
Proof.
  destruct (temporary_bounds_start_as_copies toy_M toy_o toy_w toy_wf)
    as (a & b & c & w' & E & H1 & H2 & _).
  exists a, b, c, w'. split; [exact E|]. split; assumption.
Defined.

(** *** The violation logged *)

Lemma infeas_fold_attained (l : list Q) (a : Q) :
  fold_left infeas_step l a = a \/ In (fold_left infeas_step l a) l.
Proof.
  revert a. induction l as [|c l IH]; intros a; [left; reflexivity|].
  cbn [fold_left]. destruct (IH (infeas_step a c)) as [H|H].
  - rewrite H. unfold infeas_step. destruct (Qgtb c a).
    + right. left. reflexivity.
    + left. reflexivity.
  - right. right. exact H.
Qed.

(** X15. The number in the last column of a row is 0 or one of the
    constraint values as stored (the loop of lines 155-159 copies an
    element, it computes nothing), and no constraint value is above it. *)
Theorem max_violation_is_attained (cons : list Q) :
  (max_violation cons = 0 \/ In (max_violation cons) cons) /\
  forall c, In c cons -> c <= max_violation cons.
Proof.
  split; [apply infeas_fold_attained|].
  unfold max_violation. generalize 0.
  induction cons as [|c0 l IH]; intros a c Hc; [destruct Hc|].
  cbn [fold_left]. destruct Hc as [<-|Hc]; [|apply IH; exact Hc].
  eapply Qle_trans; [|apply infeas_fold_ge].
  unfold infeas_step, Qgtb. destruct (Qle_bool c0 a) eqn:E; cbn.
  - apply Qle_bool_iff. exact E.
  - apply Qle_refl.
Qed.

(** *** The files *)

Section Files.

Context (R : gmap string string -> gmap string string -> Prop).
Hypothesis R_refl : forall fs, R fs fs.
Hypothesis R_trans : forall a b c, R a b -> R b c -> R a c.

Lemma files_rel_eq {A} (m : petsc A) :
  (forall w, files (m w).2 = files w) -> files_rel R m.
Proof. intros H w. rewrite H. apply R_refl. Qed.

Lemma files_rel_ret {A} (a : A) : files_rel R (mret a).
Proof. apply files_rel_eq. reflexivity. Qed.

Lemma files_rel_bind {A B} (m : petsc A) (k : A -> petsc B) :
  files_rel R m -> (forall a, files_rel R (k a)) -> files_rel R (m ≫= k).
Proof.
  intros Hm Hk w. unfold mbind, petsc_bind. specialize (Hm w).
  destruct (m w) as [[a|e] w1]; cbn [snd] in *; [|exact Hm].
  eapply R_trans; [exact Hm | apply Hk].
Qed.

Ltac files_untouched :=
  apply files_rel_eq; intros ?;
  repeat match goal with
         | |- context [match ?x with _ => _ end] => destruct x
         end;
  reflexivity.

Lemma files_rel_VecCreate comm : files_rel R (VecCreate comm).
Proof. unfold VecCreate, new_vec. files_untouched. Qed.

Lemma files_rel_VecSetSizes v n N : files_rel R (VecSetSizes v n N).
Proof. unfold VecSetSizes. files_untouched. Qed.

Lemma files_rel_VecSetType v ty : files_rel R (VecSetType v ty).
Proof. unfold VecSetType, alloc_block. files_untouched. Qed.

Lemma files_rel_VecGetArray v : files_rel R (VecGetArray v).
Proof. unfold VecGetArray. files_untouched. Qed.

Lemma files_rel_VecRestoreArray v : files_rel R (VecRestoreArray v).
Proof. unfold VecRestoreArray. files_untouched. Qed.

Lemma files_rel_VecDestroy v : files_rel R (VecDestroy v).
Proof. unfold VecDestroy. files_untouched. Qed.

Lemma files_rel_VecNorm v ty : files_rel R (VecNorm v ty).
Proof. unfold VecNorm. files_untouched. Qed.

Lemma files_rel_PetscCall ierr : files_rel R (PetscCall ierr).
Proof. unfold PetscCall. files_untouched. Qed.

Lemma files_rel_allocate comm gsize lsize :
  files_rel R (allocate_petsc_vec comm gsize lsize).
Proof.
  unfold allocate_petsc_vec.
  apply files_rel_bind; [apply files_rel_VecCreate|]. intros x.
  apply files_rel_bind; [apply files_rel_VecSetSizes|]. intros _.
  apply files_rel_bind; [apply files_rel_VecSetType|]. intros _.
  apply files_rel_ret.
Qed.

Lemma vec_write_files v l w : files (vec_write v l w) = files w.
Proof.
  unfold vec_write. destruct (vecs w !! v) as [vo|]; [|reflexivity].
  destruct (v_array vo); reflexivity.
Qed.

Section Driver.

Context (M : MMA_class) (o : Optimizer).
Hypothesis R_print :
  forall s, files_rel R (PetscFPrintf (get_mpi_comm (prob o)) (fp o) s).

Lemma files_rel_iteration ncons lbt ubt iter mma :
  files_rel R (iteration M o (get_mpi_comm (prob o)) ncons lbt ubt iter mma).
Proof.
  unfold iteration.
  apply files_rel_bind.
  { unfold prob_evalObjCon. files_untouched. }
  intros obj. apply files_rel_bind.
  { unfold prob_evalObjConGrad. files_untouched. }
  intros _. apply files_rel_bind.
  { apply files_rel_eq. intros w. unfold mma_SetOuterMovelimit.
    destruct (SetOuterMovelimit M mma _ _ _ _ _ _) as [[[ierr mma1] lo] hi].
    cbn [snd]. rewrite !vec_write_files. reflexivity. }
  intros [ierr mma1]. apply files_rel_bind; [apply files_rel_PetscCall|].
  intros _. apply files_rel_bind.
  { apply files_rel_eq. intros w. unfold mma_Update.
    destruct (Update M mma1 _ _ _ _ _ _) as [[e mma2] x'].
    cbn [snd]. rewrite vec_write_files. reflexivity. }
  intros [e_upd mma2]. apply files_rel_bind.
  { unfold mma_KKTresidual. files_untouched. }
  intros [[[e_kkt mma3] l2] linf]. apply files_rel_bind;
    [apply files_rel_VecNorm|].
  intros x_l1. apply files_rel_bind.
  { unfold read_infeas. files_untouched. }
  intros infeas. apply files_rel_bind.
  { destruct (Z.rem iter 10 =? 0)%Z; [apply R_print | apply files_rel_ret]. }
  intros _. apply files_rel_bind; [apply R_print|].
  intros _. apply files_rel_ret.
Qed.

Lemma files_rel_loop ncons lbt ubt n :
  forall iter mma,
  files_rel R (optimize_loop M o (get_mpi_comm (prob o)) ncons lbt ubt n
                 iter mma).
Proof.
  induction n as [|n IH]; intros iter mma; cbn [optimize_loop].
  - apply files_rel_ret.
  - apply files_rel_bind; [apply files_rel_iteration|]. intros mma1. apply IH.
Qed.

Lemma files_rel_setup : files_rel R (optimize_setup M o).
Proof.
  unfold optimize_setup, call.
  do 4 (apply files_rel_bind; [files_untouched|]; intros _).
  apply files_rel_bind.
  { unfold prob_getVarsAndBounds. files_untouched. }
  intros _. apply files_rel_bind.
  { unfold allocate_temp_bounds. cbv zeta.
    apply files_rel_bind; [apply files_rel_allocate|]. intros lbt.
    apply files_rel_bind; [apply files_rel_allocate|]. intros ubt.
    apply files_rel_bind; [apply files_rel_VecGetArray|]. intros pl.
    apply files_rel_bind; [apply files_rel_VecGetArray|]. intros pu.
    apply files_rel_bind; [files_untouched|]. intros _.
    apply files_rel_bind; [apply files_rel_VecRestoreArray|]. intros _.
    apply files_rel_bind; [apply files_rel_VecRestoreArray|]. intros _.
    apply files_rel_ret. }
  intros [lbt ubt]. apply files_rel_bind.
  { unfold mma_new. files_untouched. }
  intros mma. apply files_rel_ret.
Qed.

Lemma files_rel_optimize niter : files_rel R (optimize M o niter).
Proof.
  unfold optimize. apply files_rel_bind; [apply files_rel_setup|].
  intros [[lbt ubt] mma] w. unfold mma_scope.
  assert (H : files_rel R (optimize_run M o niter lbt ubt mma)).
  { unfold optimize_run.
    apply files_rel_bind; [apply files_rel_loop|]. intros _.
    apply files_rel_bind; [apply files_rel_VecDestroy|]. intros _.
    apply files_rel_bind; [apply files_rel_VecDestroy|]. intros _.
    apply files_rel_ret. }
  specialize (H w). destruct (optimize_run M o niter lbt ubt mma w) as [r w1].
  exact H.
Qed.

End Driver.
End Files.

(** X16. Whatever the object and the store, and however the call ends:
    [optimize] changes no file but the log it was built with, and on a rank
    other than the first of the communicator it changes no file at all. *)
Theorem optimize_writes_the_log_only M o niter w :
  (forall f', fp o <> Some f' ->
     files (optimize M o niter w).2 !! f' = files w !! f') /\
  (comm_rank (get_mpi_comm (prob o)) <> 0%Z ->
   files (optimize M o niter w).2 = files w).
Proof.
  split.
  - apply (files_rel_optimize (same_files_but (fp o))).
    + intros fs f' _. reflexivity.
    + intros a b c H1 H2 f' Hf'. rewrite (H2 f' Hf'). apply H1. exact Hf'.
    + intros s w0 f' Hf'. unfold PetscFPrintf.
      destruct (comm_rank (get_mpi_comm (prob o)) =? 0)%Z; [|reflexivity].
      destruct (fp o) as [f|]; [|reflexivity].
      cbn [snd files with_files]. apply lookup_insert_ne. congruence.
  - intros Hr.
    apply (files_rel_optimize (fun fs fs' => fs' = fs)).
    + reflexivity.
    + intros a b c -> ->. reflexivity.
    + intros s w0. unfold PetscFPrintf.
      replace (comm_rank (get_mpi_comm (prob o)) =? 0)%Z with false
        by (symmetry; apply Z.eqb_neq; exact Hr).
      reflexivity.
Qed.

(** *** A problem without constraints *)

Lemma iteration_on_bufs_no_constraints P M B iter mma mma' :
  b_cons B = [] ->
  (iteration_on_bufs P M B iter mma).1.1.1 = Ok mma' ->
  b_cons (iteration_on_bufs P M B iter mma).1.1.2 = [] /\
  exists r,
    r.2 = 0 /\
    (iteration_on_bufs P M B iter mma).2
    = ((if (Z.rem iter 10 =? 0)%Z then log_header else "")
       +:+ log_row_of iter r)%string.
Proof.
  intros HB. unfold iteration_on_bufs. rewrite HB.
  destruct (evalObjCon P (b_x B) []) as [obj cons0].
  destruct (evalObjConGrad P (b_x B) (b_g B) (b_gcon B)) as [g0 gcon0].
  destruct (SetOuterMovelimit M mma (b_lb B) (b_ub B) movelim (b_x B)
              (b_lbt B) (b_ubt B)) as [[[ierr mma1] lo0] hi0].
  destruct (ierr =? 0)%Z; [|discriminate].
  match goal with |- context [Update M ?a ?b ?c ?d ?e ?f0 ?g] =>
    destruct (Update M a b c d e f0 g) as [[e_upd mma2] x0] end.
  match goal with |- context [KKTresidual M ?a ?b ?c ?d ?e ?f0 ?g] =>
    destruct (KKTresidual M a b c d e f0 g)
      as [[[e_kkt mma3] kkterr_l2] kkterr_linf] end.
  intros _. cbn [fst snd b_cons]. split; [reflexivity|].
  eexists (_, _, _, _, _). split; reflexivity.
Qed.

Lemma loop_on_bufs_no_constraints P M n :
  forall B iter mma,
  b_cons B = [] ->
  (loop_on_bufs P M n B iter mma).1.1.1 = Ok tt ->
  exists rows,
    length rows = n /\ Forall (fun r => r.2 = 0) rows /\
    (loop_on_bufs P M n B iter mma).2 = log_lines iter rows.
Proof.
  induction n as [|n IH]; intros B iter mma HB H.
  - exists []. split; [reflexivity|]. split; [constructor | reflexivity].
  - cbn [loop_on_bufs] in *.
    pose proof (iteration_on_bufs_no_constraints P M B iter mma) as Ht.
    destruct (iteration_on_bufs P M B iter mma) as [[[r B1] ev1] t1].
    cbn [fst snd] in Ht.
    destruct r as [mma1|e]; [|discriminate H].
    destruct (Ht mma1 HB eq_refl) as (HB1 & r & Hr & ->).
    specialize (IH B1 (iter + 1)%Z mma1 HB1).
    destruct (loop_on_bufs P M n B1 (iter + 1) mma1) as [[[r2 B2] ev2] t2].
    cbn [fst snd] in *. destruct (IH H) as (rows & Hl & Hall & ->).
    exists (r :: rows). split; [simpl; f_equal; exact Hl|].
    split; [constructor; assumption|].
    cbn [log_lines]. apply string_app_assoc.
Qed.

(** X17. With no constraint ([ncons = 0]) the loop of lines 155-159 makes no
    pass and [infeas] keeps its start value: every row of a call that
    succeeds has 0 in its last column. *)
Theorem no_constraint_logs_zero_violation M o niter w f w' :
  opt_wf o w ->
  comm_rank (get_mpi_comm (prob o)) = 0%Z -> fp o = Some f ->
  get_num_cons (prob o) = 0%Z ->
  optimize M o niter w = (Ok tt, w') ->
  exists rows,
    length rows = Z.to_nat niter /\ Forall (fun r => r.2 = 0) rows /\
    file_text w' f = (file_text w f +:+ log_lines 0 rows)%string.
Proof.
  intros Hwf Hr Hf Hm E.
  destruct (optimize_spec M o niter w f Hwf Hr Hf)
    as (w'' & E' & _ & _ & _ & FT & _).
  rewrite E in E'. injection E' as ER <-.
  unfold optimize_on_bufs in ER, FT.
  set (B := setup_on_bufs (prob o)
              (get_bufs o (next_vec w) (S (next_vec w)) w)) in *.
  set (mma0 := MMA_new M (get_num_vars (prob o)) (get_num_cons (prob o))
                 (b_x B)) in *.
  assert (HB : b_cons B = []).
  { subst B. cbn [setup_on_bufs get_bufs b_cons].
    apply length_zero_iff_nil.
    rewrite (nd_read_length _ _ _ (wf_cons _ _ Hwf)), Hm. reflexivity. }
  pose proof (loop_on_bufs_no_constraints (prob o) M (Z.to_nat niter) B 0%Z
                mma0 HB) as Ht.
  destruct (loop_on_bufs (prob o) M (Z.to_nat niter) B 0 mma0)
    as [[[r B'] ev] txt].
  cbn [fst snd] in *.
  destruct (Ht (eq_sym ER)) as (rows & Hl & Hall & ->).
  exists rows. split; [exact Hl|]. split; [exact Hall | exact FT].
Qed.

Lemma free_constructed :
  Optimizer_new free_problem "mma4py.log" world0
  = (Constructed free_o, free_w).
Proof. vm_compute. reflexivity. Qed.

Lemma free_wf : opt_wf free_o free_w.
Proof.
  apply (Optimizer_new_wf free_problem "mma4py.log" world0 free_o free_w);
    [simpl; lia | simpl; lia | exact free_constructed].
Qed.

Lemma free_two_passes : optimize toy_M free_o 2 free_w = (Ok tt, free_w2).
Proof. vm_compute. reflexivity. Qed.

Lemma no_constraint_logs_zero_violation_witness :
  exists rows,
    length rows = Z.to_nat 2 /\ Forall (fun r => r.2 = 0) rows /\
    file_text free_w2 "mma4py.log"
    = (file_text free_w "mma4py.log" +:+ log_lines 0 rows)%string.
Proof.
  exact (no_constraint_logs_zero_violation toy_M free_o 2 free_w "mma4py.log"
           free_w2 free_wf eq_refl eq_refl eq_refl free_two_passes).
Defined.

(** *** The width of a row *)

Lemma spaces_length n : String.length (spaces n) = n.
Proof.
  unfold spaces. induction n as [|n IH]; [reflexivity|].
  cbn. f_equal. exact IH.
Qed.

Lemma pad_left_length width s :
  (String.length s <= width)%nat -> String.length (pad_left width s) = width.
Proof.
  intros H. unfold pad_left. rewrite string_app_length, spaces_length. lia.
Qed.

Lemma substring_length_le s : forall n m,
  (String.length (substring n m s) <= m)%nat.
Proof.
  induction s as [|c s IH]; intros [|n] [|m]; cbn; try lia.
  - specialize (IH 0%nat m). lia.
  - apply IH.
  - apply IH.
Qed.

Lemma count_digits_le fuel : forall m k,
  (1 <= k)%nat -> (m < 10 ^ Z.of_nat k)%Z -> (count_digits fuel m <= k)%nat.
Proof.
  induction fuel as [|f IH]; intros m k Hk Hm; cbn [count_digits]; [lia|].
  destruct (m <? 10)%Z eqn:E; [lia|]. apply Z.ltb_ge in E.
  destruct k as [|[|k]]; [lia| |].
  - change (10 ^ Z.of_nat 1)%Z with 10%Z in Hm. lia.
  - apply le_n_S. apply IH; [lia|].
    apply Z.div_lt_upper_bound; [lia|].
    replace (Z.of_nat (S (S k))) with (1 + Z.of_nat (S k))%Z in Hm by lia.
    rewrite Z.pow_add_r in Hm by lia. exact Hm.
Qed.

Lemma decimal_length_le m k :
  (1 <= k)%nat -> (m < 10 ^ Z.of_nat k)%Z ->
  (String.length (decimal m) <= k)%nat.
Proof.
  intros Hk Hm. unfold decimal. rewrite digits_fixed_length.
  apply count_digits_le; assumption.
Qed.

Lemma fmt_d_width z :
  (0 <= z < 10 ^ 6)%Z -> String.length (fmt_d 6 z) = 6%nat.
Proof.
  intros H. unfold fmt_d. apply pad_left_length.
  replace (z <? 0)%Z with false by (symmetry; apply Z.ltb_ge; lia).
  rewrite string_app_nil_l. apply (decimal_length_le _ 6); [lia|].
  rewrite Z.abs_eq by lia. apply H.
Qed.

Lemma render_sci_length r :
  (Z.abs (sci_exp r) < 1000)%Z ->
  (String.length (render_sci 10 r) <= 18)%nat.
Proof.
  intros H. unfold render_sci. cbv zeta.
  rewrite !string_app_length.
  pose proof (substring_length_le (mantissa_digits 10 r) 0 1).
  pose proof (substring_length_le (mantissa_digits 10 r) 1 10).
  assert (String.length
            (if (Z.abs (sci_exp r) <? 10)%Z
             then ("0" +:+ decimal (Z.abs (sci_exp r)))%string
             else decimal (Z.abs (sci_exp r))) <= 3)%nat.
  { destruct (Z.abs (sci_exp r) <? 10)%Z eqn:E.
    - apply Z.ltb_lt in E. rewrite string_app_length.
      pose proof (decimal_length_le (Z.abs (sci_exp r)) 1).
      change (10 ^ Z.of_nat 1)%Z with 10%Z in *. cbn [String.length]. lia.
    - apply (decimal_length_le _ 3); [lia|].
      change (10 ^ Z.of_nat 3)%Z with 1000%Z. exact H. }
  assert (String.length (if sci_neg r then "-"%string else ""%string) <= 1)%nat
    by (destruct (sci_neg r); cbn; lia).
  assert (String.length (if (sci_exp r <? 0)%Z then "-"%string else "+"%string)
          = 1)%nat by (destruct (sci_exp r <? 0)%Z; reflexivity).
  cbn [String.length]. lia.
Qed.

Lemma ge_pow10_below (a d e k : Z) :
  (0 < d)%Z -> (0 <= k)%Z ->
  (a < d * 10 ^ k)%Z -> ge_pow10 a d e = true -> (e < k)%Z.
Proof.
  intros Hd Hk Ha H. unfold ge_pow10 in H.
  destruct (0 <=? e)%Z eqn:E0; [|apply Z.leb_gt in E0; lia].
  apply Z.leb_le in E0, H.
  destruct (Z.lt_ge_cases e k) as [L|L]; [exact L|].
  assert (10 ^ k <= 10 ^ e)%Z by (apply Z.pow_le_mono_r; lia).
  nia.
Qed.

Lemma ge_pow10_above (a d e k : Z) :
  (0 < a)%Z -> (0 <= k)%Z ->
  (d < a * 10 ^ k)%Z -> ge_pow10 a d (e + 1) = false -> (- k <= e + 1)%Z.
Proof.
  intros Ha Hk Hd H. unfold ge_pow10 in H.
  destruct (0 <=? e + 1)%Z eqn:E0; [apply Z.leb_le in E0; lia|].
  apply Z.leb_gt in E0, H.
  destruct (Z.lt_ge_cases (e + 1) (- k)) as [L|L]; [|exact L].
  assert (10 ^ k <= 10 ^ (- (e + 1)))%Z by (apply Z.pow_le_mono_r; lia).
  nia.
Qed.

Lemma to_sci_exp_moderate q :
  moderate q -> (Z.abs (sci_exp (to_sci 10 q)) < 1000)%Z.
Proof.
  intros [Hhi Hlo]. unfold to_sci.
  destruct (Z.abs (Qnum q) =? 0)%Z eqn:E0; [cbn; lia|].
  apply Z.eqb_neq in E0.
  assert (Ha : (0 < Z.abs (Qnum q))%Z) by lia.
  destruct Hlo as [Hz|Hlo]; [lia|].
  destruct (floor_log10_spec (Z.abs (Qnum q)) (Zpos (Qden q)) Ha)
    as [H1 H2]; [lia|].
  assert (Hd : (0 < Zpos (Qden q))%Z) by lia.
  assert (Hk : (0 <= 400)%Z) by lia.
  pose proof (ge_pow10_below _ _ _ 400 Hd Hk Hhi H1) as B1.
  pose proof (ge_pow10_above _ _ _ 400 Ha Hk Hlo H2) as B2.
  cbv zeta.
  match goal with |- context [if ?c then _ else _] => destruct c end;
    cbn [sci_exp]; lia.
Qed.

Lemma fmt_e_width q :
  moderate q -> String.length (fmt_e 20 10 q) = 20%nat.
Proof.
  intros H. unfold fmt_e. apply pad_left_length.
  pose proof (render_sci_length (to_sci 10 q) (to_sci_exp_moderate q H)).
  lia.
Qed.

(** X18. Lines 163-167: for an iteration number below a million and numbers
    of the magnitude of doubles, a row is exactly as wide as the header line
    without the line end it starts with, 106 characters and the line end, so
    that the columns of the log line up under their titles. *)
Theorem log_rows_line_up_with_the_header iter obj kkterr_l2 kkterr_linf
    x_l1 infeas :
  (0 <= iter < 10 ^ 6)%Z ->
  moderate obj -> moderate kkterr_l2 -> moderate kkterr_linf ->
  moderate x_l1 -> moderate infeas ->
  String.length (log_row iter obj kkterr_l2 kkterr_linf x_l1 infeas)
  = 107%nat /\
  String.length log_header = 108%nat.
Proof.
  intros Hi H1 H2 H3 H4 H5. split; [|reflexivity].
  unfold log_row. rewrite !string_app_length.
  rewrite (fmt_d_width _ Hi), !fmt_e_width by assumption. reflexivity.
Qed.

Lemma log_rows_line_up_with_the_header_witness :
  String.length (log_row 0 2 2 1 (6 # 5) 0) = 107%nat.
Proof.
  assert (M : forall n d, (0 < n < 1000)%Z -> (Zpos d < 1000)%Z ->
                          moderate (n # d)).
  { intros n d Hn Hd. unfold moderate. cbn [Qnum Qden].
    assert (1000 < 10 ^ 400)%Z.
    { change 1000%Z with (10 ^ 3)%Z. apply Z.pow_lt_mono_r; lia. }
    split; [|right]; nia. }
  assert (Z0 : moderate 0).
  { unfold moderate. cbn [Qnum Qden]. split; [|left; reflexivity].
    assert (0 < 10 ^ 400)%Z by (apply Z.pow_pos_nonneg; lia). lia. }
  apply (log_rows_line_up_with_the_header 0 2 2 1 (6 # 5) 0);
    [lia | apply M; lia | apply M; lia | apply M; lia | apply M; lia
    | exact Z0].
Defined.

(** *** The passes of one call *)

Lemma eval_points_app l1 l2 :
  eval_points (l1 ++ l2) = eval_points l1 ++ eval_points l2.
Proof.
  induction l1 as [|e l1 IH]; [reflexivity|].
  destruct e; cbn [app eval_points]; rewrite IH; reflexivity.
Qed.

Lemma grad_points_app l1 l2 :
  grad_points (l1 ++ l2) = grad_points l1 ++ grad_points l2.
Proof.
  induction l1 as [|e l1 IH]; [reflexivity|].
  destruct e; cbn [app grad_points]; rewrite IH; reflexivity.
Qed.

Lemma kkt_points_app l1 l2 :
  kkt_points (l1 ++ l2) = kkt_points l1 ++ kkt_points l2.
Proof.
  induction l1 as [|e l1 IH]; [reflexivity|].
  destruct e; cbn [app kkt_points]; rewrite IH; reflexivity.
Qed.

Lemma iteration_on_bufs_chain P M B iter mma mma' :
  (iteration_on_bufs P M B iter mma).1.1.1 = Ok mma' ->
  eval_points (iteration_on_bufs P M B iter mma).1.2 = [b_x B] /\
  grad_points (iteration_on_bufs P M B iter mma).1.2 = [b_x B] /\
  kkt_points (iteration_on_bufs P M B iter mma).1.2
  = [b_x (iteration_on_bufs P M B iter mma).1.1.2].
Proof.
  unfold iteration_on_bufs.
  destruct (evalObjCon P (b_x B) (b_cons B)) as [obj cons0].
  destruct (evalObjConGrad P (b_x B) (b_g B) (b_gcon B)) as [g0 gcon0].
  destruct (SetOuterMovelimit M mma (b_lb B) (b_ub B) movelim (b_x B)
              (b_lbt B) (b_ubt B)) as [[[ierr mma1] lo0] hi0].
  destruct (ierr =? 0)%Z; [|discriminate].
  match goal with |- context [Update M ?a ?b ?c ?d ?e ?f0 ?g] =>
    destruct (Update M a b c d e f0 g) as [[e_upd mma2] x0] end.
  match goal with |- context [KKTresidual M ?a ?b ?c ?d ?e ?f0 ?g] =>
    destruct (KKTresidual M a b c d e f0 g)
      as [[[e_kkt mma3] kkterr_l2] kkterr_linf] end.
  intros _. repeat split.
Qed.

Lemma loop_on_bufs_chain P M n :
  forall B iter mma,
  (loop_on_bufs P M n B iter mma).1.1.1 = Ok tt ->
  eval_points (loop_on_bufs P M n B iter mma).1.2
    ++ [b_x (loop_on_bufs P M n B iter mma).1.1.2]
  = b_x B :: kkt_points (loop_on_bufs P M n B iter mma).1.2 /\
  grad_points (loop_on_bufs P M n B iter mma).1.2
  = eval_points (loop_on_bufs P M n B iter mma).1.2 /\
  length (eval_points (loop_on_bufs P M n B iter mma).1.2) = n.
Proof.
  induction n as [|n IH]; intros B iter mma H; [repeat split|].
  cbn [loop_on_bufs] in *.
  pose proof (iteration_on_bufs_chain P M B iter mma) as HC.
  destruct (iteration_on_bufs P M B iter mma) as [[[r B1] ev1] t1].
  cbn [fst snd] in HC.
  destruct r as [mma1|e]; [|discriminate H].
  destruct (HC mma1 eq_refl) as (E1 & G1 & K1).
  specialize (IH B1 (iter + 1)%Z mma1).
  destruct (loop_on_bufs P M n B1 (iter + 1) mma1) as [[[r2 B2] ev2] t2].
  cbn [fst snd] in *. destruct (IH H) as (IH1 & IH2 & IH3).
  rewrite eval_points_app, grad_points_app, kkt_points_app, E1, G1, K1, IH2.
  cbn [app]. rewrite IH1. cbn [length]. rewrite IH3. repeat split.
Qed.

(** X19. In a call that succeeds, every pass evaluates the objective, the
    constraints and the gradients at one and the same design; the first
    pass does so at the initial design, every later pass at the design
    the pass before it gave to [KKTresidual] (the one [Update] left);
    and the design in [np_x] at the end is the one the last pass gave
    to [KKTresidual]. *)
Theorem passes_follow_one_another M o niter w f w' :
  opt_wf o w ->
  comm_rank (get_mpi_comm (prob o)) = 0%Z -> fp o = Some f ->
  optimize M o niter w = (Ok tt, w') ->
  exists x1 calls,
    trace w' = trace w ++
      [EvGetMpiComm; EvGetNumVars; EvGetNumVarsLocal; EvGetNumCons;
       EvGetVarsAndBounds;
       EvMMANew (get_num_vars (prob o)) (get_num_cons (prob o)) x1]
      ++ calls ++ [EvMMADelete] /\
    length (eval_points calls) = Z.to_nat niter /\
    grad_points calls = eval_points calls /\
    eval_points calls ++ [nd_read w' (np_x o)] = x1 :: kkt_points calls.
Proof.
  intros Hwf Hr Hf E.
  destruct (optimize_spec M o niter w f Hwf Hr Hf)
    as (w'' & E' & _ & AA & T & _).
  rewrite E in E'. injection E' as ER <-.
  unfold optimize_on_bufs in ER, AA, T.
  set (B := setup_on_bufs (prob o)
              (get_bufs o (next_vec w) (S (next_vec w)) w)) in *.
  set (mma0 := MMA_new M (get_num_vars (prob o)) (get_num_cons (prob o))
                 (b_x B)) in *.
  pose proof (loop_on_bufs_chain (prob o) M (Z.to_nat niter) B 0%Z mma0)
    as HC.
  destruct (loop_on_bufs (prob o) M (Z.to_nat niter) B 0 mma0)
    as [[[r0 B'] ev] txt].
  cbn [fst snd] in *.
  destruct (HC (eq_sym ER)) as (C1 & C2 & C3).
  exists (b_x B), ev. split; [exact T|]. split; [exact C3|].
  split; [exact C2|]. destruct AA as (Ax & _). rewrite Ax. exact C1.
Qed.

Lemma passes_follow_one_another_witness :
  exists x1 calls,
    trace toy_w3 = trace toy_w ++
      [EvGetMpiComm; EvGetNumVars; EvGetNumVarsLocal; EvGetNumCons;
       EvGetVarsAndBounds;
       EvMMANew (get_num_vars (prob toy_o)) (get_num_cons (prob toy_o)) x1]
      ++ calls ++ [EvMMADelete] /\
    length (eval_points calls) = Z.to_nat 3 /\
    grad_points calls = eval_points calls /\
    eval_points calls ++ [nd_read toy_w3 (np_x toy_o)] = x1 :: kkt_points calls.
Proof.
  exact (passes_follow_one_another toy_M toy_o 3 toy_w "mma4py.log" toy_w3
           toy_wf eq_refl eq_refl toy_three_passes).
Defined.

Lemma iteration_on_bufs_movelimit P M B iter mma :
  Forall (movelimit_args (b_lb B) (b_ub B))
    (iteration_on_bufs P M B iter mma).1.2.
Proof.
  unfold iteration_on_bufs.
  destruct (evalObjCon P (b_x B) (b_cons B)) as [obj cons0].
  destruct (evalObjConGrad P (b_x B) (b_g B) (b_gcon B)) as [g0 gcon0].
  destruct (SetOuterMovelimit M mma (b_lb B) (b_ub B) movelim (b_x B)
              (b_lbt B) (b_ubt B)) as [[[ierr mma1] lo0] hi0].
  destruct (ierr =? 0)%Z.
  - match goal with |- context [Update M ?a ?b ?c ?d ?e ?f0 ?g] =>
      destruct (Update M a b c d e f0 g) as [[e_upd mma2] x0] end.
    match goal with |- context [KKTresidual M ?a ?b ?c ?d ?e ?f0 ?g] =>
      destruct (KKTresidual M a b c d e f0 g)
        as [[[e_kkt mma3] kkterr_l2] kkterr_linf] end.
    cbn [fst snd app]. repeat constructor.
  - cbn [fst snd]. repeat constructor.
Qed.

Lemma loop_on_bufs_movelimit P M n :
  forall B iter mma,
    Forall (movelimit_args (b_lb B) (b_ub B))
      (loop_on_bufs P M n B iter mma).1.2.
Proof.
  induction n as [|n IH]; intros B iter mma; [constructor|].
  cbn [loop_on_bufs].
  pose proof (iteration_on_bufs_movelimit P M B iter mma) as H1.
  pose proof (iteration_on_bufs_bounds P M B iter mma) as [Hlb Hub].
  destruct (iteration_on_bufs P M B iter mma) as [[[r B1] ev1] t1].
  cbn [fst snd] in *. destruct r as [mma1|e]; [|exact H1].
  specialize (IH B1 (iter + 1)%Z mma1). rewrite Hlb, Hub in IH.
  destruct (loop_on_bufs P M n B1 (iter + 1) mma1) as [[[r2 B2] ev2] t2].
  cbn [fst snd] in *. apply Forall_app. split; assumption.
Qed.

(** X20. Every call of the move-limit step that [optimize] makes, in
    whichever pass, is given the permanent bounds as they are at the end
    of the call (those the problem wrote at line 105) and the fraction
    0.2 of line 102. *)
Theorem move_limits_use_the_permanent_bounds M o niter w f r w' :
  opt_wf o w ->
  comm_rank (get_mpi_comm (prob o)) = 0%Z -> fp o = Some f ->
  optimize M o niter w = (r, w') ->
  exists calls,
    trace w' = trace w ++ calls /\
    Forall (movelimit_args (nd_read w' (np_lb o)) (nd_read w' (np_ub o)))
      calls.
Proof.
  intros Hwf Hr Hf E.
  destruct (optimize_spec M o niter w f Hwf Hr Hf)
    as (w'' & E' & _ & AA & T & _).
  rewrite E in E'. injection E' as _ <-.
  eexists. split; [exact T|].
  destruct AA as (_ & Alb & Aub & _). rewrite Alb, Aub.
  unfold optimize_on_bufs.
  set (B := setup_on_bufs (prob o)
              (get_bufs o (next_vec w) (S (next_vec w)) w)).
  set (mma0 := MMA_new M (get_num_vars (prob o)) (get_num_cons (prob o))
                 (b_x B)).
  pose proof (loop_on_bufs_movelimit (prob o) M (Z.to_nat niter) B 0%Z mma0)
    as HM.
  pose proof (loop_on_bufs_bounds (prob o) M (Z.to_nat niter) B 0%Z mma0)
    as [H1 H2].
  destruct (loop_on_bufs (prob o) M (Z.to_nat niter) B 0 mma0)
    as [[[r0 B'] ev] txt].
  cbn [fst snd] in *. rewrite H1, H2.
  unfold setup_events. apply Forall_app. split; [repeat constructor|].
  apply Forall_app. split; [exact HM | repeat constructor].
Qed.

Lemma move_limits_use_the_permanent_bounds_witness :
  exists calls,
    trace toy_w3 = trace toy_w ++ calls /\
    Forall (movelimit_args (nd_read toy_w3 (np_lb toy_o))
              (nd_read toy_w3 (np_ub toy_o))) calls.
Proof.
  exact (move_limits_use_the_permanent_bounds toy_M toy_o 3 toy_w
           "mma4py.log" (Ok tt) toy_w3 toy_wf eq_refl eq_refl
           toy_three_passes).
Defined.
